(** * The heredoc / nowdoc external scanner of tree-sitter-hack

    A shallow embedding of [src/scanner.c] and the properties of its
    state machine, its token extents and its serialization format.

    Conventions.
    - A code point ([int32_t]) and a [char] are integers of [Z]; a [uint32_t]
      is a [Z] reduced with [wrap32] wherever the C code computes with it.
    - A heap block or a [char] array is a [list Z]; [memset], [memcpy] and
      [realloc] are written out on lists.
    - The loops of the scanner carry a fuel argument; a result of [None]
      means that the fuel ran out.  [scan_body_total] and
      [scan_start_total] show that the fuel the entry points pass is enough.
*)

From Stdlib Require Import ZArith Lia Bool.
From stdpp Require Import base tactics option list.

Local Open Scope Z_scope.

(** ** Characters *)

Module Chr.
Definition NUL : Z := 0.
Definition NL : Z := 10.          (* newline *)
Definition DQUOTE : Z := 34.      (* double quote *)
Definition DOLLAR : Z := 36.      (* dollar sign *)
Definition SQUOTE : Z := 39.      (* single quote *)
Definition SEMI : Z := 59.        (* semicolon *)
Definition BACKSLASH : Z := 92.   (* backslash *)
Definition UNDERSCORE : Z := 95.  (* underscore *)
Definition LBRACE : Z := 123.     (* opening brace *)
End Chr.

(** The parts of the C library and of the C implementation the scanner
    relies on: the wide-character classes of [<wctype.h>], which depend on
    the locale, and the conversion from [int32_t] to [char], which is
    implementation-defined. *)
Class Platform := {
  iswspace : Z -> bool;
  iswalpha : Z -> bool;
  iswalnum : Z -> bool;
  to_char : Z -> Z;
}.

Definition is_ascii_alpha (c : Z) : bool :=
  ((65 <=? c) && (c <=? 90)) || ((97 <=? c) && (c <=? 122)).

Definition is_ascii_digit (c : Z) : bool := (48 <=? c) && (c <=? 57).

(** The C locale, with a signed 8-bit [char]. *)
Definition c_locale : Platform := {|
  iswspace c := (c =? 32) || ((9 <=? c) && (c <=? 13));
  iswalpha c := is_ascii_alpha c;
  iswalnum c := is_ascii_alpha c || is_ascii_digit c;
  to_char c := (c + 128) mod 256 - 128;
|}.

(** ** Unsigned 32-bit arithmetic and memory blocks *)

Definition wrap32 (z : Z) : Z := z mod 2 ^ 32.

(** [memset (m + off, v, n)] *)
Definition memset (m : list Z) (off : Z) (v : Z) (n : Z) : list Z :=
  take (Z.to_nat off) m ++ replicate (Z.to_nat n) v
    ++ drop (Z.to_nat (off + n)) m.

(** [memcpy (dst + off, src, n)] *)
Definition memcpy (dst : list Z) (off : Z) (src : list Z) (n : Z) : list Z :=
  take (Z.to_nat off) dst ++ take (Z.to_nat n) src
    ++ drop (Z.to_nat (off + n)) dst.

(** [realloc (m, size)]: the old contents up to [size]; the new bytes are
    taken to be zero (the callers overwrite them at once). *)
Definition realloc (m : list Z) (size : Z) : list Z :=
  take (Z.to_nat size) m ++ replicate (Z.to_nat size - length m)%nat 0.

(** ** The growable byte buffer *)

Record String := { cap : Z; len : Z; data : list Z }.

Definition string_new : String :=
  {| cap := 16; len := 0; data := replicate 17%nat 0 |}.

Definition string_resize (s : String) (c : Z) : String :=
  let tmp := realloc (data s) (wrap32 (c + 1)) in
  {| cap := c;
     len := len s;
     data := memset tmp (len s) 0 (wrap32 (wrap32 (c + 1) - len s)) |}.

Definition string_grow (s : String) (c : Z) : String :=
  if cap s <? c then string_resize s c else s.

Definition string_push (s : String) (chr : Z) : String :=
  let s := if cap s =? len s
           then string_resize s (Z.max 16 (wrap32 (len s * 2))) else s in
  {| cap := cap s;
     len := wrap32 (len s + 1);
     data := <[Z.to_nat (len s) := chr]> (data s) |}.

Definition string_clear (s : String) : String :=
  {| cap := cap s; len := 0; data := memset (data s) 0 0 (cap s) |}.

(** The bytes [data[0 .. len)], which are all the scanner ever reads. *)
Definition string_bytes (s : String) : list Z := take (Z.to_nat (len s)) (data s).

(** ** Tokens and scanner state *)

Inductive TokenType :=
| HEREDOC_START
| HEREDOC_START_NEWLINE
| HEREDOC_BODY
| HEREDOC_END_NEWLINE
| HEREDOC_END
| EMBEDDED_OPENING_BRACE.

Definition TokenType_eqb (a b : TokenType) : bool :=
  match a, b with
  | HEREDOC_START, HEREDOC_START
  | HEREDOC_START_NEWLINE, HEREDOC_START_NEWLINE
  | HEREDOC_BODY, HEREDOC_BODY
  | HEREDOC_END_NEWLINE, HEREDOC_END_NEWLINE
  | HEREDOC_END, HEREDOC_END
  | EMBEDDED_OPENING_BRACE, EMBEDDED_OPENING_BRACE => true
  | _, _ => false
  end.

Record Scanner := {
  delimiter : String;
  is_nowdoc : bool;
  did_start : bool;
  did_end : bool;
}.

(** [tree_sitter_hack_external_scanner_create] *)
Definition create : Scanner :=
  {| delimiter := string_new;
     is_nowdoc := false; did_start := false; did_end := false |}.

(** What the scanner can observe of its state: the three flags and the
    bytes of the delimiter. *)
Definition observe (s : Scanner) : bool * bool * bool * Z * list Z :=
  (is_nowdoc s, did_start s, did_end s, len (delimiter s),
   string_bytes (delimiter s)).

(** ** Serialization *)

(** Modelled from the spec: [TREE_SITTER_SERIALIZATION_BUFFER_SIZE] is
    declared in [tree_sitter/parser.h], which is not part of the sources;
    the scratch region of the host is typically 1024 bytes. *)
Definition TREE_SITTER_SERIALIZATION_BUFFER_SIZE : Z := 1024.

Definition char_of_bool (b : bool) : Z := if b then 1 else 0.
Definition bool_of_char (c : Z) : bool := negb (c =? 0).

Definition serialize (scanner : Scanner) (buffer : list Z) : Z * list Z :=
  let d := delimiter scanner in
  if TREE_SITTER_SERIALIZATION_BUFFER_SIZE <=? wrap32 (len d + 2) then (0, buffer)
  else
    let buffer := <[0%nat := char_of_bool (is_nowdoc scanner)]> buffer in
    let buffer := <[1%nat := char_of_bool (did_start scanner)]> buffer in
    let buffer := <[2%nat := char_of_bool (did_end scanner)]> buffer in
    let buffer := memcpy buffer 3 (data d) (len d) in
    (wrap32 (len d + 3), buffer).

(** [deserialize] returns the state it leaves, and [None] where the C call
    has no result: [memcpy] reads [len] bytes from offset 3 of the buffer
    and writes them into the block of the delimiter, so the buffer and the
    block have to hold them.  With the lengths 1 and 2 the subtraction
    [length - 3] wraps, [string_resize] is asked for a block of that size,
    and [memcpy] for as many bytes of the buffer. *)
Definition deserialize (scanner : Scanner) (buffer : list Z) (length : Z)
    : option Scanner :=
  if length =? 0 then
    Some {| delimiter := string_clear (delimiter scanner);
            is_nowdoc := false; did_start := false; did_end := false |}
  else
    let d := delimiter scanner in
    let d := {| cap := cap d; len := wrap32 (length - 3); data := data d |} in
    let d := string_grow d (len d) in
    if (3 + len d <=? Z.of_nat (Datatypes.length buffer))
       && (len d <=? Z.of_nat (Datatypes.length (data d)))
    then
      let d := {| cap := cap d; len := len d;
                  data := memcpy (data d) 0 (drop 3%nat buffer) (len d) |} in
      Some {| delimiter := d;
              is_nowdoc := bool_of_char (default 0 (buffer !! 0%nat));
              did_start := bool_of_char (default 0 (buffer !! 1%nat));
              did_end := bool_of_char (default 0 (buffer !! 2%nat)) |}
    else None.

(** ** The host lexer *)

(** Modelled from the spec: the [TSLexer] of the host ([tree_sitter/parser.h]
    and the tree-sitter runtime are not part of the sources).  Section 4.1
    gives the three primitives: [peek] is the code point under the cursor and 0
    at the end of the input; [advance] consumes one code point, and with
    [skip] keeps it out of the token; [mark_end] records the cursor as the end
    of the token.  Advancing at the end of the input leaves the cursor where
    it is. *)
Record TSLexer := {
  input : list Z;
  pos : nat;
  token_start : nat;
  token_end : option nat;
  result_symbol : TokenType;
}.

Definition lookahead (lx : TSLexer) : Z := default 0 (input lx !! pos lx).

Definition advance (lx : TSLexer) (skip : bool) : TSLexer :=
  if (pos lx <? length (input lx))%nat then
    {| input := input lx;
       pos := S (pos lx);
       token_start := if skip then S (pos lx) else token_start lx;
       token_end := token_end lx;
       result_symbol := result_symbol lx |}
  else lx.

Definition mark_end (lx : TSLexer) : TSLexer :=
  {| input := input lx; pos := pos lx; token_start := token_start lx;
     token_end := Some (pos lx); result_symbol := result_symbol lx |}.

(** The macros [peek], [next], [skip], [stop] and [set] of the scanner. *)
Definition peek (lx : TSLexer) : Z := lookahead lx.
Definition next (lx : TSLexer) : TSLexer := advance lx false.
Definition skip (lx : TSLexer) : TSLexer := advance lx true.
Definition stop (lx : TSLexer) : TSLexer := mark_end lx.
Definition set (symbol : TokenType) (lx : TSLexer) : TSLexer :=
  {| input := input lx; pos := pos lx; token_start := token_start lx;
     token_end := token_end lx; result_symbol := symbol |}.

(** A lexer as the host hands it to [scan]: cursor and token start at [p],
    no end marked yet, and the result symbol zeroed. *)
Definition lexer_at (inp : list Z) (p : nat) : TSLexer :=
  {| input := inp; pos := p; token_start := p; token_end := None;
     result_symbol := HEREDOC_START |}.

(** Where the token ends when the scan returns: the marked end, or the
    cursor when [mark_end] was never called. *)
Definition token_end_position (lx : TSLexer) : nat :=
  default (pos lx) (token_end lx).

(** The code points not yet consumed. *)
Definition remaining (lx : TSLexer) : nat := (length (input lx) - pos lx)%nat.

(** ** The scanner proper *)

Definition is_identifier_start_char (chr : Z) : bool :=
  (chr =? Chr.UNDERSCORE) || ((97 <=? chr) && (chr <=? 122))
  || ((65 <=? chr) && (chr <=? 90)) || ((128 <=? chr) && (chr <=? 255)).

(** The [for] loop of [scan_delimiter] walks [data[0 .. len)]. *)
Fixpoint scan_delimiter_loop (bytes : list Z) (lx : TSLexer) : bool * TSLexer :=
  match bytes with
  | [] => (true, lx)
  | b :: bytes =>
      if b =? peek lx then scan_delimiter_loop bytes (next lx)
      else (false, lx)
  end.

Definition scan_delimiter (scanner : Scanner) (lx : TSLexer) : bool * TSLexer :=
  scan_delimiter_loop (string_bytes (delimiter scanner)) lx.

Definition set_flags (scanner : Scanner) (start_ end_ : bool) : Scanner :=
  {| delimiter := delimiter scanner; is_nowdoc := is_nowdoc scanner;
     did_start := start_; did_end := end_ |}.

(** The state after [HEREDOC_END]: the delimiter cleared, the flags reset. *)
Definition close_heredoc (scanner : Scanner) : Scanner :=
  {| delimiter := string_clear (delimiter scanner);
     is_nowdoc := false; did_start := false; did_end := false |}.

Definition ScanResult : Type := option (bool * Scanner * TSLexer).

(** One turn of the [for (;;)] loop of [scan_body]: it either returns from
    the function or goes round again.  Every path that goes round again
    (each [continue], and the end of the loop body) has set [did_advance]. *)
Inductive Iteration :=
| Return (result : bool) (scanner : Scanner) (lx : TSLexer)
| Continue (lx : TSLexer).

Definition scan_body_iteration (scanner : Scanner) (lx : TSLexer)
    (did_advance : bool) : Iteration :=
  if peek lx =? Chr.NUL then Return false scanner lx
  else if peek lx =? Chr.BACKSLASH then Continue (next (next lx))
  else if ((peek lx =? Chr.LBRACE) || (peek lx =? Chr.DOLLAR))
          && negb (is_nowdoc scanner) then
    let lx := stop lx in
    (* the opening-brace part; [true] when it returns EMBEDDED_OPENING_BRACE *)
    let '(brace, lx) :=
      if peek lx =? Chr.LBRACE then
        let lx := next lx in
        if (peek lx =? Chr.DOLLAR) && negb did_advance then
          let lx := next (stop lx) in
          if is_identifier_start_char (peek lx)
          then (true, set EMBEDDED_OPENING_BRACE lx)
          else (false, lx)
        else (false, lx)
      else (false, lx) in
    if brace then Return true scanner lx
    else if peek lx =? Chr.DOLLAR then
      let lx := next lx in
      if is_identifier_start_char (peek lx)
      then Return did_advance scanner (set HEREDOC_BODY lx)
      else Continue lx
    else Continue lx
  else if did_end scanner || (peek lx =? Chr.NL) then
    let lx :=
      if did_advance then next (stop lx)
      else if peek lx =? Chr.NL then
        if did_end scanner then skip lx else stop (next lx)
      else lx in
    let '(matched, lx) := scan_delimiter scanner lx in
    if matched then
      let lx := if negb did_advance && did_end scanner then stop lx else lx in
      let lx := if peek lx =? Chr.SEMI then next lx else lx in
      if peek lx =? Chr.NL then
        if did_advance then
          Return true (set_flags scanner true true) (set HEREDOC_BODY lx)
        else if did_end scanner then
          Return true (close_heredoc scanner) (set HEREDOC_END lx)
        else
          Return true (set_flags scanner true true) (set HEREDOC_END_NEWLINE lx)
      else Continue lx
    else if negb (did_start scanner) && negb did_advance then
      Return true (set_flags scanner true (did_end scanner))
        (set HEREDOC_START_NEWLINE lx)
    else Continue lx
  else Continue (next lx).

Fixpoint scan_body_loop (fuel : nat) (scanner : Scanner) (lx : TSLexer)
    (did_advance : bool) : ScanResult :=
  match fuel with
  | O => None
  | S fuel =>
      match scan_body_iteration scanner lx did_advance with
      | Return result scanner lx => Some (result, scanner, lx)
      | Continue lx => scan_body_loop fuel scanner lx true
      end
  end.

Definition scan_body (scanner : Scanner) (lx : TSLexer) : ScanResult :=
  scan_body_loop (2 * remaining lx + 2) scanner lx false.

Section WithPlatform.
Context {P : Platform}.

(** [while (iswspace(peek())) skip();] *)
Fixpoint skip_whitespace (fuel : nat) (lx : TSLexer) : option TSLexer :=
  match fuel with
  | O => None
  | S fuel =>
      if iswspace (peek lx) then skip_whitespace fuel (skip lx) else Some lx
  end.

(** [while (iswalnum(peek()) || peek() is an underscore) { string_push; next(); }] *)
Fixpoint scan_identifier_rest (fuel : nat) (d : String) (lx : TSLexer)
    : option (String * TSLexer) :=
  match fuel with
  | O => None
  | S fuel =>
      if iswalnum (peek lx) || (peek lx =? Chr.UNDERSCORE) then
        scan_identifier_rest fuel (string_push d (to_char (peek lx))) (next lx)
      else Some (d, lx)
  end.

Definition scan_start (scanner : Scanner) (lx : TSLexer) : ScanResult :=
  match skip_whitespace (S (remaining lx)) lx with
  | None => None
  | Some lx =>
    let nowdoc := peek lx =? Chr.SQUOTE in
    let d := string_clear (delimiter scanner) in
    let '(quote, lx) :=
      if nowdoc || (peek lx =? Chr.DQUOTE) then (peek lx, next lx)
      else (0, lx) in
    match
      (if iswalpha (peek lx) || (peek lx =? Chr.UNDERSCORE) then
         scan_identifier_rest (S (remaining lx))
           (string_push d (to_char (peek lx))) (next lx)
       else Some (d, lx))
    with
    | None => None
    | Some (d, lx) =>
      let scanner :=
        {| delimiter := d; is_nowdoc := nowdoc;
           did_start := did_start scanner; did_end := did_end scanner |} in
      if negb (peek lx =? quote) && negb (quote =? 0) then
        (* Opening quote exists, but we found no matching closing quote. *)
        Some (false, scanner, lx)
      else
        let lx := if peek lx =? quote then next lx else lx in
        (* A valid delimiter must end with a newline with no whitespace in
           between. *)
        if negb (peek lx =? Chr.NL) || (len d =? 0) then
          Some (false, scanner, lx)
        else
          let lx := next (stop (set HEREDOC_START lx)) in
          let '(matched, lx) := scan_delimiter scanner lx in
          if matched then
            let lx := if peek lx =? Chr.SEMI then next lx else lx in
            if peek lx =? Chr.NL
            then Some (true, set_flags scanner (did_start scanner) true, lx)
            else Some (true, scanner, lx)
          else Some (true, scanner, lx)
    end
  end.

Definition scan (scanner : Scanner) (lx : TSLexer)
    (expected : TokenType -> bool) : ScanResult :=
  if (expected HEREDOC_BODY || expected HEREDOC_END
      || expected EMBEDDED_OPENING_BRACE)
     && (0 <? len (delimiter scanner))
  then scan_body scanner lx
  else if expected HEREDOC_START then scan_start scanner lx
  else Some (false, scanner, lx).

End WithPlatform.

(** ** Predicates used in the statements *)

(** [lexer_le lx lx']: [lx'] reads the same input as [lx], not before it. *)
Definition lexer_le (lx lx' : TSLexer) : Prop :=
  input lx' = input lx /\ (pos lx <= pos lx')%nat.

Definition lexer_lt (lx lx' : TSLexer) : Prop :=
  input lx' = input lx /\ (pos lx < pos lx')%nat.

(** [same_cursor lx lx']: the two lexers stand at the same place of the same
    input; they may differ in the token they have marked. *)
Definition same_cursor (lx lx' : TSLexer) : Prop :=
  input lx = input lx' /\ pos lx = pos lx'.

(** The shape of the block behind a [String]: [cap + 1] bytes, of which
    [len <= cap] are in use.  The bound on [len] is where the doubling of
    [string_push] stays within 32 bits. *)
Record wf_string (d : String) : Prop := {
  wf_len : 0 <= len d <= cap d;
  wf_len_bound : len d < 2 ^ 31;
  wf_cap : cap d <= 2 ^ 32 - 2;
  wf_data : length (data d) = Z.to_nat (cap d + 1);
}.

Definition wf_scanner (s : Scanner) : Prop := wf_string (delimiter s).

(** The tokens one turn of the loop can succeed with, the value of
    [did_advance] they need, and what they do to the state. *)
Inductive body_outcome (s : Scanner) : bool -> TokenType -> Scanner -> Prop :=
| outcome_brace :
    is_nowdoc s = false ->
    body_outcome s false EMBEDDED_OPENING_BRACE s
| outcome_body_interpolation :
    is_nowdoc s = false ->
    body_outcome s true HEREDOC_BODY s
| outcome_body_close :
    body_outcome s true HEREDOC_BODY (set_flags s true true)
| outcome_end :
    did_end s = true ->
    body_outcome s false HEREDOC_END (close_heredoc s)
| outcome_end_newline :
    did_end s = false ->
    body_outcome s false HEREDOC_END_NEWLINE (set_flags s true true)
| outcome_start_newline :
    did_start s = false ->
    body_outcome s false HEREDOC_START_NEWLINE (set_flags s true (did_end s)).

(** The input that makes a turn of the loop return EMBEDDED_OPENING_BRACE. *)
Definition at_braced_interpolation (lx : TSLexer) : Prop :=
  peek lx = Chr.LBRACE /\ peek (next lx) = Chr.DOLLAR
  /\ is_identifier_start_char (peek (next (next lx))) = true.

(** A body character that no rule of [scan_body] singles out: not the end
    of the input, not a backslash, an opening brace, a dollar sign or a
    newline. *)
Definition plain_body_char (c : Z) : bool :=
  negb ((c =? Chr.NUL) || (c =? Chr.BACKSLASH) || (c =? Chr.LBRACE)
        || (c =? Chr.DOLLAR) || (c =? Chr.NL)).

(** A scanner inside a heredoc whose delimiter is [EOF], for the examples. *)
Definition sample_scanner : Scanner :=
  {| delimiter := string_push (string_push (string_push string_new 69) 79) 70;
     is_nowdoc := false; did_start := false; did_end := false |}.

(** *** The shape of an opener *)

Inductive QuoteKind := Bare | SingleQuoted | DoubleQuoted.

Definition quote_chars (q : QuoteKind) : list Z :=
  match q with
  | Bare => []
  | SingleQuoted => [Chr.SQUOTE]
  | DoubleQuoted => [Chr.DQUOTE]
  end.

Definition is_single_quoted (q : QuoteKind) : bool :=
  match q with SingleQuoted => true | _ => false end.

(** [rest] is whitespace, an optional quote, the identifier [ident], the
    same quote again, and a newline; the character classes are parameters. *)
Definition opener_shape_with (space start part : Z -> bool)
    (rest : list Z) (q : QuoteKind) (ident : list Z) : Prop :=
  exists ws c cs tail,
    rest = ws ++ quote_chars q ++ ident ++ quote_chars q ++ Chr.NL :: tail
    /\ Forall (fun c => space c = true) ws
    /\ ident = c :: cs
    /\ start c = true
    /\ Forall (fun c => part c = true) cs.

Section OpenerShape.
Context {P : Platform}.

(** The tests [scan_start] applies to the first and to the following
    characters of the identifier. *)
Definition ident_start (c : Z) : bool := iswalpha c || (c =? Chr.UNDERSCORE).
Definition ident_part (c : Z) : bool := iswalnum c || (c =? Chr.UNDERSCORE).

(** The openers [scan_start] accepts. *)
Definition opener_shape : list Z -> QuoteKind -> list Z -> Prop :=
  opener_shape_with iswspace ident_start ident_part.

(** The openers of the specification, whose identifier is
    [[_A-Za-z\x80-\xFF][_A-Za-z0-9\x80-\xFF]*]. *)
Definition claimed_ident_part (c : Z) : bool :=
  is_identifier_start_char c || is_ascii_digit c.

Definition claimed_opener_shape : list Z -> QuoteKind -> list Z -> Prop :=
  opener_shape_with iswspace is_identifier_start_char claimed_ident_part.

(** What the statements about [scan_start] need of the character classes:
    the end of the input is neither whitespace nor part of an identifier (so
    the two loops stop there), and whitespace, the quotes, the newline and
    the identifier characters are told apart. *)
Record platform_ok : Prop := {
  iswspace_nul : iswspace Chr.NUL = false;
  iswalpha_nul : iswalpha Chr.NUL = false;
  iswalnum_nul : iswalnum Chr.NUL = false;
  iswspace_alpha c : iswalpha c = true -> iswspace c = false;
  iswspace_underscore : iswspace Chr.UNDERSCORE = false;
  iswspace_squote : iswspace Chr.SQUOTE = false;
  iswspace_dquote : iswspace Chr.DQUOTE = false;
  iswalpha_squote : iswalpha Chr.SQUOTE = false;
  iswalpha_dquote : iswalpha Chr.DQUOTE = false;
  iswalnum_squote : iswalnum Chr.SQUOTE = false;
  iswalnum_dquote : iswalnum Chr.DQUOTE = false;
  iswalnum_newline : iswalnum Chr.NL = false;
}.

(** The classes accept ASCII letters and digits only, and [to_char] keeps
    ASCII as it is; the C locale is such a platform. *)
Record platform_ascii : Prop := {
  iswalpha_ascii c : iswalpha c = true -> is_ascii_alpha c = true;
  iswalnum_ascii c :
    iswalnum c = true -> is_ascii_alpha c || is_ascii_digit c = true;
  to_char_ascii c : 0 <= c < 128 -> to_char c = c;
}.
End OpenerShape.

(** *** Reachable states *)

Section Reachability.
Context {P : Platform}.

(** The states the host can bring the scanner into: it creates the scanner,
    keeps the state of a scan that succeeded, and restores a state with
    [deserialize], from what [serialize] wrote for a reachable state or with
    length 0, into whatever well-formed scanner object it holds.  The inputs
    are shorter than 2^31 code points: [string_push] doubles a 32-bit
    capacity. *)
Inductive reachable : Scanner -> Prop :=
| reachable_create : reachable create
| reachable_scan s lx expected s' lx' :
    reachable s ->
    Z.of_nat (length (input lx)) < 2 ^ 31 ->
    scan s lx expected = Some (true, s', lx') ->
    reachable s'
| reachable_deserialize s s0 buffer n out s' :
    reachable s -> wf_scanner s0 ->
    length buffer = Z.to_nat TREE_SITTER_SERIALIZATION_BUFFER_SIZE ->
    serialize s buffer = (n, out) ->
    deserialize s0 out n = Some s' ->
    reachable s'
| reachable_reset s0 buffer s' :
    wf_scanner s0 -> deserialize s0 buffer 0 = Some s' -> reachable s'.
End Reachability.

(** *** The host driving the scanner *)

(** The [expected] vector that holds of the tokens of [l]. *)
Definition expects (l : list TokenType) : TokenType -> bool :=
  fun t => existsb (TokenType_eqb t) l.

Section Host.
Context {P : Platform}.

(** Modelled from the spec: the host parser, which is not part of the
    sources (sections 2 and 3).  It calls [scan] with the tokens it expects
    at the place where the previous token ended, after having lexed [gap]
    code points itself; it keeps the state and the token of a scan that
    succeeded, and discards the state of a scan that failed.  [drive]
    returns the tokens emitted, each with the state after it. *)
Fixpoint drive (s : Scanner) (inp : list Z) (p : nat)
    (steps : list (nat * (TokenType -> bool))) : list (TokenType * Scanner) :=
  match steps with
  | [] => []
  | (gap, expected) :: steps =>
      match scan s (lexer_at inp (p + gap)) expected with
      | Some (true, s', lx') =>
          (result_symbol lx', s') :: drive s' inp (token_end_position lx') steps
      | Some (false, _, _) => drive s inp (p + gap) steps
      | None => []
      end
  end.
End Host.

(** The order of the tokens of a heredoc literal.  [opened] holds between a
    HEREDOC_START and the next HEREDOC_END; [armed] holds when the latest
    HEREDOC_START, HEREDOC_BODY or HEREDOC_END_NEWLINE of the literal has
    left [did_end] set.  HEREDOC_END is accepted in an opened and armed
    literal only, and closes it; the other tokens of the body are accepted
    in an opened literal only. *)
Fixpoint end_discipline (opened armed : bool)
    (events : list (TokenType * Scanner)) : bool :=
  match events with
  | [] => true
  | (HEREDOC_START, s) :: events => end_discipline true (did_end s) events
  | (HEREDOC_END, _) :: events =>
      opened && armed && end_discipline false false events
  | (HEREDOC_BODY, s) :: events | (HEREDOC_END_NEWLINE, s) :: events =>
      opened && end_discipline true (did_end s) events
  | (HEREDOC_START_NEWLINE, _) :: events
  | (EMBEDDED_OPENING_BRACE, _) :: events =>
      opened && end_discipline true armed events
  end.

(** The order the specification claims: HEREDOC_END only after one of
    HEREDOC_START_NEWLINE, HEREDOC_BODY or HEREDOC_END_NEWLINE of the same
    literal ([seen]). *)
Fixpoint claimed_end_order (seen : bool) (tokens : list TokenType) : bool :=
  match tokens with
  | [] => true
  | HEREDOC_START :: tokens => claimed_end_order false tokens
  | HEREDOC_END :: tokens => seen && claimed_end_order false tokens
  | HEREDOC_START_NEWLINE :: tokens
  | HEREDOC_BODY :: tokens
  | HEREDOC_END_NEWLINE :: tokens => claimed_end_order true tokens
  | EMBEDDED_OPENING_BRACE :: tokens => claimed_end_order seen tokens
  end.

(** Whether a scan returned, and what. *)
Definition succeeded (r : ScanResult) : option bool :=
  match r with Some (b, _, _) => Some b | None => None end.

(** An ASCII letter, digit or underscore. *)
Definition is_delimiter_byte (c : Z) : bool :=
  is_ascii_alpha c || is_ascii_digit c || (c =? Chr.UNDERSCORE).

(** The state after the opener made of 256 letters [A] and a newline, in
    the C locale. *)
Definition long_opener : list Z := replicate 256%nat 65 ++ [Chr.NL].

Definition long_delimiter_state : Scanner :=
  match scan (P := c_locale) create (lexer_at long_opener 0)
          (expects [HEREDOC_START]) with
  | Some (_, s', _) => s'
  | None => create
  end.

(** *** Closing lines *)

(** What follows the delimiter on a closing line: a newline, or a semicolon
    and a newline. *)
Definition closing_tail (rest : list Z) : Prop :=
  exists tail, rest = Chr.NL :: tail \/ rest = Chr.SEMI :: Chr.NL :: tail.

(** A closing line: the delimiter [bytes] and a closing tail. *)
Definition closing_line (bytes rest : list Z) : Prop :=
  exists after, rest = bytes ++ after /\ closing_tail after.

(** The input where the closing delimiter is looked for at the beginning
    of a scan: after the newline under the cursor when there is one. *)
Definition after_newline (lx : TSLexer) : list Z :=
  if peek lx =? Chr.NL then drop (S (pos lx)) (input lx)
  else drop (pos lx) (input lx).

(** A character of the literal text of a body: not NUL and not a backslash,
    and outside a nowdoc neither an opening brace nor a dollar sign.  On
    these [scan_body] only looks for the closing delimiter. *)
Definition literal_body_char (nowdoc : bool) (c : Z) : bool :=
  negb ((c =? Chr.NUL) || (c =? Chr.BACKSLASH))
  && (nowdoc || negb ((c =? Chr.LBRACE) || (c =? Chr.DOLLAR))).

(** No newline of [body] is followed by a closing line of the delimiter
    [bytes], in the input [body ++ tail]. *)
Definition no_closing_line_inside (bytes body tail : list Z) : Prop :=
  forall pre post,
    body = pre ++ Chr.NL :: post -> ~ closing_line bytes (post ++ tail).

(** A nowdoc state with the delimiter [EOF]. *)
Definition sample_nowdoc_scanner : Scanner :=
  {| delimiter := delimiter sample_scanner; is_nowdoc := true;
     did_start := false; did_end := false |}.

(** HEREDOC_START_NEWLINE at most once between two HEREDOC_ENDs, and not
    after a HEREDOC_END_NEWLINE; [seen] holds once one of the two has been
    emitted since the latest HEREDOC_END. *)
Fixpoint start_newline_once (seen : bool) (tokens : list TokenType) : bool :=
  match tokens with
  | [] => true
  | HEREDOC_START_NEWLINE :: tokens =>
      negb seen && start_newline_once true tokens
  | HEREDOC_END_NEWLINE :: tokens => start_newline_once true tokens
  | HEREDOC_END :: tokens => start_newline_once false tokens
  | HEREDOC_START :: tokens
  | HEREDOC_BODY :: tokens
  | EMBEDDED_OPENING_BRACE :: tokens => start_newline_once seen tokens
  end.

(** The host expects a token of the body of a heredoc. *)
Definition expects_body (expected : TokenType -> bool) : bool :=
  expected HEREDOC_BODY || expected HEREDOC_END
  || expected EMBEDDED_OPENING_BRACE.

(** Two scans have done the same: both return the same result and leave
    the lexer in the same state, and the scanner in states that cannot be
    told apart; or neither returns. *)
Definition same_outcome (r1 r2 : ScanResult) : Prop :=
  match r1, r2 with
  | Some (b1, s1, lx1), Some (b2, s2, lx2) =>
      b1 = b2 /\ lx1 = lx2 /\ observe s1 = observe s2
  | None, None => True
  | _, _ => False
  end.

(** The delimiter [EOF] again, in a block of another capacity and with
    another byte behind the delimiter. *)
Definition compact_sample_scanner : Scanner :=
  {| delimiter := {| cap := 3; len := 3; data := [69; 79; 70; 7] |};
     is_nowdoc := false; did_start := false; did_end := false |}.

(** *** Closing lines, decided *)

(** What is left of [rest] behind its prefix [bytes]. *)
Fixpoint strip_prefix (bytes rest : list Z) : option (list Z) :=
  match bytes, rest with
  | [], _ => Some rest
  | b :: bytes, c :: rest => if b =? c then strip_prefix bytes rest else None
  | _ :: _, [] => None
  end.

Definition closing_tailb (rest : list Z) : bool :=
  match rest with
  | c :: rest =>
      (c =? Chr.NL)
      || (c =? Chr.SEMI)
         && match rest with c :: _ => c =? Chr.NL | [] => false end
  | [] => false
  end.

Definition closing_lineb (bytes rest : list Z) : bool :=
  match strip_prefix bytes rest with
  | Some after => closing_tailb after
  | None => false
  end.

(** The code point [j] of [inp] is a newline, and a closing line of the
    delimiter [bytes] comes right after it. *)
Definition closing_line_after (bytes inp : list Z) (j : nat) : bool :=
  match inp !! j with
  | Some c => (c =? Chr.NL) && closing_lineb bytes (drop (S j) inp)
  | None => false
  end.

Section HostScans.
Context {P : Platform}.

(** Modelled from the spec: the host of [drive] again, which here records
    each successful scan as the lexer it returned (the input, the token and
    its end) and the state it left. *)
Fixpoint drive_scans (s : Scanner) (inp : list Z) (p : nat)
    (steps : list (nat * (TokenType -> bool))) : list (TSLexer * Scanner) :=
  match steps with
  | [] => []
  | (gap, expected) :: steps =>
      match scan s (lexer_at inp (p + gap)) expected with
      | Some (true, s', lx') =>
          (lx', s') :: drive_scans s' inp (token_end_position lx') steps
      | Some (false, _, _) => drive_scans s inp (p + gap) steps
      | None => []
      end
  end.
End HostScans.

(** The scan [e] ended its token at a newline that a closing line of the
    delimiter it left follows; for HEREDOC_END_NEWLINE, which covers the
    newline, the token ended right behind that newline. *)
Definition arms (e : TSLexer * Scanner) : bool :=
  let m := token_end_position e.1 in
  closing_line_after (string_bytes (delimiter e.2)) (input e.1)
    (match result_symbol e.1 with
     | HEREDOC_END_NEWLINE => pred m
     | _ => m
     end).

(** HEREDOC_END and the closing lines of the input.  [opened] holds between
    a HEREDOC_START and the next HEREDOC_END.  [armed] holds when, since the
    latest HEREDOC_END, a HEREDOC_START, HEREDOC_BODY or HEREDOC_END_NEWLINE
    has ended at a newline before a closing line ([arms]); a HEREDOC_START
    that is emitted outside a literal counts only its own newline.
    HEREDOC_END is accepted in an opened and armed literal only, and closes
    it; the other tokens of the body are accepted in an opened literal
    only. *)
Fixpoint end_after_closing_line (opened armed : bool)
    (events : list (TSLexer * Scanner)) : bool :=
  match events with
  | [] => true
  | e :: events =>
      match result_symbol e.1 with
      | HEREDOC_START =>
          end_after_closing_line true (opened && armed || arms e) events
      | HEREDOC_END =>
          opened && armed && end_after_closing_line false false events
      | HEREDOC_BODY | HEREDOC_END_NEWLINE =>
          opened && end_after_closing_line true (armed || arms e) events
      | HEREDOC_START_NEWLINE | EMBEDDED_OPENING_BRACE =>
          opened && end_after_closing_line true armed events
      end
  end.

(** * Facts about the host lexer *)

Section LexerFacts.
Implicit Types (lx : TSLexer) (b : bool).

Lemma input_advance lx b : input (advance lx b) = input lx.
Proof. unfold advance. by case_match. Qed.

Lemma token_end_advance lx b : token_end (advance lx b) = token_end lx.
Proof. unfold advance. by case_match. Qed.

Lemma result_symbol_advance lx b :
  result_symbol (advance lx b) = result_symbol lx.
Proof. unfold advance. by case_match. Qed.

Lemma pos_advance_le lx b : (pos lx <= pos (advance lx b))%nat.
Proof. unfold advance. case_match; simpl; lia. Qed.

Lemma pos_advance_S lx b : (pos (advance lx b) <= S (pos lx))%nat.
Proof. unfold advance. case_match; simpl; lia. Qed.

Lemma lookahead_lookup lx c :
  input lx !! pos lx = Some c -> lookahead lx = c.
Proof. unfold lookahead. by intros ->. Qed.

Lemma lookahead_nonzero lx :
  lookahead lx <> 0 ->
  (pos lx < length (input lx))%nat /\ input lx !! pos lx = Some (lookahead lx).
Proof.
  unfold lookahead. destruct (input lx !! pos lx) as [c|] eqn:E; simpl.
  - intros _. split; [by eapply lookup_lt_Some | done].
  - done.
Qed.

Lemma lookahead_eof lx :
  (length (input lx) <= pos lx)%nat -> lookahead lx = 0.
Proof. intros H. unfold lookahead. by rewrite lookup_ge_None_2. Qed.

Lemma pos_advance lx b :
  (pos lx < length (input lx))%nat -> pos (advance lx b) = S (pos lx).
Proof.
  intros H. unfold advance.
  destruct (Nat.ltb_spec (pos lx) (length (input lx))); [done | lia].
Qed.

Lemma advance_eof lx b :
  (length (input lx) <= pos lx)%nat -> advance lx b = lx.
Proof.
  intros H. unfold advance.
  destruct (Nat.ltb_spec (pos lx) (length (input lx))); [lia | done].
Qed.

Lemma remaining_advance_le lx b : (remaining (advance lx b) <= remaining lx)%nat.
Proof.
  unfold remaining. rewrite input_advance.
  pose proof (pos_advance_le lx b). lia.
Qed.

Lemma remaining_advance lx b :
  lookahead lx <> 0 -> S (remaining (advance lx b)) = remaining lx.
Proof.
  intros [H _]%lookahead_nonzero. unfold remaining.
  rewrite input_advance, pos_advance by done. lia.
Qed.

Lemma remaining_mark_end lx : remaining (mark_end lx) = remaining lx.
Proof. done. Qed.

Lemma lookahead_mark_end lx : lookahead (mark_end lx) = lookahead lx.
Proof. done. Qed.

Lemma lookahead_set t lx : lookahead (set t lx) = lookahead lx.
Proof. done. Qed.

(** The lookahead is the head of what is left of the input. *)
Lemma lookahead_drop lx : lookahead lx = default 0 (head (drop (pos lx) (input lx))).
Proof.
  unfold lookahead. rewrite <- (Nat.add_0_r (pos lx)) at 1.
  rewrite <- lookup_drop. by destruct (drop (pos lx) (input lx)).
Qed.

Lemma drop_pos_cons lx c rest :
  drop (pos lx) (input lx) = c :: rest ->
  lookahead lx = c /\ (pos lx < length (input lx))%nat
  /\ forall b, drop (pos (advance lx b)) (input (advance lx b)) = rest.
Proof.
  intros H.
  assert (pos lx < length (input lx))%nat as Hlt.
  { destruct (Nat.lt_ge_cases (pos lx) (length (input lx))) as [|Hge]; [done|].
    by rewrite drop_ge in H. }
  split; [by rewrite lookahead_drop, H | split; [done|]].
  intros b. rewrite input_advance, pos_advance by done.
  replace (S (pos lx)) with (pos lx + 1)%nat by lia.
  by rewrite <- drop_drop, H.
Qed.
End LexerFacts.

(** * Facts about the byte buffer *)

Section StringFacts.
Implicit Types (d : String) (m : list Z).

Lemma wrap32_small z : 0 <= z < 2 ^ 32 -> wrap32 z = z.
Proof. intros H. unfold wrap32. by apply Z.mod_small. Qed.

Lemma wrap32_range z : 0 <= wrap32 z < 2 ^ 32.
Proof. unfold wrap32. by apply Z.mod_pos_bound. Qed.


Lemma length_memset m off v n :
  0 <= off -> 0 <= n -> (Z.to_nat (off + n) <= length m)%nat ->
  length (memset m off v n) = length m.
Proof.
  intros. unfold memset.
  rewrite !length_app, length_take, length_replicate, length_drop. lia.
Qed.

Lemma take_memset m off v n :
  0 <= off -> (Z.to_nat off <= length m)%nat ->
  take (Z.to_nat off) (memset m off v n) = take (Z.to_nat off) m.
Proof.
  intros. unfold memset. rewrite take_app_length'; [done|].
  rewrite length_take. lia.
Qed.

Lemma length_memcpy m off src n :
  0 <= off -> 0 <= n -> (Z.to_nat (off + n) <= length m)%nat ->
  (Z.to_nat n <= length src)%nat ->
  length (memcpy m off src n) = length m.
Proof.
  intros. unfold memcpy.
  rewrite !length_app, !length_take, length_drop. lia.
Qed.

Lemma string_new_wf : wf_string string_new.
Proof. by split; simpl; try lia. Qed.

Lemma string_bytes_length d :
  wf_string d -> length (string_bytes d) = Z.to_nat (len d).
Proof.
  intros [? ? ? Hd]. unfold string_bytes. rewrite length_take, Hd. lia.
Qed.

Lemma string_bytes_empty d : len d = 0 -> string_bytes d = [].
Proof. intros H. unfold string_bytes. by rewrite H. Qed.

Lemma string_clear_wf d : wf_string d -> wf_string (string_clear d).
Proof.
  intros [? ? ? Hd]. split; simpl; try lia.
  rewrite length_memset; lia.
Qed.

Lemma string_clear_len d : len (string_clear d) = 0.
Proof. done. Qed.

Lemma string_clear_bytes d : string_bytes (string_clear d) = [].
Proof. done. Qed.

(** [string_resize] to a capacity that is not smaller keeps the bytes in
    use and yields a block of the new size. *)
Lemma string_resize_spec d c :
  length (data d) = Z.to_nat (cap d + 1) ->
  0 <= cap d <= c -> c <= 2 ^ 32 - 2 -> 0 <= len d <= c ->
  length (data (string_resize d c)) = Z.to_nat (c + 1)
  /\ (len d <= cap d -> string_bytes (string_resize d c) = string_bytes d).
Proof.
  intros Hd Hc Hmax Hl. unfold string_resize, string_bytes. simpl.
  change (2 ^ 32) with 4294967296 in Hmax.
  rewrite (wrap32_small (c + 1)) by (change (2 ^ 32) with 4294967296; lia).
  rewrite (wrap32_small (c + 1 - len d)) by (change (2 ^ 32) with 4294967296; lia).
  assert (length (realloc (data d) (c + 1)) = Z.to_nat (c + 1)) as Hr.
  { unfold realloc. rewrite length_app, length_take, length_replicate. lia. }
  split.
  - rewrite length_memset; lia.
  - intros Hle. rewrite take_memset by lia. unfold realloc.
    rewrite take_app_le by (rewrite length_take; lia).
    rewrite take_take. f_equal. lia.
Qed.

(** [string_push] appends one byte. *)
Lemma string_push_spec d chr :
  wf_string d -> len d + 1 < 2 ^ 31 ->
  wf_string (string_push d chr)
  /\ len (string_push d chr) = len d + 1
  /\ string_bytes (string_push d chr) = string_bytes d ++ [chr].
Proof.
  intros [Hl Hb Hc Hd] Hlt.
  change (2 ^ 31) with 2147483648 in *. change (2 ^ 32) with 4294967296 in *.
  assert (wrap32 (len d * 2) = len d * 2) as Hw2
    by (apply wrap32_small; change (2 ^ 32) with 4294967296; lia).
  assert (wrap32 (len d + 1) = len d + 1) as Hw1
    by (apply wrap32_small; change (2 ^ 32) with 4294967296; lia).
  unfold string_push.
  set (d' := if cap d =? len d then _ else d).
  assert (length (data d') = Z.to_nat (cap d' + 1) /\ len d' = len d
          /\ len d < cap d' /\ cap d' <= 4294967296 - 2
          /\ string_bytes d' = string_bytes d) as (Hd' & Hl' & Hc' & Hm' & Hb').
  { subst d'. destruct (Z.eqb_spec (cap d) (len d)) as [E|E].
    - rewrite Hw2.
      destruct (string_resize_spec d (Z.max 16 (len d * 2))) as [H1 H2];
        try (change (2 ^ 32) with 4294967296); try lia.
      repeat split; simpl; try done; try lia. apply H2. lia.
    - repeat split; try done; lia. }
  rewrite Hl', Hw1. split; [|split]; [split; simpl | done | ].
  - lia.
  - change (2 ^ 31) with 2147483648. lia.
  - change (2 ^ 32) with 4294967296. lia.
  - by rewrite length_insert.
  - unfold string_bytes in *. simpl.
    replace (Z.to_nat (len d + 1)) with (S (Z.to_nat (len d))) by lia.
    erewrite take_S_r; last first.
    { apply list_lookup_insert_eq. lia. }
    rewrite take_insert_ge by lia. rewrite <- Hb', Hl'. done.
Qed.
End StringFacts.

(** * Facts about serialization *)

Section SerializationFacts.
Implicit Types (s : Scanner) (buffer : list Z).


Lemma create_wf : wf_scanner create.
Proof. apply string_new_wf. Qed.

Lemma bool_of_char_of_bool b : bool_of_char (char_of_bool b) = b.
Proof. by destruct b. Qed.

Lemma deserialize_zero s buffer :
  deserialize s buffer 0 = Some (close_heredoc s).
Proof. done. Qed.

Lemma close_heredoc_wf s : wf_scanner s -> wf_scanner (close_heredoc s).
Proof. apply string_clear_wf. Qed.

Lemma observe_close_heredoc s :
  observe (close_heredoc s) = (false, false, false, 0, []).
Proof. done. Qed.

(** What [serialize] returns and writes. *)
Lemma serialize_spec s buffer n out :
  wf_scanner s ->
  length buffer = Z.to_nat TREE_SITTER_SERIALIZATION_BUFFER_SIZE ->
  serialize s buffer = (n, out) ->
  (n = 0 <-> TREE_SITTER_SERIALIZATION_BUFFER_SIZE < 3 + len (delimiter s))
  /\ (n <> 0 ->
      n = 3 + len (delimiter s)
      /\ out = [char_of_bool (is_nowdoc s); char_of_bool (did_start s);
                char_of_bool (did_end s)]
               ++ string_bytes (delimiter s) ++ drop (Z.to_nat n) buffer).
Proof.
  intros [Hl Hb Hc Hd] Hlen. unfold serialize, TREE_SITTER_SERIALIZATION_BUFFER_SIZE in *.
  change (2 ^ 31) with 2147483648 in Hb.
  rewrite !wrap32_small by (change (2 ^ 32) with 4294967296; lia).
  destruct (Z.leb_spec 1024 (len (delimiter s) + 2)) as [Hbig|Hfit];
    intros [= <- <-].
  - split; [split; [lia | done] | done].
  - split; [split; lia |]. intros _. split; [lia|].
    destruct buffer as [|b0 [|b1 [|b2 rest]]]; simpl in Hlen; try lia.
    unfold memcpy, string_bytes.
    replace (Z.to_nat (3 + len (delimiter s)))
      with (3 + Z.to_nat (len (delimiter s)))%nat by lia.
    replace (Z.to_nat (len (delimiter s) + 3))
      with (3 + Z.to_nat (len (delimiter s)))%nat by lia.
    done.
Qed.

(** [deserialize] of what [serialize] wrote, into any well-formed scanner
    object, restores the observable state. *)
Lemma deserialize_serialize s s0 buffer n out :
  wf_scanner s -> wf_scanner s0 ->
  length buffer = Z.to_nat TREE_SITTER_SERIALIZATION_BUFFER_SIZE ->
  serialize s buffer = (n, out) -> n <> 0 ->
  exists s',
    deserialize s0 out n = Some s'
    /\ observe s' = observe s /\ wf_scanner s'.
Proof.
  intros Hs Hs0 Hlen Hser Hn.
  destruct (serialize_spec _ _ _ _ Hs Hlen Hser) as [Hz Hnz].
  destruct (Hnz Hn) as [-> ->]. clear Hnz Hser.
  pose proof (string_bytes_length _ Hs) as Hbl.
  destruct Hs as [Hl Hb Hc Hd]. destruct Hs0 as [Hl0 Hb0 Hc0 Hd0].
  unfold TREE_SITTER_SERIALIZATION_BUFFER_SIZE in *.
  change (2 ^ 31) with 2147483648 in *. change (2 ^ 32) with 4294967296 in *.
  set (n := len (delimiter s)) in *.
  assert (3 + n <= 1024) as Hfit by lia.
  unfold deserialize.
  destruct (Z.eqb_spec (3 + n) 0) as [|_]; [lia|].
  replace (3 + n - 3) with n by lia.
  rewrite (wrap32_small n) by (change (2 ^ 32) with 4294967296; lia).
  cbn [lookup list_lookup default from_option id drop app].
  rewrite !bool_of_char_of_bool.
  set (d1 := {| cap := cap (delimiter s0); len := n; data := data (delimiter s0) |}).
  change (len d1) with n. rewrite drop_0.
  assert (length (data (string_grow d1 n)) = Z.to_nat (cap (string_grow d1 n) + 1)
          /\ n <= cap (string_grow d1 n) <= 4294967296 - 2
          /\ len (string_grow d1 n) = n) as (Hgd & Hgc & Hgl).
  { unfold string_grow. destruct (Z.ltb_spec (cap d1) n) as [Hlt|Hge].
    - destruct (string_resize_spec d1 n) as [H1 _]; subst d1; simpl in *;
        try (change (2 ^ 32) with 4294967296); lia.
    - subst d1; simpl in *. repeat split; try done; lia. }
  assert (memcpy (data (string_grow d1 n)) 0
            (string_bytes (delimiter s) ++ drop (Z.to_nat (3 + n)) buffer) n
          = string_bytes (delimiter s)
            ++ drop (Z.to_nat n) (data (string_grow d1 n))) as Hcp.
  { unfold memcpy. simpl. f_equal.
    rewrite take_app_length'; [done | by rewrite Hbl]. }
  rewrite Hgl, Hcp.
  assert ((3 + n <=? Z.of_nat
             (length (char_of_bool (is_nowdoc s) :: char_of_bool (did_start s)
                      :: char_of_bool (did_end s)
                      :: string_bytes (delimiter s)
                         ++ drop (Z.to_nat (3 + n)) buffer)))
          && (n <=? Z.of_nat (length (data (string_grow d1 n)))) = true)
    as ->.
  { apply andb_true_iff. split; apply Z.leb_le.
    - simpl. rewrite length_app, Hbl, length_drop. lia.
    - rewrite Hgd. lia. }
  eexists. split; [done|]. split.
  - unfold observe. simpl. fold n.
    apply (f_equal (pair (is_nowdoc s, did_start s, did_end s, n))).
    unfold string_bytes at 1. cbn [len data].
    rewrite take_app_length'; [done | by rewrite Hbl].
  - split; simpl; rewrite ?length_app, ?Hbl, ?length_drop; lia.
Qed.
End SerializationFacts.

(** * Facts about the scanner *)


Section LexerOrder.
Implicit Types lx : TSLexer.

Lemma lexer_le_refl lx : lexer_le lx lx.
Proof. by split. Qed.

Lemma lexer_le_trans lx1 lx2 lx3 :
  lexer_le lx1 lx2 -> lexer_le lx2 lx3 -> lexer_le lx1 lx3.
Proof. intros [? ?] [? ?]. split; [congruence | lia]. Qed.

Lemma lexer_lt_le lx lx' : lexer_lt lx lx' -> lexer_le lx lx'.
Proof. intros [? ?]. split; [done | lia]. Qed.

Lemma lexer_lt_le_trans lx1 lx2 lx3 :
  lexer_lt lx1 lx2 -> lexer_le lx2 lx3 -> lexer_lt lx1 lx3.
Proof. intros [? ?] [? ?]. split; [congruence | lia]. Qed.

Lemma lexer_le_lt_trans lx1 lx2 lx3 :
  lexer_le lx1 lx2 -> lexer_lt lx2 lx3 -> lexer_lt lx1 lx3.
Proof. intros [? ?] [? ?]. split; [congruence | lia]. Qed.

Lemma lexer_le_advance lx b : lexer_le lx (advance lx b).
Proof. split; [apply input_advance | apply pos_advance_le]. Qed.

Lemma lexer_lt_advance lx b : peek lx <> 0 -> lexer_lt lx (advance lx b).
Proof.
  intros [H _]%lookahead_nonzero.
  split; [apply input_advance | rewrite pos_advance; [lia | done]].
Qed.

Lemma lexer_le_mark_end lx : lexer_le lx (mark_end lx).
Proof. by split. Qed.

Lemma lexer_le_set t lx : lexer_le lx (set t lx).
Proof. by split. Qed.

Lemma lexer_le_remaining lx lx' :
  lexer_le lx lx' -> (remaining lx' <= remaining lx)%nat.
Proof. intros [Hi Hp]. unfold remaining. rewrite Hi. lia. Qed.

Lemma lexer_lt_remaining lx lx' :
  lexer_lt lx lx' -> peek lx <> 0 -> (remaining lx' < remaining lx)%nat.
Proof.
  intros [Hi Hp] [H _]%lookahead_nonzero. unfold remaining. rewrite Hi. lia.
Qed.

Lemma scan_delimiter_loop_frame bytes lx b lx' :
  scan_delimiter_loop bytes lx = (b, lx') ->
  lexer_le lx lx' /\ token_end lx' = token_end lx
  /\ token_start lx' = token_start lx /\ result_symbol lx' = result_symbol lx.
Proof.
  revert lx. induction bytes as [|c bytes IH]; intros lx; simpl.
  - intros [= <- <-]. by repeat split.
  - case_match.
    + intros (Hle & He & Hs & Hr)%IH. unfold next in *.
      rewrite He, Hs, Hr, token_end_advance, result_symbol_advance.
      split; [|repeat split].
      * eapply lexer_le_trans; [apply lexer_le_advance | done].
      * unfold advance. by case_match.
    + intros [= <- <-]. by repeat split.
Qed.

Lemma scan_delimiter_frame s lx b lx' :
  scan_delimiter s lx = (b, lx') ->
  lexer_le lx lx' /\ token_end lx' = token_end lx
  /\ token_start lx' = token_start lx /\ result_symbol lx' = result_symbol lx.
Proof. apply scan_delimiter_loop_frame. Qed.

Lemma scan_delimiter_le s lx b lx' :
  scan_delimiter s lx = (b, lx') -> lexer_le lx lx'.
Proof. by intros (? & _)%scan_delimiter_frame. Qed.
End LexerOrder.


Section SameCursor.
Implicit Types lx : TSLexer.

Lemma same_cursor_refl lx : same_cursor lx lx.
Proof. done. Qed.

Lemma same_cursor_mark_end lx lx' :
  same_cursor lx lx' -> same_cursor (mark_end lx) lx'.
Proof. done. Qed.

Lemma same_cursor_set t lx lx' :
  same_cursor lx lx' -> same_cursor (set t lx) lx'.
Proof. done. Qed.

Lemma same_cursor_advance lx lx' b b' :
  same_cursor lx lx' -> same_cursor (advance lx b) (advance lx' b').
Proof.
  intros [Hi Hp]. unfold advance. rewrite Hi, Hp.
  case_match; split; simpl; congruence.
Qed.

Lemma same_cursor_peek lx lx' : same_cursor lx lx' -> peek lx = peek lx'.
Proof. intros [Hi Hp]. unfold peek, lookahead. by rewrite Hi, Hp. Qed.

Lemma same_cursor_pos lx lx' : same_cursor lx lx' -> pos lx = pos lx'.
Proof. by intros [_ ?]. Qed.
End SameCursor.

Ltac same_cursor :=
  unfold next, skip, stop;
  repeat match goal with
  | |- same_cursor ?x ?x => apply same_cursor_refl
  | |- same_cursor (advance _ _) (advance _ _) => apply same_cursor_advance
  | |- same_cursor (mark_end _) _ => apply same_cursor_mark_end
  | |- same_cursor (set _ _) _ => apply same_cursor_set
  end.

(** Forget the marks and symbols set on the way: [peek] only depends on the
    cursor. *)
Ltac strip_marks t :=
  lazymatch t with
  | mark_end ?u => strip_marks u
  | stop ?u => strip_marks u
  | set _ ?u => strip_marks u
  | next ?u => let v := strip_marks u in constr:(next v)
  | skip ?u => let v := strip_marks u in constr:(next v)
  | advance ?u _ => let v := strip_marks u in constr:(next v)
  | _ => t
  end.

Ltac has_marks x :=
  lazymatch x with
  | context [mark_end] => idtac
  | context [stop] => idtac
  | context [set] => idtac
  | context [skip] => idtac
  end.

Ltac forget_marks :=
  repeat match goal with
  | |- context [peek ?x] =>
      has_marks x; let y := strip_marks x in
      rewrite (same_cursor_peek x y) by same_cursor
  | H : context [peek ?x] |- _ =>
      has_marks x; let y := strip_marks x in
      rewrite (same_cursor_peek x y) in H by same_cursor
  end.

(** Turn the boolean tests of the scanner into propositions. *)
Ltac bool_hyps :=
  repeat match goal with
  | H : (_ =? _) = true |- _ => apply Z.eqb_eq in H
  | H : (_ =? _) = false |- _ => apply Z.eqb_neq in H
  | H : (_ <? _) = true |- _ => apply Z.ltb_lt in H
  | H : (_ <? _) = false |- _ => apply Z.ltb_ge in H
  | H : negb _ = true |- _ => apply negb_true_iff in H
  | H : negb _ = false |- _ => apply negb_false_iff in H
  | H : (_ && _) = true |- _ => apply andb_true_iff in H as [? ?]
  | H : (_ || _) = false |- _ => apply orb_false_iff in H as [? ?]
  | H : (_ && _) = false |- _ => apply andb_false_iff in H as [?|?]
  | H : (_ || _) = true |- _ => apply orb_true_iff in H as [?|?]
  end.

(** Evaluate the tests of the goal that the hypotheses decide. *)
Ltac bool_goal :=
  repeat match goal with
  | H : ?a = ?b |- context [?a =? ?b] => rewrite (proj2 (Z.eqb_eq a b) H)
  | H : ?a <> ?b |- context [?a =? ?b] => rewrite (proj2 (Z.eqb_neq a b) H)
  end.

(** Chain [lexer_le] steps through an expression built from the macros. *)
Ltac lexer_chain :=
  repeat first
    [ apply lexer_le_refl
    | assumption
    | match goal with
      | |- lexer_le _ (next _) => eapply lexer_le_trans; [|apply lexer_le_advance]
      | |- lexer_le _ (skip _) => eapply lexer_le_trans; [|apply lexer_le_advance]
      | |- lexer_le _ (advance _ _) => eapply lexer_le_trans; [|apply lexer_le_advance]
      | |- lexer_le _ (stop _) => eapply lexer_le_trans; [|apply lexer_le_mark_end]
      | |- lexer_le _ (mark_end _) => eapply lexer_le_trans; [|apply lexer_le_mark_end]
      | |- lexer_le _ (set _ _) => eapply lexer_le_trans; [|apply lexer_le_set]
      | H : scan_delimiter _ ?a = (_, ?b) |- lexer_le _ ?b =>
          eapply lexer_le_trans; [|apply (scan_delimiter_le _ _ _ _ H)]
      end ].

(** Find, in such an expression, an [advance] that is not at the end of the
    input. *)
Ltac lexer_lt_chain :=
  lazymatch goal with
  | |- lexer_lt _ (advance ?x ?b) =>
      first
        [ eapply lexer_le_lt_trans;
          [| apply (lexer_lt_advance x b); assumption ]; lexer_chain
        | eapply lexer_lt_le_trans; [| apply (lexer_le_advance x b)];
          lexer_lt_chain ]
  | |- lexer_lt _ (next ?x) => change (next x) with (advance x false); lexer_lt_chain
  | |- lexer_lt _ (skip ?x) => change (skip x) with (advance x true); lexer_lt_chain
  | |- lexer_lt _ (stop ?x) =>
      eapply lexer_lt_le_trans; [| apply (lexer_le_mark_end x)]; lexer_lt_chain
  | |- lexer_lt _ (mark_end ?x) =>
      eapply lexer_lt_le_trans; [| apply (lexer_le_mark_end x)]; lexer_lt_chain
  | |- lexer_lt _ (set ?t ?x) =>
      eapply lexer_lt_le_trans; [| apply (lexer_le_set t x)]; lexer_lt_chain
  | H : scan_delimiter _ ?a = (_, ?b) |- lexer_lt _ ?b =>
      eapply lexer_lt_le_trans; [| apply (scan_delimiter_le _ _ _ _ H)];
      lexer_lt_chain
  end.

Section ScanBodyFacts.
Implicit Types (s : Scanner) (lx : TSLexer) (da : bool).

(** Going round the loop again never moves the cursor back, and moves it
    forward when [did_advance] was already set. *)
Lemma scan_body_iteration_continue s lx da lx' :
  scan_body_iteration s lx da = Continue lx' ->
  lexer_le lx lx' /\ peek lx <> 0 /\ (da = true -> lexer_lt lx lx').
Proof.
  unfold scan_body_iteration. intros H.
  repeat case_match; simplify_eq; bool_hyps; unfold Chr.NUL in *;
    (split; [lexer_chain | split; [done|]]); intros Hda; try done;
    lexer_lt_chain.
Qed.

Lemma scan_body_iteration_return s lx da r s' lx' :
  scan_body_iteration s lx da = Return r s' lx' -> lexer_le lx lx'.
Proof.
  unfold scan_body_iteration. intros H.
  repeat case_match; simplify_eq; lexer_chain.
Qed.


Lemma scan_body_iteration_outcome s lx da s' lx' :
  scan_body_iteration s lx da = Return true s' lx' ->
  body_outcome s da (result_symbol lx') s'.
Proof.
  unfold scan_body_iteration. intros H.
  repeat case_match; simplify_eq; bool_hyps; simplify_eq; simpl;
    try (by constructor);
    match goal with
    | H : did_end ?x = ?b |- body_outcome _ _ _ (set_flags ?x true ?b) =>
        replace (set_flags x true b) with (set_flags x true (did_end x))
          by (by rewrite H);
        by constructor
    end.
Qed.

(** A failing turn leaves the state alone. *)
Lemma scan_body_iteration_failure s lx da s' lx' :
  scan_body_iteration s lx da = Return false s' lx' -> s' = s.
Proof.
  unfold scan_body_iteration. intros H.
  by repeat case_match; simplify_eq.
Qed.

(** Once [did_advance] is set, a turn can only succeed with HEREDOC_BODY,
    and it has marked the end of the token at or after the place where
    the turn began. *)
Lemma scan_body_iteration_advanced s lx s' lx' :
  scan_body_iteration s lx true = Return true s' lx' ->
  result_symbol lx' = HEREDOC_BODY
  /\ exists m, token_end lx' = Some m /\ (pos lx <= m)%nat.
Proof.
  unfold scan_body_iteration. intros H.
  repeat case_match; simplify_eq; bool_hyps; simplify_eq; simpl;
    (split; [done|]);
    unfold next, skip in *; rewrite ?token_end_advance; simpl;
    repeat match goal with
    | H : scan_delimiter _ _ = _ |- _ =>
        apply scan_delimiter_frame in H as (_ & He & _ & _); rewrite He
    end;
    rewrite ?token_end_advance; simpl; eauto.
Qed.

(** Unfolding of one turn of the loop. *)
Lemma scan_body_loop_S fuel s lx da :
  scan_body_loop (S fuel) s lx da =
  match scan_body_iteration s lx da with
  | Return r s' lx' => Some (r, s', lx')
  | Continue lx' => scan_body_loop fuel s lx' true
  end.
Proof. done. Qed.

(** The loop terminates: twice the remaining input, and one more turn when
    [did_advance] is not set yet, bounds the number of turns. *)
Lemma scan_body_loop_total fuel s lx da :
  (2 * remaining lx + (if da then 0 else 1) < fuel)%nat ->
  exists r, scan_body_loop fuel s lx da = Some r.
Proof.
  revert lx da. induction fuel as [|fuel IH]; intros lx da Hfuel; [lia|].
  rewrite scan_body_loop_S.
  destruct (scan_body_iteration s lx da) as [r s' lx'|lx'] eqn:E; [eauto|].
  apply scan_body_iteration_continue in E as (Hle & Hnz & Hlt).
  apply IH. destruct da.
  - pose proof (lexer_lt_remaining _ _ (Hlt eq_refl) Hnz). lia.
  - pose proof (lexer_le_remaining _ _ Hle). lia.
Qed.

Lemma scan_body_total s lx : exists r, scan_body s lx = Some r.
Proof. apply scan_body_loop_total. lia. Qed.

Lemma scan_body_loop_le fuel s lx da r s' lx' :
  scan_body_loop fuel s lx da = Some (r, s', lx') -> lexer_le lx lx'.
Proof.
  revert lx da. induction fuel as [|fuel IH]; intros lx da; [done|].
  rewrite scan_body_loop_S.
  destruct (scan_body_iteration s lx da) as [r0 s0 lx0|lx0] eqn:E.
  - intros [= -> -> ->]. by eapply scan_body_iteration_return.
  - intros H%IH. apply scan_body_iteration_continue in E as (Hle & _).
    by eapply lexer_le_trans.
Qed.

(** With [did_advance] set, the loop can only succeed with HEREDOC_BODY,
    and the token ends at or after the place where the loop was entered. *)
Lemma scan_body_loop_advanced fuel s lx s' lx' :
  scan_body_loop fuel s lx true = Some (true, s', lx') ->
  result_symbol lx' = HEREDOC_BODY
  /\ exists m, token_end lx' = Some m /\ (pos lx <= m)%nat.
Proof.
  revert lx. induction fuel as [|fuel IH]; intros lx; [done|].
  rewrite scan_body_loop_S.
  destruct (scan_body_iteration s lx true) as [r0 s0 lx0|lx0] eqn:E.
  - intros [= -> -> ->]. by apply scan_body_iteration_advanced in E.
  - intros (Hr & m & Hm & Hle)%IH.
    apply scan_body_iteration_continue in E as ([_ Hp] & _).
    split; [done|]. exists m. split; [done | lia].
Qed.

(** What a successful [scan_body] can have done: one of the outcomes of
    [body_outcome], for the value [did_advance] had when it returned. *)
Lemma scan_body_loop_outcome fuel s lx da s' lx' :
  scan_body_loop fuel s lx da = Some (true, s', lx') ->
  exists da', (da = true -> da' = true)
              /\ body_outcome s da' (result_symbol lx') s'.
Proof.
  revert lx da. induction fuel as [|fuel IH]; intros lx da; [done|].
  rewrite scan_body_loop_S.
  destruct (scan_body_iteration s lx da) as [r0 s0 lx0|lx0] eqn:E.
  - intros [= -> -> ->]. exists da. split; [done|].
    by eapply scan_body_iteration_outcome.
  - intros (da' & Hda & Ho)%IH. exists da'. split; [|done].
    intros _. by apply Hda.
Qed.

Lemma scan_body_loop_failure fuel s lx da s' lx' :
  scan_body_loop fuel s lx da = Some (false, s', lx') -> s' = s.
Proof.
  revert lx da. induction fuel as [|fuel IH]; intros lx da; [done|].
  rewrite scan_body_loop_S.
  destruct (scan_body_iteration s lx da) as [r0 s0 lx0|lx0] eqn:E.
  - intros [= -> -> ->]. by eapply scan_body_iteration_failure.
  - apply IH.
Qed.


Lemma scan_body_iteration_brace s lx da :
  (exists s' lx', scan_body_iteration s lx da = Return true s' lx'
                  /\ result_symbol lx' = EMBEDDED_OPENING_BRACE)
  <-> is_nowdoc s = false /\ da = false /\ at_braced_interpolation lx.
Proof.
  unfold at_braced_interpolation. split.
  - intros (s' & lx' & H & Hr). unfold scan_body_iteration in H.
    repeat case_match; simplify_eq; bool_hyps; simplify_eq;
      forget_marks; done.
  - intros (Hn & -> & H1 & H2 & H3). unfold scan_body_iteration.
    exists s. eexists.
    rewrite H1, Hn. simpl.
    change (peek (stop lx)) with (peek lx). rewrite H1. simpl.
    rewrite (same_cursor_peek (next (stop lx)) (next lx))
      by same_cursor.
    rewrite H2. simpl.
    rewrite (same_cursor_peek (next (stop (next (stop lx)))) (next (next lx)))
      by same_cursor.
    rewrite H3. done.
Qed.
End ScanBodyFacts.

(** * The interpolation rules of [scan_body] *)

Section Interpolation.
Implicit Types (s : Scanner) (lx : TSLexer) (da : bool).

(** C6. [scan_body] emits EMBEDDED_OPENING_BRACE if and only if [is_nowdoc]
    is false, [did_advance] is false, and the input at the cursor is an
    opening brace, a dollar sign and an identifier-start character.  The
    first part states it for the loop at any value of [did_advance] (so the
    token is never emitted for a nowdoc, nor once [did_advance] is set); the
    second for [scan_body] itself, which enters the loop with [did_advance]
    false. *)
Theorem embedded_opening_brace_iff s lx :
  (forall fuel da,
    (exists s' lx', scan_body_loop (S fuel) s lx da = Some (true, s', lx')
                    /\ result_symbol lx' = EMBEDDED_OPENING_BRACE)
    <-> is_nowdoc s = false /\ da = false /\ at_braced_interpolation lx)
  /\ ((exists s' lx', scan_body s lx = Some (true, s', lx')
                      /\ result_symbol lx' = EMBEDDED_OPENING_BRACE)
      <-> is_nowdoc s = false /\ at_braced_interpolation lx).
Proof.
  assert (forall fuel da,
    (exists s' lx', scan_body_loop (S fuel) s lx da = Some (true, s', lx')
                    /\ result_symbol lx' = EMBEDDED_OPENING_BRACE)
    <-> is_nowdoc s = false /\ da = false /\ at_braced_interpolation lx) as Hloop.
  { intros fuel da. rewrite scan_body_loop_S. split.
    - intros (s' & lx' & H & Hr).
      destruct (scan_body_iteration s lx da) as [r0 s0 lx0|lx0] eqn:E.
      + injection H as -> -> ->. apply scan_body_iteration_brace. eauto.
      + apply scan_body_loop_advanced in H as [Hb _]. congruence.
    - intros (s' & lx' & E & Hr)%scan_body_iteration_brace.
      exists s', lx'. by rewrite E. }
  split; [done|]. unfold scan_body.
  replace (2 * remaining lx + 2)%nat with (S (2 * remaining lx + 1)) by lia.
  rewrite Hloop. split; [by intros (? & _ & ?) | by intros [? ?]].
Qed.

Lemma scan_body_iteration_dollar s lx da :
  is_nowdoc s = false -> peek lx = Chr.DOLLAR ->
  is_identifier_start_char (peek (next lx)) = true ->
  scan_body_iteration s lx da = Return da s (set HEREDOC_BODY (next (stop lx))).
Proof.
  intros Hn H1 H2. unfold scan_body_iteration.
  repeat first [ rewrite H1 | rewrite H2 | rewrite Hn
               | progress forget_marks | progress simpl ].
  done.
Qed.


Lemma scan_body_iteration_plain s lx da :
  did_end s = false -> plain_body_char (peek lx) = true ->
  scan_body_iteration s lx da = Continue (next lx).
Proof.
  intros He Hp. unfold plain_body_char in Hp. unfold scan_body_iteration.
  apply negb_true_iff in Hp. bool_hyps.
  repeat match goal with H : _ <> _ |- _ => apply Z.eqb_neq in H; rewrite H end.
  by rewrite He.
Qed.

(** A run of plain characters is consumed, one per turn, and sets
    [did_advance]. *)
Lemma scan_body_loop_plain s body : forall fuel lx da tail,
  did_end s = false -> Forall (fun c => plain_body_char c = true) body ->
  drop (pos lx) (input lx) = body ++ tail ->
  exists lx0,
    scan_body_loop (length body + fuel) s lx da
    = scan_body_loop fuel s lx0 (da || negb (bool_decide (body = [])))
    /\ input lx0 = input lx /\ pos lx0 = (pos lx + length body)%nat
    /\ token_end lx0 = token_end lx.
Proof.
  induction body as [|c body IH]; intros fuel lx da tail He Hb Hd.
  - exists lx. simpl. rewrite orb_false_r, Nat.add_0_r. done.
  - apply Forall_cons in Hb as [Hc Hb].
    simpl in Hd. apply drop_pos_cons in Hd as (Hpk & Hlt & Hd).
    change (length (c :: body) + fuel)%nat with (S (length body + fuel)).
    rewrite scan_body_loop_S, scan_body_iteration_plain;
      [| done | by unfold peek; rewrite Hpk].
    destruct (IH fuel (next lx) true tail He Hb (Hd false))
      as (lx0 & Heq & Hi & Hp & Ht).
    exists lx0. rewrite Heq. unfold next in *.
    rewrite Hi, Hp, Ht, input_advance, token_end_advance, pos_advance by done.
    rewrite orb_true_l, orb_true_r. repeat split; simpl; lia.
Qed.

End Interpolation.


(** * The backslash rule of [scan_body] *)

Section Backslash.
Implicit Types (s : Scanner) (lx : TSLexer) (da : bool).

Lemma scan_body_iteration_backslash s lx da :
  peek lx = Chr.BACKSLASH ->
  scan_body_iteration s lx da = Continue (next (next lx)).
Proof. intros H. unfold scan_body_iteration. by rewrite H. Qed.

Lemma scan_body_iteration_eof s lx da :
  peek lx = Chr.NUL -> scan_body_iteration s lx da = Return false s lx.
Proof. intros H. unfold scan_body_iteration. by rewrite H. Qed.
End Backslash.

(** * Facts about [scan_start] *)

Section ScanStartFacts.
Context {P : Platform}.
Implicit Types (s : Scanner) (lx : TSLexer) (d : String).

Lemma drop_pos_peek lx b :
  (pos lx < length (input lx))%nat ->
  drop (pos lx) (input lx)
  = peek lx :: drop (pos (advance lx b)) (input (advance lx b)).
Proof.
  intros Hlt. rewrite input_advance, pos_advance by done.
  destruct (lookup_lt_is_Some_2 _ _ Hlt) as [c Hc].
  unfold peek. rewrite (lookahead_lookup _ _ Hc). by apply drop_S.
Qed.

(** Two ways of splitting a list into a run of [p] characters and a rest
    that does not start with one are the same. *)
Lemma span_unique (p : Z -> bool) (l1 l2 t1 t2 : list Z) :
  l1 ++ t1 = l2 ++ t2 ->
  Forall (fun c => p c = true) l1 -> Forall (fun c => p c = true) l2 ->
  p (default 0 (head t1)) = false -> p (default 0 (head t2)) = false ->
  l1 = l2 /\ t1 = t2.
Proof.
  revert l2. induction l1 as [|a l1 IH]; intros [|b l2] Heq H1 H2 Ht1 Ht2;
    simpl in *.
  - done.
  - subst t1. apply Forall_cons in H2 as [Hb _]. simpl in Ht1. congruence.
  - subst t2. apply Forall_cons in H1 as [Ha _]. simpl in Ht2. congruence.
  - injection Heq as -> Heq.
    apply Forall_cons in H1 as [_ H1]. apply Forall_cons in H2 as [_ H2].
    destruct (IH l2 Heq H1 H2 Ht1 Ht2) as [-> ->]. done.
Qed.

(** [skip_whitespace] consumes a run of whitespace and nothing else. *)
Lemma skip_whitespace_spec fuel lx lx' :
  skip_whitespace fuel lx = Some lx' ->
  exists ws,
    drop (pos lx) (input lx) = ws ++ drop (pos lx') (input lx')
    /\ Forall (fun c => iswspace c = true) ws
    /\ iswspace (peek lx') = false
    /\ lexer_le lx lx'
    /\ token_end lx' = token_end lx
    /\ result_symbol lx' = result_symbol lx.
Proof.
  revert lx. induction fuel as [|fuel IH]; intros lx; [done|]. simpl.
  destruct (iswspace (peek lx)) eqn:E.
  - intros (ws & Hd & Hws & Hpk & Hle & He & Hr)%IH. unfold skip in *.
    rewrite token_end_advance in He. rewrite result_symbol_advance in Hr.
    assert (lexer_le lx lx') as Hle'
      by (eapply lexer_le_trans; [apply lexer_le_advance | done]).
    destruct (Nat.lt_ge_cases (pos lx) (length (input lx))) as [Hlt|Hge].
    + exists (peek lx :: ws). rewrite (drop_pos_peek lx true Hlt), Hd.
      split_and!; try done. by constructor.
    + rewrite advance_eof in Hd by done. by exists ws.
  - intros [= <-]. exists []. split_and!; try done; apply lexer_le_refl.
Qed.

Lemma skip_whitespace_total fuel lx :
  iswspace Chr.NUL = false -> (remaining lx < fuel)%nat ->
  exists lx', skip_whitespace fuel lx = Some lx'.
Proof.
  intros H0. revert lx. induction fuel as [|fuel IH]; intros lx Hf; [lia|].
  simpl. destruct (iswspace (peek lx)) eqn:E; [|eauto].
  apply IH. assert (peek lx <> 0) as Hnz
    by (intros Hz; unfold Chr.NUL in H0; congruence).
  pose proof (remaining_advance lx true Hnz). unfold skip. lia.
Qed.

(** With a character class that holds of the end of the input, the loop of
    the identifier does not stop there. *)
Lemma scan_identifier_rest_stuck fuel d lx :
  ident_part (peek lx) = true -> (length (input lx) <= pos lx)%nat ->
  scan_identifier_rest fuel d lx = None.
Proof.
  intros E Hge. revert d. induction fuel as [|fuel IH]; intros d; [done|].
  simpl. fold (ident_part (peek lx)). unfold next.
  rewrite E, advance_eof by done. apply IH.
Qed.

(** [scan_identifier_rest] appends a run of identifier characters to the
    delimiter and consumes nothing else. *)
Lemma scan_identifier_rest_spec fuel d lx d' lx' :
  scan_identifier_rest fuel d lx = Some (d', lx') ->
  wf_string d -> len d + Z.of_nat (remaining lx) < 2 ^ 31 ->
  exists cs,
    drop (pos lx) (input lx) = cs ++ drop (pos lx') (input lx')
    /\ Forall (fun c => ident_part c = true) cs
    /\ ident_part (peek lx') = false
    /\ lexer_le lx lx'
    /\ token_end lx' = token_end lx
    /\ result_symbol lx' = result_symbol lx
    /\ wf_string d'
    /\ len d' = len d + Z.of_nat (length cs)
    /\ string_bytes d' = string_bytes d ++ map to_char cs.
Proof.
  revert d lx. induction fuel as [|fuel IH]; intros d lx; [done|]. simpl.
  fold (ident_part (peek lx)).
  destruct (ident_part (peek lx)) eqn:E.
  - intros H Hwf Hb.
    destruct (Nat.lt_ge_cases (pos lx) (length (input lx))) as [Hlt|Hge].
    + destruct (string_push_spec d (to_char (peek lx)) Hwf) as (Hwf1 & Hl1 & Hb1).
      { unfold remaining in Hb. lia. }
      apply IH in H as (cs & Hd & Hcs & Hpk & Hle & He & Hr & Hwf' & Hl' & Hb');
        [| done |]; last first.
      { rewrite Hl1. unfold remaining, next in *.
        rewrite input_advance, pos_advance by done. lia. }
      unfold next in *.
      rewrite token_end_advance in He. rewrite result_symbol_advance in Hr.
      exists (peek lx :: cs). rewrite (drop_pos_peek lx false Hlt), Hd.
      split_and!; try done.
      * by constructor.
      * eapply lexer_le_trans; [apply lexer_le_advance | done].
      * rewrite Hl', Hl1. simpl. lia.
      * rewrite Hb', Hb1, <- app_assoc. done.
    + (* at the end of the input the loop would never stop *)
      unfold next in H. rewrite advance_eof in H by done.
      by rewrite scan_identifier_rest_stuck in H.
  - intros [= <- <-] Hwf Hb. exists []. rewrite app_nil_r. simpl.
    split_and!; try done; try apply lexer_le_refl; lia.
Qed.

Lemma scan_identifier_rest_total fuel d lx :
  iswalnum Chr.NUL = false -> (remaining lx < fuel)%nat ->
  exists r, scan_identifier_rest fuel d lx = Some r.
Proof.
  intros H0. revert d lx. induction fuel as [|fuel IH]; intros d lx Hf; [lia|].
  simpl. destruct (iswalnum (peek lx) || (peek lx =? Chr.UNDERSCORE)) eqn:E;
    [|eauto].
  apply IH. assert (peek lx <> 0) as Hnz.
  { intros Hz. rewrite Hz in E. unfold Chr.NUL in H0. by rewrite H0 in E. }
  pose proof (remaining_advance lx false Hnz). unfold next. lia.
Qed.

(** [scan_start], stage by stage: the lexer [lx1] after the whitespace,
    the quote and the lexer [lx2] after it, the delimiter [d] and the lexer
    [lx3] after the identifier, the lexer [lx4] after the closing quote; the
    result is true when the closing quote and the newline are there and the
    identifier is not empty. *)
Lemma scan_start_unfold s lx r s' lx' :
  scan_start s lx = Some (r, s', lx') ->
  exists lx1 quote lx2 d lx3,
    skip_whitespace (S (remaining lx)) lx = Some lx1
    /\ (quote, lx2)
       = (if (peek lx1 =? Chr.SQUOTE) || (peek lx1 =? Chr.DQUOTE)
          then (peek lx1, next lx1) else (0, lx1))
    /\ (if ident_start (peek lx2)
        then scan_identifier_rest (S (remaining lx2))
               (string_push (string_clear (delimiter s)) (to_char (peek lx2)))
               (next lx2)
        else Some (string_clear (delimiter s), lx2)) = Some (d, lx3)
    /\ r = ((peek lx3 =? quote) || (quote =? 0))
           && (peek (if peek lx3 =? quote then next lx3 else lx3) =? Chr.NL)
           && negb (len d =? 0)
    /\ delimiter s' = d
    /\ is_nowdoc s' = (peek lx1 =? Chr.SQUOTE)
    /\ did_start s' = did_start s
    /\ (r = false -> did_end s' = did_end s)
    /\ (r = true ->
        (did_end s' = did_end s \/ did_end s' = true)
        /\ token_end lx'
           = Some (pos (if peek lx3 =? quote then next lx3 else lx3))
        /\ result_symbol lx' = HEREDOC_START
        /\ lexer_lt (if peek lx3 =? quote then next lx3 else lx3) lx').
Proof.
  unfold scan_start. intros H.
  destruct (skip_whitespace (S (remaining lx)) lx) as [lx1|] eqn:Hws; [|done].
  destruct (if (peek lx1 =? Chr.SQUOTE) || (peek lx1 =? Chr.DQUOTE)
            then (peek lx1, next lx1) else (0, lx1)) as [quote lx2] eqn:Hq.
  fold (ident_start (peek lx2)) in H.
  destruct (if ident_start (peek lx2) then _ else _) as [[d lx3]|] eqn:Hid;
    [|done].
  exists lx1, quote, lx2, d, lx3. split; [done|]. split; [done|].
  split; [exact Hid|]. clear Hws Hq Hid.
  destruct (peek lx3 =? quote) eqn:E1; destruct (quote =? 0) eqn:E2;
    simpl in H |- *; repeat case_match; simplify_eq; bool_hyps;
    bool_goal; simpl; rewrite ?andb_false_r;
    (do 5 (split; [done|])); try done; intros _;
    repeat match goal with
    | H : scan_delimiter _ _ = _ |- _ =>
        apply scan_delimiter_frame in H as (Hle & He & _ & Hr);
        unfold next in He, Hr;
        rewrite token_end_advance in He; rewrite result_symbol_advance in Hr;
        simpl in He, Hr
    | H : peek ?x = Chr.NL |- _ =>
        assert (peek x <> 0) by (rewrite H; done); clear H
    end;
    unfold next; rewrite ?token_end_advance, ?result_symbol_advance;
    (split; [auto|]); (split; [done|]); (split; [done|]);
    fold (next lx3);
    repeat match goal with
    | |- lexer_lt _ (advance ?x ?b) =>
        eapply lexer_lt_le_trans; [|apply (lexer_le_advance x b)]
    end;
    (eapply lexer_lt_le_trans; [|apply Hle]);
    (eapply lexer_le_lt_trans; [|apply lexer_lt_advance; done]);
    by split.
Qed.

Lemma scan_start_total s lx :
  iswspace Chr.NUL = false -> iswalnum Chr.NUL = false ->
  exists r, scan_start s lx = Some r.
Proof.
  intros Hs Ha. unfold scan_start.
  destruct (skip_whitespace_total (S (remaining lx)) lx Hs) as [lx1 ->]; [lia|].
  destruct (if (peek lx1 =? Chr.SQUOTE) || (peek lx1 =? Chr.DQUOTE)
            then (peek lx1, next lx1) else (0, lx1)) as [quote lx2].
  destruct (iswalpha (peek lx2) || (peek lx2 =? Chr.UNDERSCORE)).
  - edestruct (scan_identifier_rest_total (S (remaining lx2)))
      as [[d lx3] ->];
      [done | pose proof (remaining_advance_le lx2 false); unfold next; lia |].
    repeat case_match; eauto.
  - repeat case_match; eauto.
Qed.

Lemma scan_identifier_rest_le fuel d lx d' lx' :
  scan_identifier_rest fuel d lx = Some (d', lx') -> lexer_le lx lx'.
Proof.
  revert d lx. induction fuel as [|fuel IH]; intros d lx; [done|]. simpl.
  destruct (iswalnum (peek lx) || (peek lx =? Chr.UNDERSCORE)).
  - intros Hr%IH. eapply lexer_le_trans; [apply lexer_le_advance | done].
  - intros [= <- <-]. apply lexer_le_refl.
Qed.

(** Where a successful [scan_start] marks the end of the token: at a
    newline, which it has consumed as lookahead only. *)
Lemma scan_start_mark s lx s' lx' :
  scan_start s lx = Some (true, s', lx') ->
  result_symbol lx' = HEREDOC_START
  /\ input lx' = input lx
  /\ exists m,
       token_end lx' = Some m
       /\ input lx !! m = Some Chr.NL
       /\ (pos lx <= m < pos lx')%nat.
Proof.
  intros H.
  apply scan_start_unfold in H
    as (lx1 & quote & lx2 & d & lx3 & Hws & Hq & Hid & Hr & _ & _ & _ & _ & Hok).
  destruct (Hok eq_refl) as (_ & He & Hsym & [Hi4 Hp4]). clear Hok.
  set (lx4 := if peek lx3 =? quote then next lx3 else lx3) in *.
  symmetry in Hr. apply andb_true_iff in Hr as [Hr _].
  apply andb_true_iff in Hr as [_ Hnl]. apply Z.eqb_eq in Hnl.
  apply skip_whitespace_spec in Hws as (_ & _ & _ & _ & Hle1 & _).
  assert (lexer_le lx1 lx2) as Hle2.
  { destruct ((peek lx1 =? Chr.SQUOTE) || (peek lx1 =? Chr.DQUOTE));
      injection Hq as -> ->; [apply lexer_le_advance | apply lexer_le_refl]. }
  assert (lexer_le lx2 lx3) as Hle3.
  { destruct (ident_start (peek lx2)).
    - apply scan_identifier_rest_le in Hid.
      eapply lexer_le_trans; [apply lexer_le_advance | done].
    - injection Hid as <- <-. apply lexer_le_refl. }
  assert (lexer_le lx3 lx4) as Hle4.
  { subst lx4. case_match; [apply lexer_le_advance | apply lexer_le_refl]. }
  destruct (lexer_le_trans _ _ _ Hle1
              (lexer_le_trans _ _ _ Hle2 (lexer_le_trans _ _ _ Hle3 Hle4)))
    as [Hi Hp].
  assert (peek lx4 <> 0) as Hnz by (by rewrite Hnl).
  apply lookahead_nonzero in Hnz as [_ Hlk].
  split; [done|]. split; [congruence|].
  exists (pos lx4). split; [done|]. split; [|lia].
  rewrite <- Hi, Hlk. f_equal. done.
Qed.

(** The delimiter [scan_start] leaves behind, whatever it returns: a
    well-formed buffer that holds the characters it accepted as an
    identifier. *)
Lemma scan_start_delimiter s lx r s' lx' :
  scan_start s lx = Some (r, s', lx') ->
  wf_scanner s -> Z.of_nat (length (input lx)) < 2 ^ 31 ->
  wf_scanner s'
  /\ exists ident,
       string_bytes (delimiter s') = map to_char ident
       /\ Forall (fun c => ident_start c || ident_part c = true) ident.
Proof.
  intros H Hwf Hlen.
  apply scan_start_unfold in H
    as (lx1 & quote & lx2 & d & lx3 & Hws & Hq & Hid & _ & Hd & _).
  unfold wf_scanner. rewrite Hd. clear Hd.
  apply skip_whitespace_spec in Hws as (_ & _ & _ & _ & [Hi1 _] & _).
  assert (input lx2 = input lx) as Hi2.
  { rewrite <- Hi1.
    destruct ((peek lx1 =? Chr.SQUOTE) || (peek lx1 =? Chr.DQUOTE));
      injection Hq as -> ->; [apply input_advance | done]. }
  clear Hq Hi1.
  pose proof (string_clear_wf _ Hwf) as Hwf0.
  destruct (ident_start (peek lx2)) eqn:Est.
  - destruct (string_push_spec _ (to_char (peek lx2)) Hwf0) as (Hwf1 & Hl1 & Hb1).
    { simpl. change (2 ^ 31) with 2147483648. lia. }
    apply scan_identifier_rest_spec in Hid
      as (cs & _ & Hcs & _ & _ & _ & _ & Hwf' & _ & Hb'); [| done |].
    + split; [done|]. exists (peek lx2 :: cs). split.
      * by rewrite Hb', Hb1, string_clear_bytes.
      * constructor; [by rewrite Est|].
        eapply Forall_impl; [exact Hcs|]. simpl. intros c ->. apply orb_true_r.
    + rewrite Hl1. simpl.
      assert ((remaining (next lx2) <= length (input lx) - 1)%nat
              \/ remaining (next lx2) = 0%nat) as [?|?].
      { unfold remaining, next. rewrite input_advance, Hi2.
        destruct (Nat.lt_ge_cases (pos lx2) (length (input lx2))) as [Hlt|Hge].
        - left. rewrite pos_advance by done. rewrite Hi2 in Hlt. lia.
        - right. rewrite advance_eof by done. rewrite Hi2 in Hge. lia. }
      all: change (2 ^ 31) with 2147483648 in *; lia.
  - injection Hid as <- <-. split; [done|]. exists []. by split.
Qed.
End ScanStartFacts.

(** * Invariants of the reachable states *)

Section ReachableFacts.
Context {P : Platform}.
Implicit Types (s : Scanner) (lx : TSLexer).

Lemma body_outcome_wf s da t s' :
  body_outcome s da t s' -> wf_scanner s -> wf_scanner s'.
Proof. intros [] Hwf; try done. by apply close_heredoc_wf. Qed.

Lemma body_outcome_bytes s da t s' :
  body_outcome s da t s' ->
  string_bytes (delimiter s') = string_bytes (delimiter s)
  \/ string_bytes (delimiter s') = [].
Proof. intros []; auto. Qed.

(** [scan] keeps the scanner well formed, whatever it returns. *)
Lemma scan_wf s lx expected r s' lx' :
  scan s lx expected = Some (r, s', lx') ->
  wf_scanner s -> Z.of_nat (length (input lx)) < 2 ^ 31 ->
  wf_scanner s'.
Proof.
  unfold scan. intros H Hwf Hlen. repeat case_match; simplify_eq; try done.
  - destruct r.
    + apply scan_body_loop_outcome in H as (da & _ & Ho).
      by eapply body_outcome_wf.
    + by apply scan_body_loop_failure in H as ->.
  - by eapply scan_start_delimiter.
Qed.

(** [scan] returns, on a platform whose whitespace and identifier classes
    do not hold of the end of the input. *)
Lemma scan_total s lx expected :
  iswspace Chr.NUL = false -> iswalnum Chr.NUL = false ->
  exists r, scan s lx expected = Some r.
Proof.
  intros Hs Ha. unfold scan. repeat case_match; eauto.
  - apply scan_body_total.
  - by apply scan_start_total.
Qed.

Lemma reachable_wf s : reachable s -> wf_scanner s.
Proof.
  induction 1 as [|s lx e s' lx' _ IH Hlen Hscan
                  |s s0 buffer n out s' _ IH Hwf0 Hlen Hser Hde
                  |s0 buffer s' Hwf0 Hde].
  - apply create_wf.
  - by eapply scan_wf.
  - destruct (Z.eq_dec n 0) as [->|Hn].
    + rewrite deserialize_zero in Hde. injection Hde as <-.
      by apply close_heredoc_wf.
    + destruct (deserialize_serialize s s0 buffer n out)
        as (s1 & Hs1 & _ & Hwf1); try done. congruence.
  - rewrite deserialize_zero in Hde. injection Hde as <-.
    by apply close_heredoc_wf.
Qed.
End ReachableFacts.

(** * Serialization round trip *)

Section Serialization.
Context {P : Platform}.
Implicit Types (s : Scanner) (buffer : list Z).

(** C1. For a reachable state [s], [serialize] returns 0 exactly when the
    three flag bytes and the delimiter do not fit the buffer; otherwise it
    returns [3 + len], having written [is_nowdoc], [did_start], [did_end] at
    offsets 0 to 2 and the delimiter bytes after them, and [deserialize]
    of that buffer and length, into whatever well-formed scanner object,
    returns: it restores a state observationally equal to [s], in a block
    that is well formed, grown where the delimiter did not fit.
    [deserialize] with length 0 returns as well and resets the four
    fields. *)
Theorem serialize_deserialize_roundtrip s buffer n out :
  reachable s ->
  length buffer = Z.to_nat TREE_SITTER_SERIALIZATION_BUFFER_SIZE ->
  serialize s buffer = (n, out) ->
  (n = 0 <-> TREE_SITTER_SERIALIZATION_BUFFER_SIZE < 3 + len (delimiter s))
  /\ (n <> 0 ->
      n = 3 + len (delimiter s)
      /\ out = [char_of_bool (is_nowdoc s); char_of_bool (did_start s);
                char_of_bool (did_end s)]
               ++ string_bytes (delimiter s) ++ drop (Z.to_nat n) buffer
      /\ forall s0, wf_scanner s0 ->
           exists s',
             deserialize s0 out n = Some s'
             /\ observe s' = observe s
             /\ wf_scanner s'
             /\ len (delimiter s) <= cap (delimiter s'))
  /\ (forall s0 buffer0,
      exists s',
        deserialize s0 buffer0 0 = Some s'
        /\ observe s' = (false, false, false, 0, [])
        /\ (wf_scanner s0 -> wf_scanner s')).
Proof.
  intros Hwf%reachable_wf Hlen Hser.
  destruct (serialize_spec _ _ _ _ Hwf Hlen Hser) as [Hz Hnz].
  split; [done|]. split.
  - intros Hn. destruct (Hnz Hn) as [Hn' Hout].
    split; [done|]. split; [done|]. intros s0 Hwf0.
    destruct (deserialize_serialize s s0 buffer n out)
      as (s' & Hs' & Ho & Hwf'); try done.
    exists s'. split_and!; try done.
    destruct Hwf' as [Hl' _ _ _]. unfold observe in Ho.
    injection Ho as _ _ _ Hlen' _. lia.
  - intros s0 buffer0. exists (close_heredoc s0).
    split; [done|]. split; [done|]. apply close_heredoc_wf.
Qed.


End Serialization.

Lemma sample_scanner_reachable : reachable (P := c_locale) sample_scanner.
Proof.
  apply (reachable_scan (P := c_locale) create
           (lexer_at [69; 79; 70; 10] 0) (fun _ => true) sample_scanner
           {| input := [69; 79; 70; 10]; pos := 4; token_start := 0;
              token_end := Some 3%nat; result_symbol := HEREDOC_START |}).
  - apply reachable_create.
  - simpl. lia.
  - vm_compute. reflexivity.
Qed.

(** Witness for [serialize_deserialize_roundtrip]: the state with the
    delimiter [EOF] and a zeroed buffer. *)
Lemma serialize_deserialize_roundtrip_witness :
  (6 = 0 <-> TREE_SITTER_SERIALIZATION_BUFFER_SIZE
             < 3 + len (delimiter sample_scanner))
  /\ (6 <> 0 ->
      6 = 3 + len (delimiter sample_scanner)
      /\ [0; 0; 0; 69; 79; 70] ++ replicate 1018%nat 0
         = [char_of_bool (is_nowdoc sample_scanner);
            char_of_bool (did_start sample_scanner);
            char_of_bool (did_end sample_scanner)]
           ++ string_bytes (delimiter sample_scanner)
           ++ drop (Z.to_nat 6) (replicate 1024%nat 0)
      /\ forall s0, wf_scanner s0 ->
           exists s',
             deserialize s0 ([0; 0; 0; 69; 79; 70]
                             ++ replicate 1018%nat 0) 6 = Some s'
             /\ observe s' = observe sample_scanner
             /\ wf_scanner s'
             /\ len (delimiter sample_scanner) <= cap (delimiter s'))
  /\ (forall s0 buffer0,
      exists s',
        deserialize s0 buffer0 0 = Some s'
        /\ observe s' = (false, false, false, 0, [])
        /\ (wf_scanner s0 -> wf_scanner s')).
Proof.
  apply (serialize_deserialize_roundtrip (P := c_locale) sample_scanner
           (replicate 1024%nat 0) 6
           ([0; 0; 0; 69; 79; 70] ++ replicate 1018%nat 0)).
  - exact sample_scanner_reachable.
  - reflexivity.
  - vm_compute. reflexivity.
Defined.


(** * Token extents *)

Section TokenExtents.
Context {P : Platform}.
Implicit Types (s : Scanner) (lx : TSLexer).

(** A successful [scan_delimiter] has read the delimiter, byte for byte. *)
Lemma scan_delimiter_loop_match bytes lx lx' :
  scan_delimiter_loop bytes lx = (true, lx') ->
  Forall (fun b => b <> 0) bytes ->
  drop (pos lx) (input lx) = bytes ++ drop (pos lx') (input lx')
  /\ pos lx' = (pos lx + length bytes)%nat.
Proof.
  revert lx. induction bytes as [|b bytes IH]; intros lx; simpl.
  - intros [= <-] _. split; [done | lia].
  - destruct (Z.eqb_spec b (peek lx)) as [->|]; [|done].
    intros H [Hb Hbs]%Forall_cons. apply lookahead_nonzero in Hb as [Hlt _].
    apply IH in H as [Hd Hp]; [|done]. unfold next in *.
    rewrite (drop_pos_peek lx false Hlt), Hd. split; [done|].
    rewrite Hp, pos_advance by done. lia.
Qed.

(** A successful [scan_delimiter] that has not stopped at the end of the
    input has read the delimiter, byte for byte, whatever the bytes are. *)
Lemma scan_delimiter_loop_live bytes lx lx' :
  scan_delimiter_loop bytes lx = (true, lx') ->
  (pos lx' < length (input lx'))%nat ->
  drop (pos lx) (input lx) = bytes ++ drop (pos lx') (input lx')
  /\ pos lx' = (pos lx + length bytes)%nat.
Proof.
  revert lx. induction bytes as [|b bytes IH]; intros lx; simpl.
  - intros [= <-] _. split; [done | lia].
  - destruct (Z.eqb_spec b (peek lx)) as [->|]; [|done].
    intros H Hlive.
    pose proof (scan_delimiter_loop_frame _ _ _ _ H) as ([Hi Hp] & _).
    unfold next in Hi, Hp. rewrite input_advance in Hi.
    assert (pos lx < length (input lx))%nat as Hlt.
    { pose proof (pos_advance_le lx false). rewrite Hi in Hlive. lia. }
    apply IH in H as [Hd Hp']; [|done]. unfold next in *.
    rewrite (drop_pos_peek lx false Hlt), Hd. split; [done|].
    rewrite Hp', pos_advance by done. lia.
Qed.

(** A scan that succeeds with another token than HEREDOC_BODY returned from
    the first turn of the loop. *)
Lemma scan_body_first_turn s lx s' lx' :
  scan_body s lx = Some (true, s', lx') ->
  result_symbol lx' <> HEREDOC_BODY ->
  scan_body_iteration s lx false = Return true s' lx'.
Proof.
  unfold scan_body.
  replace (2 * remaining lx + 2)%nat with (S (2 * remaining lx + 1)) by lia.
  rewrite scan_body_loop_S.
  destruct (scan_body_iteration s lx false) as [r0 s0 lx0|lx0].
  - by intros [= -> -> ->].
  - by intros [Hb _]%scan_body_loop_advanced.
Qed.

(** The turn of the loop that returns HEREDOC_END. *)
Lemma scan_body_iteration_end s lx da s' lx' :
  scan_body_iteration s lx da = Return true s' lx' ->
  result_symbol lx' = HEREDOC_END ->
  da = false /\ did_end s = true /\ s' = close_heredoc s
  /\ exists t,
       scan_delimiter s (if peek lx =? Chr.NL then skip lx else lx) = (true, t)
       /\ lx' = set HEREDOC_END
                  (if peek t =? Chr.SEMI then next (stop t) else stop t)
       /\ peek (if peek t =? Chr.SEMI then next t else t) = Chr.NL.
Proof.
  unfold scan_body_iteration. intros H Hr.
  repeat case_match; simplify_eq; bool_hyps; simplify_eq; forget_marks;
    (do 3 (split; [done|])); eexists; bool_goal;
    (split; [eassumption|]); bool_goal; done.
Qed.

(** C4, amended.  Whenever [scan_body] emits HEREDOC_END, [did_end] was set
    and the state is closed; the closing delimiter starts at the cursor, or
    after the newline under the cursor, which is skipped; and the end of the
    token is marked right after the delimiter, whatever its bytes are,
    before the semicolon when there is one and before the newline. *)
Theorem heredoc_end_ends_after_delimiter s lx s' lx' :
  scan_body s lx = Some (true, s', lx') ->
  result_symbol lx' = HEREDOC_END ->
  did_end s = true /\ s' = close_heredoc s
  /\ exists k m,
       k = (if peek lx =? Chr.NL then S (pos lx) else pos lx)
       /\ (peek lx = Chr.NL -> token_start lx' = k)
       /\ token_end lx' = Some m
       /\ m = (k + length (string_bytes (delimiter s)))%nat
       /\ drop k (input lx) = string_bytes (delimiter s) ++ drop m (input lx)
       /\ (input lx !! m = Some Chr.NL
           \/ input lx !! m = Some Chr.SEMI
              /\ input lx !! S m = Some Chr.NL).
Proof.
  intros H Hr. apply scan_body_first_turn in H; [|by rewrite Hr].
  apply scan_body_iteration_end in H as (_ & He & -> & t & Hdel & -> & Hnl);
    [|done].
  split; [done|]. split; [done|].
  pose proof (scan_delimiter_frame _ _ _ _ Hdel) as ([Hi _] & _ & Hts & _).
  assert (pos t < length (input t))%nat as Hlive.
  { destruct (Z.eqb_spec (peek t) Chr.SEMI) as [E|E];
      apply lookahead_nonzero; fold (peek t); by rewrite ?E, ?Hnl. }
  destruct (scan_delimiter_loop_live _ _ _ Hdel Hlive) as [Hm Hpm].
  assert (input t = input lx
          /\ pos (if peek lx =? Chr.NL then skip lx else lx)
             = (if peek lx =? Chr.NL then S (pos lx) else pos lx)
          /\ (peek lx = Chr.NL -> token_start t = S (pos lx)))
    as (Hit & Hk & Hstart).
  { rewrite Hi, Hts. destruct (Z.eqb_spec (peek lx) Chr.NL) as [E|E].
    - assert (pos lx < length (input lx))%nat as Hlt
        by (apply lookahead_nonzero; fold (peek lx); by rewrite E).
      unfold skip. rewrite input_advance, pos_advance by done.
      split; [done|]. split; [done|]. intros _. unfold advance.
      by destruct (Nat.ltb_spec (pos lx) (length (input lx))); [|lia].
    - done. }
  exists (if peek lx =? Chr.NL then S (pos lx) else pos lx), (pos t).
  split; [done|]. split_and!.
  - intros E. rewrite <- (Hstart E), (proj2 (Z.eqb_eq _ _) E).
    destruct (peek t =? Chr.SEMI); simpl; [|done].
    unfold next, advance. simpl. by destruct (pos t <? length (input t))%nat.
  - destruct (peek t =? Chr.SEMI); simpl; [|done].
    unfold next. by rewrite token_end_advance.
  - by rewrite Hpm, Hk.
  - by rewrite <- Hi, Hit, Hk in Hm.
  - rewrite <- Hit. destruct (Z.eqb_spec (peek t) Chr.SEMI) as [E|E].
    + right.
      assert (peek t <> 0) as [Hlt Hlk]%lookahead_nonzero by (by rewrite E).
      assert (peek (next t) <> 0) as [_ Hlk2]%lookahead_nonzero
        by (by rewrite Hnl).
      unfold next in Hlk2. rewrite input_advance, pos_advance in Hlk2 by done.
      fold (peek t) in Hlk. fold (next t) in Hlk2. fold (peek (next t)) in Hlk2.
      by rewrite Hlk, Hlk2, E, Hnl.
    + left.
      assert (peek t <> 0) as [_ Hlk]%lookahead_nonzero by (by rewrite Hnl).
      fold (peek t) in Hlk. by rewrite Hlk, Hnl.
Qed.
End TokenExtents.


(** C4 as stated fails: on [EOF], newline, [EOF;], newline, the scan after
    HEREDOC_START emits HEREDOC_END and marks its end at position 7, before
    the semicolon (position 7) and the newline (position 8). *)
Lemma heredoc_end_covers_newline_counterexample :
  match scan_start (P := c_locale) create
          (lexer_at [69; 79; 70; 10; 69; 79; 70; 59; 10] 0) with
  | Some (true, s1, lx1) =>
      match scan_body s1 (lexer_at [69; 79; 70; 10; 69; 79; 70; 59; 10]
                            (token_end_position lx1)) with
      | Some (true, _, lx') =>
          result_symbol lx' = HEREDOC_END
          /\ token_end lx' = Some 7%nat
          /\ input lx' !! 7%nat = Some Chr.SEMI
          /\ input lx' !! 8%nat = Some Chr.NL
          /\ ~ (exists m, token_end lx' = Some m /\ (8 < m)%nat)
      | _ => False
      end
  | _ => False
  end.
Proof.
  set (r := scan_start _ _). vm_compute in r. subst r. cbv beta iota.
  set (r := scan_body _ _). vm_compute in r. subst r. cbv beta iota.
  split_and!; try reflexivity. intros (m & [= <-] & Hm). lia.
Defined.

(** Witness for [heredoc_end_ends_after_delimiter], on the same input: the
    scanner with the delimiter [EOF] and [did_end] set, at the newline that
    ends the opener. *)
Lemma heredoc_end_ends_after_delimiter_witness :
  did_end (set_flags sample_scanner false true) = true
  /\ close_heredoc sample_scanner
     = close_heredoc (set_flags sample_scanner false true)
  /\ exists k m,
       k = (if peek (lexer_at [69; 79; 70; 10; 69; 79; 70; 59; 10] 3)
               =? Chr.NL
            then S (pos (lexer_at [69; 79; 70; 10; 69; 79; 70; 59; 10] 3))
            else pos (lexer_at [69; 79; 70; 10; 69; 79; 70; 59; 10] 3))
       /\ (peek (lexer_at [69; 79; 70; 10; 69; 79; 70; 59; 10] 3) = Chr.NL ->
           token_start
             {| input := [69; 79; 70; 10; 69; 79; 70; 59; 10]; pos := 8;
                token_start := 4; token_end := Some 7%nat;
                result_symbol := HEREDOC_END |} = k)
       /\ token_end
            {| input := [69; 79; 70; 10; 69; 79; 70; 59; 10]; pos := 8;
               token_start := 4; token_end := Some 7%nat;
               result_symbol := HEREDOC_END |} = Some m
       /\ m = (k + length (string_bytes
                             (delimiter (set_flags sample_scanner false true))))%nat
       /\ drop k (input (lexer_at [69; 79; 70; 10; 69; 79; 70; 59; 10] 3))
          = string_bytes (delimiter (set_flags sample_scanner false true))
            ++ drop m (input (lexer_at [69; 79; 70; 10; 69; 79; 70; 59; 10] 3))
       /\ (input (lexer_at [69; 79; 70; 10; 69; 79; 70; 59; 10] 3) !! m
           = Some Chr.NL
           \/ input (lexer_at [69; 79; 70; 10; 69; 79; 70; 59; 10] 3) !! m
              = Some Chr.SEMI
              /\ input (lexer_at [69; 79; 70; 10; 69; 79; 70; 59; 10] 3) !! S m
                 = Some Chr.NL).
Proof.
  apply (heredoc_end_ends_after_delimiter
           (set_flags sample_scanner false true)
           (lexer_at [69; 79; 70; 10; 69; 79; 70; 59; 10] 3)
           (close_heredoc sample_scanner)
           {| input := [69; 79; 70; 10; 69; 79; 70; 59; 10]; pos := 8;
              token_start := 4; token_end := Some 7%nat;
              result_symbol := HEREDOC_END |}).
  - vm_compute. reflexivity.
  - reflexivity.
Defined.

(** * The order of the tokens *)

Section TokenOrder.
Context {P : Platform}.
Implicit Types (s : Scanner) (lx : TSLexer).

Lemma string_push_len_nonneg d chr : 0 <= len (string_push d chr).
Proof. apply wrap32_range. Qed.

Lemma scan_identifier_rest_len_nonneg fuel d lx d' lx' :
  scan_identifier_rest fuel d lx = Some (d', lx') -> 0 <= len d -> 0 <= len d'.
Proof.
  revert d lx. induction fuel as [|fuel IH]; intros d lx; [done|]. simpl.
  destruct (iswalnum (peek lx) || (peek lx =? Chr.UNDERSCORE)).
  - intros H _. eapply IH; [done|]. apply string_push_len_nonneg.
  - by intros [= <- <-].
Qed.

(** A successful [scan_start] leaves a delimiter that is not empty. *)
Lemma scan_start_opens s lx s' lx' :
  scan_start s lx = Some (true, s', lx') -> 0 < len (delimiter s').
Proof.
  intros H.
  apply scan_start_unfold in H
    as (lx1 & quote & lx2 & d & lx3 & _ & _ & Hid & Hr & -> & _).
  symmetry in Hr. apply andb_true_iff in Hr as [_ Hne].
  apply negb_true_iff, Z.eqb_neq in Hne.
  assert (0 <= len d); [|lia].
  destruct (ident_start (peek lx2)).
  - eapply scan_identifier_rest_len_nonneg; [done|].
    apply string_push_len_nonneg.
  - by injection Hid as <- <-.
Qed.

(** What a successful [scan] has done: a step of [scan_body] inside a
    heredoc, or HEREDOC_START, which leaves the scanner inside one. *)
Lemma scan_success s lx expected s' lx' :
  scan s lx expected = Some (true, s', lx') ->
  (0 < len (delimiter s)
   /\ exists da, body_outcome s da (result_symbol lx') s')
  \/ (result_symbol lx' = HEREDOC_START /\ 0 < len (delimiter s')).
Proof.
  unfold scan. intros H.
  destruct ((expected HEREDOC_BODY || expected HEREDOC_END
             || expected EMBEDDED_OPENING_BRACE)
            && (0 <? len (delimiter s))) eqn:E.
  - left. apply andb_true_iff in E as [_ E%Z.ltb_lt]. split; [done|].
    apply scan_body_loop_outcome in H as (da & _ & Ho). eauto.
  - destruct (expected HEREDOC_START); [|done].
    right. split; [by apply scan_start_mark in H as [? _]|].
    by eapply scan_start_opens.
Qed.

Lemma drive_end_discipline s inp p steps :
  end_discipline (0 <? len (delimiter s)) (did_end s) (drive s inp p steps)
  = true.
Proof.
  revert s p. induction steps as [|[gap expected] steps IH]; intros s p;
    [done|]. simpl.
  destruct (scan s (lexer_at inp (p + gap)) expected)
    as [[[[] s'] lx']|] eqn:E; [| apply IH | done].
  specialize (IH s' (token_end_position lx')).
  apply scan_success in E as [[Hopen [da Ho]]|[-> Hopen]].
  - apply Z.ltb_lt in Hopen. rewrite Hopen.
    inversion Ho; subst; simpl in *;
      repeat match goal with H : _ = result_symbol _ |- _ => rewrite <- H end;
      simpl; rewrite ?Hopen in IH; try done.
    by match goal with H : did_end s = true |- _ => rewrite H end.
  - apply Z.ltb_lt in Hopen. by rewrite Hopen in IH.
Qed.
End TokenOrder.

(** Witness for [embedded_opening_brace_iff]: at an opening brace, a dollar
    sign and [x], the scan emits EMBEDDED_OPENING_BRACE. *)
Lemma embedded_opening_brace_iff_witness :
  exists s' lx',
    scan_body sample_scanner (lexer_at [123; 36; 120; 125; 10] 0)
    = Some (true, s', lx')
    /\ result_symbol lx' = EMBEDDED_OPENING_BRACE.
Proof.
  apply (proj2 (embedded_opening_brace_iff sample_scanner
                  (lexer_at [123; 36; 120; 125; 10] 0))).
  split; [reflexivity|]. split_and!; reflexivity.
Defined.

(** * The openers [scan_start] accepts *)

Section Opener.
Context {P : Platform}.
Implicit Types (s : Scanner) (lx : TSLexer).

Lemma drop_pos_next lx c :
  peek lx = c -> c <> 0 ->
  drop (pos lx) (input lx) = c :: drop (pos (next lx)) (input (next lx)).
Proof.
  intros <- [Hlt _]%lookahead_nonzero. by apply drop_pos_peek.
Qed.

Lemma peek_drop_cons lx c rest :
  drop (pos lx) (input lx) = c :: rest ->
  peek lx = c /\ rest = drop (pos (next lx)) (input (next lx)).
Proof.
  intros H. apply drop_pos_cons in H as (Hp & _ & Hd). split; [done|].
  symmetry. apply Hd.
Qed.

Lemma peek_head lx : peek lx = default 0 (head (drop (pos lx) (input lx))).
Proof. apply lookahead_drop. Qed.

(** Without NUL in the input, a lookahead of 0 is the end of the input. *)
Lemma peek_nul_eof lx :
  Forall (fun c => c <> 0) (input lx) -> peek lx = 0 ->
  (length (input lx) <= pos lx)%nat.
Proof.
  intros Hall Hp. destruct (Nat.lt_ge_cases (pos lx) (length (input lx)))
    as [Hlt|]; [|done].
  destruct (lookup_lt_is_Some_2 _ _ Hlt) as [c Hc].
  rewrite Forall_lookup in Hall. specialize (Hall _ _ Hc).
  unfold peek in Hp. rewrite (lookahead_lookup _ _ Hc) in Hp. done.
Qed.

Lemma quote_chars_not_space q c rest :
  platform_ok -> ident_start c = true ->
  iswspace (default 0 (head (quote_chars q ++ c :: rest))) = false.
Proof.
  intros Hok Hc. destruct q; simpl.
  - unfold ident_start in Hc. apply orb_true_iff in Hc as [Hc|Hc].
    + by apply iswspace_alpha.
    + apply Z.eqb_eq in Hc as ->. by apply iswspace_underscore.
  - by apply iswspace_squote.
  - by apply iswspace_dquote.
Qed.

Lemma ident_start_not_quote c :
  platform_ok -> ident_start c = true ->
  c <> 0 /\ c <> Chr.SQUOTE /\ c <> Chr.DQUOTE.
Proof.
  intros Hok Hc. unfold ident_start in Hc.
  apply orb_true_iff in Hc as [Hc|Hc].
  - pose proof (iswalpha_nul Hok). pose proof (iswalpha_squote Hok).
    pose proof (iswalpha_dquote Hok).
    unfold Chr.NUL, Chr.SQUOTE, Chr.DQUOTE in *.
    split_and!; intros ->; congruence.
  - by apply Z.eqb_eq in Hc as ->.
Qed.

Lemma after_ident_not_part q tail :
  platform_ok ->
  ident_part (default 0 (head (quote_chars q ++ Chr.NL :: tail))) = false.
Proof.
  intros Hok. unfold ident_part. destruct q; simpl.
  - by rewrite (iswalnum_newline Hok).
  - by rewrite (iswalnum_squote Hok).
  - by rewrite (iswalnum_dquote Hok).
Qed.

(** The delimiter after the first character of the identifier. *)
Lemma first_push_ok s lx x :
  wf_scanner s -> Z.of_nat (length (input lx)) < 2 ^ 31 ->
  wf_string (string_push (string_clear (delimiter s)) x)
  /\ len (string_push (string_clear (delimiter s)) x) = 1
  /\ string_bytes (string_push (string_clear (delimiter s)) x) = [x]
  /\ len (string_push (string_clear (delimiter s)) x)
     + Z.of_nat (remaining (next lx)) < 2 ^ 31.
Proof.
  intros Hwf Hlen. pose proof (string_clear_wf _ Hwf) as Hwf0.
  destruct (string_push_spec _ x Hwf0) as (Hwf1 & Hl1 & Hb1).
  { simpl. change (2 ^ 31) with 2147483648. lia. }
  rewrite string_clear_bytes in Hb1. rewrite string_clear_len in Hl1.
  split_and!; try done. rewrite Hl1.
  assert ((remaining (next lx) <= length (input lx) - 1)%nat
          \/ remaining (next lx) = 0%nat) as [?|?].
  { unfold remaining, next. rewrite input_advance.
    destruct (Nat.lt_ge_cases (pos lx) (length (input lx))) as [Hlt|Hge].
    - left. rewrite pos_advance by done. lia.
    - right. rewrite advance_eof by done. lia. }
  all: change (2 ^ 31) with 2147483648 in *; lia.
Qed.

(** An input of the shape of an opener is accepted, with the identifier as
    delimiter. *)
Lemma scan_start_accepts s lx q ident :
  platform_ok -> wf_scanner s -> Z.of_nat (length (input lx)) < 2 ^ 31 ->
  opener_shape (drop (pos lx) (input lx)) q ident ->
  exists s' lx',
    scan_start s lx = Some (true, s', lx')
    /\ string_bytes (delimiter s') = map to_char ident
    /\ is_nowdoc s' = is_single_quoted q.
Proof.
  intros Hok Hwf Hlen (ws & c & cs & tail & Hshape & Hws & -> & Hc & Hcs).
  destruct (scan_start_total s lx (iswspace_nul Hok) (iswalnum_nul Hok))
    as [[[r s'] lx'] Hscan].
  exists s', lx'. pose proof Hscan as Hun.
  apply scan_start_unfold in Hun
    as (lx1 & quote & lx2 & d & lx3 & H1 & Hq & Hid & Hr & Hd & Hnow & _).
  (* the whitespace *)
  apply skip_whitespace_spec in H1 as (ws' & Hd1 & Hws' & Hpk1 & [Hi1 _] & _).
  rewrite Hshape in Hd1. rewrite peek_head in Hpk1.
  destruct (span_unique iswspace _ _ _ _ Hd1 Hws Hws') as [<- Hrest1];
    [by apply quote_chars_not_space | done |]. clear Hd1 Hws' Hpk1.
  destruct (ident_start_not_quote c Hok Hc) as (Hc0 & Hcsq & Hcdq).
  (* the opening quote *)
  assert (quote = match q with
                  | Bare => 0 | SingleQuoted => Chr.SQUOTE
                  | DoubleQuoted => Chr.DQUOTE
                  end
          /\ drop (pos lx2) (input lx2)
             = c :: cs ++ quote_chars q ++ Chr.NL :: tail
          /\ (peek lx1 =? Chr.SQUOTE) = is_single_quoted q
          /\ input lx2 = input lx) as (Hquote & Hd2 & Hsq & Hi2).
  { destruct q; simpl in Hrest1; symmetry in Hrest1;
      pose proof Hrest1 as Hrest1';
      apply peek_drop_cons in Hrest1' as [Hp1 Hrest2]; rewrite Hp1 in *.
    - rewrite (proj2 (Z.eqb_neq _ _) Hcsq), (proj2 (Z.eqb_neq _ _) Hcdq) in Hq.
      injection Hq as -> ->.
      by rewrite (proj2 (Z.eqb_neq _ _) Hcsq).
    - simpl in Hq. injection Hq as -> ->. split_and!; try done.
      unfold next. by rewrite input_advance.
    - simpl in Hq. injection Hq as -> ->. split_and!; try done.
      unfold next. by rewrite input_advance. }
  rewrite Hnow, Hsq. clear Hnow Hsq Hrest1 Hq Hi1.
  (* the identifier *)
  apply peek_drop_cons in Hd2 as [Hp2 Hd2]. rewrite Hp2, Hc in Hid.
  destruct (first_push_ok s lx2 (to_char c) Hwf) as (Hwf1 & Hl1 & Hb1 & Hbound);
    [by rewrite Hi2|].
  apply scan_identifier_rest_spec in Hid
    as (cs' & Hd3 & Hcs' & Hpk3 & _ & _ & _ & _ & Hl3 & Hb3); [|done..].
  rewrite <- Hd2 in Hd3. rewrite peek_head in Hpk3.
  destruct (span_unique ident_part _ _ _ _ Hd3 Hcs Hcs') as [<- Hrest3];
    [by apply after_ident_not_part | done |]. clear Hd3 Hcs' Hpk3.
  (* the closing quote and the newline *)
  assert (r = true) as ->; [|split; [done|]; split; [|done]].
  - rewrite Hr. clear Hr Hscan.
    assert ((len d =? 0) = false) as -> by (apply Z.eqb_neq; lia).
    destruct q; simpl in Hrest3, Hquote; subst quote; symmetry in Hrest3;
      apply peek_drop_cons in Hrest3 as [Hp3 Hrest4]; rewrite Hp3; simpl.
    + by rewrite Hp3.
    + symmetry in Hrest4. apply peek_drop_cons in Hrest4 as [Hp4 _].
      by rewrite Hp4.
    + symmetry in Hrest4. apply peek_drop_cons in Hrest4 as [Hp4 _].
      by rewrite Hp4.
  - by rewrite Hd, Hb3, Hb1.
Qed.

(** An accepted input without NUL has the shape of an opener. *)
Lemma scan_start_shape s lx s' lx' :
  platform_ok -> wf_scanner s -> Z.of_nat (length (input lx)) < 2 ^ 31 ->
  Forall (fun c => c <> 0) (input lx) ->
  scan_start s lx = Some (true, s', lx') ->
  exists q ident, opener_shape (drop (pos lx) (input lx)) q ident.
Proof.
  intros Hok Hwf Hlen Hnul Hscan.
  apply scan_start_unfold in Hscan
    as (lx1 & quote & lx2 & d & lx3 & H1 & Hq & Hid & Hr & _).
  symmetry in Hr. apply andb_true_iff in Hr as [Hr Hne].
  apply andb_true_iff in Hr as [Hcl Hnl].
  apply negb_true_iff, Z.eqb_neq in Hne. apply Z.eqb_eq in Hnl.
  (* the whitespace *)
  apply skip_whitespace_spec in H1 as (ws & Hd1 & Hws & _ & [Hi1 _] & _).
  (* the opening quote *)
  assert (exists q,
            quote = match q with
                    | Bare => 0 | SingleQuoted => Chr.SQUOTE
                    | DoubleQuoted => Chr.DQUOTE
                    end
            /\ drop (pos lx1) (input lx1)
               = quote_chars q ++ drop (pos lx2) (input lx2)
            /\ input lx2 = input lx) as (q & Hquote & Hd2 & Hi2).
  { destruct (Z.eqb_spec (peek lx1) Chr.SQUOTE) as [E1|E1];
      [|destruct (Z.eqb_spec (peek lx1) Chr.DQUOTE) as [E2|E2]];
      simpl in Hq; injection Hq as -> ->.
    - exists SingleQuoted. split_and!; [done | | ].
      + by apply drop_pos_next.
      + unfold next. by rewrite input_advance.
    - exists DoubleQuoted. split_and!; [done | | ].
      + by apply drop_pos_next.
      + unfold next. by rewrite input_advance.
    - by exists Bare. }
  (* the identifier *)
  destruct (ident_start (peek lx2)) eqn:Hc; last first.
  { injection Hid as <- <-. by rewrite string_clear_len in Hne. }
  destruct (ident_start_not_quote _ Hok Hc) as (Hc0 & _).
  destruct (first_push_ok s lx2 (to_char (peek lx2)) Hwf)
    as (Hwf1 & Hl1 & Hb1 & Hbound); [by rewrite Hi2|].
  apply scan_identifier_rest_spec in Hid
    as (cs & Hd3 & Hcs & _ & [Hi3 _] & _); [|done..].
  rewrite (drop_pos_next lx2 _ eq_refl Hc0) in Hd2. rewrite Hd3 in Hd2.
  (* the closing quote and the newline *)
  assert (exists tail,
            drop (pos lx3) (input lx3) = quote_chars q ++ Chr.NL :: tail)
    as [tail Hd4].
  { destruct (Z.eqb_spec (peek lx3) quote) as [E|E].
    - destruct q; simpl in Hquote; subst quote.
      + (* no quote: a lookahead of 0 is the end of the input *)
        exfalso. assert (next lx3 = lx3) as Heq.
        { apply advance_eof, peek_nul_eof; [|done].
          unfold next in Hi3. rewrite input_advance in Hi3.
          by rewrite Hi3, Hi2. }
        rewrite Heq, E in Hnl. done.
      + eexists. rewrite (drop_pos_next lx3 _ E) by done. simpl. f_equal.
        by apply drop_pos_next.
      + eexists. rewrite (drop_pos_next lx3 _ E) by done. simpl. f_equal.
        by apply drop_pos_next.
    - simpl in Hcl. apply Z.eqb_eq in Hcl. subst quote.
      destruct q; try done. eexists. simpl. by apply drop_pos_next. }
  exists q, (peek lx2 :: cs), ws, (peek lx2), cs, tail.
  split_and!; try done.
  by rewrite Hd1, Hd2, Hd4.
Qed.

(** C5, amended.  On a platform that tells whitespace, quotes, newline and
    identifier characters apart, and for an input without NUL (which the
    scanner takes for the end of the input): [scan_start] succeeds if and
    only if, after whitespace, the input is an optional single or double
    quote, a non-empty identifier whose first character is an underscore or
    satisfies [iswalpha] and whose other characters are underscores or
    satisfy [iswalnum], the same quote again when there was one, and then a
    newline.  On success the delimiter holds the identifier, each code point
    converted to [char], and [is_nowdoc] is set exactly for a single-quoted
    opener.  Otherwise [scan_start] returns false. *)
Theorem scan_start_accepts_iff s lx :
  platform_ok -> wf_scanner s -> Z.of_nat (length (input lx)) < 2 ^ 31 ->
  Forall (fun c => c <> 0) (input lx) ->
  ((exists s' lx', scan_start s lx = Some (true, s', lx'))
   <-> exists q ident, opener_shape (drop (pos lx) (input lx)) q ident)
  /\ (forall q ident,
      opener_shape (drop (pos lx) (input lx)) q ident ->
      exists s' lx',
        scan_start s lx = Some (true, s', lx')
        /\ string_bytes (delimiter s') = map to_char ident
        /\ is_nowdoc s' = is_single_quoted q)
  /\ (exists r, scan_start s lx = Some r).
Proof.
  intros Hok Hwf Hlen Hnul. split_and!.
  - split.
    + intros (s' & lx' & H). by eapply scan_start_shape.
    + intros (q & ident & H).
      destruct (scan_start_accepts s lx q ident Hok Hwf Hlen H)
        as (s' & lx' & Hs & _). eauto.
  - intros q ident H. by apply scan_start_accepts.
  - apply scan_start_total; [apply (iswspace_nul Hok) | apply (iswalnum_nul Hok)].
Qed.
End Opener.


(** * The extent of HEREDOC_START *)

Section OpenerExtent.
Context {P : Platform}.
Implicit Types (s : Scanner) (lx : TSLexer).





End OpenerExtent.


Lemma c_locale_ok : platform_ok (P := c_locale).
Proof.
  split; try reflexivity.
  intros c. simpl. unfold is_ascii_alpha. intros H.
  apply orb_false_iff. split; [apply Z.eqb_neq | apply andb_false_iff];
    apply orb_true_iff in H as [H|H]; apply andb_true_iff in H as [H1 H2];
    apply Z.leb_le in H1, H2; try lia.
  all: right; apply Z.leb_gt; lia.
Qed.

Lemma c_locale_ascii : platform_ascii (P := c_locale).
Proof.
  split; simpl; try done.
  intros c Hc. rewrite Z.mod_small by lia. lia.
Qed.

(** Witness for [scan_start_accepts_iff]: the nowdoc opener with the
    single-quoted identifier [EOF]. *)
Lemma scan_start_accepts_iff_witness :
  exists s' lx',
    scan_start (P := c_locale) create (lexer_at [39; 69; 79; 70; 39; 10] 0)
    = Some (true, s', lx')
    /\ string_bytes (delimiter s') = map (to_char (Platform := c_locale)) [69; 79; 70]
    /\ is_nowdoc s' = is_single_quoted SingleQuoted.
Proof.
  apply (proj1 (proj2 (scan_start_accepts_iff (P := c_locale) create
                         (lexer_at [39; 69; 79; 70; 39; 10] 0)
                         c_locale_ok create_wf
                         ltac:(simpl; lia)
                         ltac:(by repeat constructor)))
           SingleQuoted [69; 79; 70]).
  exists [], 69, [79; 70], []. split_and!; try reflexivity.
  - constructor.
  - by repeat constructor.
Defined.

(** C5 as stated fails: the opener made of the code point 0x80 (a control
    character, alphabetic in no locale) and a newline has the claimed shape,
    with the identifier [0x80], and in the C locale [scan_start] rejects
    it. *)
Lemma scan_start_rejects_high_byte_counterexample :
  claimed_opener_shape (P := c_locale) [128; 10] Bare [128]
  /\ succeeded (scan_start (P := c_locale) create (lexer_at [128; 10] 0))
     = Some false.
Proof.
  split.
  - exists [], 128, [], []. split_and!; try reflexivity; constructor.
  - vm_compute. reflexivity.
Defined.

(** A NUL code point after a bare identifier is taken for the closing quote:
    this opener is accepted, and is outside [scan_start_accepts_iff]. *)
Lemma scan_start_nul_after_identifier :
  succeeded (scan_start (P := c_locale) create
               (lexer_at [69; 79; 70; 0; 10] 0)) = Some true.
Proof. vm_compute. reflexivity. Qed.

(** * The contents of the delimiter *)

Section DelimiterBytes.
Context {P : Platform}.
Implicit Types (s : Scanner) (lx : TSLexer).

Lemma ident_char_delimiter_byte c :
  platform_ascii -> ident_start c || ident_part c = true ->
  is_delimiter_byte (to_char c) = true.
Proof.
  intros Ha Hc. unfold is_delimiter_byte.
  assert (is_ascii_alpha c || is_ascii_digit c = true \/ c = Chr.UNDERSCORE)
    as [H| ->].
  { unfold ident_start, ident_part in Hc. bool_hyps; auto.
    - left. apply orb_true_iff. left. by apply iswalpha_ascii.
    - left. by apply iswalnum_ascii. }
  - rewrite (to_char_ascii Ha).
    + by rewrite H.
    + unfold is_ascii_alpha, is_ascii_digit in H. bool_hyps; lia.
  - rewrite (to_char_ascii Ha) by done. apply orb_true_r.
Qed.

(** C9, amended.  On a platform whose [iswalpha] and [iswalnum] accept ASCII
    only, as in the C locale, the delimiter of every reachable state holds
    only ASCII letters, digits and underscores; [scan] and a [deserialize]
    of what [serialize] wrote keep it so.  Its length is at least 0 and
    below 2^31, the bound on the input; it is not bounded by 255. *)
Theorem delimiter_bytes_invariant s :
  platform_ascii -> reachable s ->
  Forall (fun b => is_delimiter_byte b = true) (string_bytes (delimiter s))
  /\ 0 <= len (delimiter s) < 2 ^ 31.
Proof.
  intros Ha Hr. split; [|by apply reachable_wf in Hr as [[? ?] ? _ _]].
  induction Hr as [|s lx e s' lx' Hr IH Hlen Hscan
                   |s s0 buffer n out s' Hr IH Hwf0 Hlen Hser Hde
                   |s0 buffer s' Hwf0 Hde].
  - constructor.
  - apply reachable_wf in Hr. unfold scan in Hscan.
    destruct ((e HEREDOC_BODY || e HEREDOC_END || e EMBEDDED_OPENING_BRACE)
              && (0 <? len (delimiter s))).
    + apply scan_body_loop_outcome in Hscan as (da & _ & Ho).
      apply body_outcome_bytes in Ho as [-> | ->]; [done | constructor].
    + destruct (e HEREDOC_START); [|done].
      apply scan_start_delimiter in Hscan as (_ & ident & -> & Hid);
        [|done..].
      apply Forall_fmap. eapply Forall_impl; [exact Hid|].
      intros c Hc. by apply ident_char_delimiter_byte.
  - apply reachable_wf in Hr. destruct (Z.eq_dec n 0) as [->|Hn].
    + rewrite deserialize_zero in Hde. injection Hde as <-. constructor.
    + destruct (deserialize_serialize s s0 buffer n out)
        as (s1 & Hs1 & Ho & _); try done.
      rewrite Hs1 in Hde. injection Hde as <-.
      unfold observe in Ho. by injection Ho as _ _ _ _ ->.
  - rewrite deserialize_zero in Hde. injection Hde as <-. constructor.
Qed.
End DelimiterBytes.

Lemma long_delimiter_state_reachable :
  reachable (P := c_locale) long_delimiter_state.
Proof.
  apply (reachable_scan (P := c_locale) create (lexer_at long_opener 0)
           (expects [HEREDOC_START]) long_delimiter_state
           (match scan (P := c_locale) create (lexer_at long_opener 0)
                    (expects [HEREDOC_START]) with
            | Some (_, _, lx') => lx'
            | None => lexer_at long_opener 0
            end)).
  - apply reachable_create.
  - vm_compute. reflexivity.
  - vm_compute. reflexivity.
Qed.

(** C9 as stated fails: after an opener of 256 letters the delimiter of the
    reachable state is 256 bytes long, and it serializes. *)
Lemma delimiter_longer_than_255_counterexample :
  reachable (P := c_locale) long_delimiter_state
  /\ len (delimiter long_delimiter_state) = 256
  /\ fst (serialize long_delimiter_state (replicate 1024%nat 0)) = 259.
Proof.
  split; [exact long_delimiter_state_reachable|].
  split; vm_compute; reflexivity.
Defined.

(** Witness for [delimiter_bytes_invariant]: the state with the delimiter
    [EOF]. *)
Lemma delimiter_bytes_invariant_witness :
  Forall (fun b => is_delimiter_byte b = true)
    (string_bytes (delimiter sample_scanner))
  /\ 0 <= len (delimiter sample_scanner) < 2 ^ 31.
Proof.
  apply (delimiter_bytes_invariant (P := c_locale) sample_scanner).
  - exact c_locale_ascii.
  - exact sample_scanner_reachable.
Defined.

(** * Further properties of the byte buffer *)

Section StringMore.
Implicit Types (d : String).

(** X1. [string_push] appends its byte to the bytes in use, adds one to the
    length, keeps the block well formed, and never shrinks the capacity. *)
Theorem string_push_appends d chr :
  wf_string d -> len d + 1 < 2 ^ 31 ->
  wf_string (string_push d chr)
  /\ len (string_push d chr) = len d + 1
  /\ string_bytes (string_push d chr) = string_bytes d ++ [chr]
  /\ cap d <= cap (string_push d chr).
Proof.
  intros Hwf Hlt. destruct (string_push_spec d chr Hwf Hlt) as (H1 & H2 & H3).
  split_and!; try done.
  destruct Hwf as [Hl Hb Hc Hd]. unfold string_push.
  change (2 ^ 31) with 2147483648 in *.
  destruct (Z.eqb_spec (cap d) (len d)) as [E|E]; simpl; [|lia].
  rewrite wrap32_small by (change (2 ^ 32) with 4294967296; lia). lia.
Qed.

(** X2. [string_grow] to a capacity [c] yields a well-formed block of
    capacity at least [c] that holds the same bytes; when the capacity is
    already enough it changes nothing. *)
Theorem string_grow_keeps_bytes d c :
  wf_string d -> c <= 2 ^ 32 - 2 ->
  wf_string (string_grow d c)
  /\ c <= cap (string_grow d c)
  /\ len (string_grow d c) = len d
  /\ string_bytes (string_grow d c) = string_bytes d
  /\ (c <= cap d -> string_grow d c = d).
Proof.
  intros [Hl Hb Hc Hd] Hmax. unfold string_grow.
  destruct (Z.ltb_spec (cap d) c) as [Hlt|Hge].
  - destruct (string_resize_spec d c) as [H1 H2]; try done; try lia.
    split_and!.
    + split; simpl; try done; lia.
    + simpl. lia.
    + done.
    + apply H2. lia.
    + lia.
  - split_and!; try done; lia.
Qed.
End StringMore.

(** Witness for [string_push_appends]: a push onto the empty buffer. *)
Lemma string_push_appends_witness :
  wf_string (string_push string_new 65)
  /\ len (string_push string_new 65) = len string_new + 1
  /\ string_bytes (string_push string_new 65) = string_bytes string_new ++ [65]
  /\ cap string_new <= cap (string_push string_new 65).
Proof.
  apply (string_push_appends string_new 65).
  - exact string_new_wf.
  - vm_compute. reflexivity.
Defined.

(** Witness for [string_grow_keeps_bytes]: growing the delimiter [EOF] to
    40 bytes. *)
Lemma string_grow_keeps_bytes_witness :
  wf_string (string_grow (delimiter sample_scanner) 40)
  /\ 40 <= cap (string_grow (delimiter sample_scanner) 40)
  /\ len (string_grow (delimiter sample_scanner) 40)
     = len (delimiter sample_scanner)
  /\ string_bytes (string_grow (delimiter sample_scanner) 40)
     = string_bytes (delimiter sample_scanner)
  /\ (40 <= cap (delimiter sample_scanner) ->
      string_grow (delimiter sample_scanner) 40 = delimiter sample_scanner).
Proof.
  apply (string_grow_keeps_bytes (delimiter sample_scanner) 40).
  - apply (reachable_wf (P := c_locale)), sample_scanner_reachable.
  - vm_compute. discriminate.
Defined.

(** * Further properties of [scan_delimiter] *)

Section DelimiterMatch.
Implicit Types (s : Scanner) (lx : TSLexer).

(** When the input at the cursor starts with [bytes], the loop reads them
    all. *)
Lemma scan_delimiter_loop_prefix bytes : forall lx rest,
  drop (pos lx) (input lx) = bytes ++ rest ->
  exists lx',
    scan_delimiter_loop bytes lx = (true, lx')
    /\ drop (pos lx') (input lx') = rest
    /\ input lx' = input lx
    /\ pos lx' = (pos lx + length bytes)%nat.
Proof.
  induction bytes as [|b bytes IH]; intros lx rest Hd; simpl.
  - exists lx. split_and!; try done; lia.
  - simpl in Hd. apply drop_pos_cons in Hd as (Hp & Hlt & Hd).
    fold (peek lx) in Hp. rewrite Hp, Z.eqb_refl.
    destruct (IH (next lx) rest (Hd false)) as (lx' & Hs & Hr & Hi & Hpos).
    exists lx'. unfold next in *.
    split_and!; [done | done | by rewrite Hi, input_advance |].
    rewrite Hpos, pos_advance by done. simpl. lia.
Qed.

(** Where a failed loop stops: at the first byte that differs. *)
Lemma scan_delimiter_loop_mismatch bytes : forall lx lx',
  scan_delimiter_loop bytes lx = (false, lx') ->
  Forall (fun b => b <> 0) bytes ->
  exists k b,
    bytes !! k = Some b /\ b <> peek lx'
    /\ pos lx' = (pos lx + k)%nat
    /\ take k (drop (pos lx) (input lx)) = take k bytes.
Proof.
  induction bytes as [|b bytes IH]; intros lx lx'; simpl; [done|].
  destruct (Z.eqb_spec b (peek lx)) as [->|Hne].
  - intros H [Hb Hbs]%Forall_cons. apply lookahead_nonzero in Hb as [Hlt _].
    apply IH in H as (k & b & Hk & Hb & Hp & Ht); [|done].
    exists (S k), b. unfold next in *. rewrite pos_advance in Hp by done.
    split_and!; try done; try lia.
    rewrite (drop_pos_peek lx false Hlt). simpl. by rewrite Ht.
  - intros [= <-] _. exists 0%nat, b. split_and!; try done; lia.
Qed.

(** X3. For a delimiter without NUL bytes, [scan_delimiter] succeeds if and
    only if the input at the cursor starts with the delimiter, byte for
    byte; it then leaves the cursor right after it, and changes neither the
    marked end nor the result symbol. *)
Theorem scan_delimiter_matches_iff s lx :
  Forall (fun b => b <> 0) (string_bytes (delimiter s)) ->
  (fst (scan_delimiter s lx) = true
   <-> exists rest,
         drop (pos lx) (input lx) = string_bytes (delimiter s) ++ rest)
  /\ (forall lx',
      scan_delimiter s lx = (true, lx') ->
      pos lx' = (pos lx + length (string_bytes (delimiter s)))%nat
      /\ input lx' = input lx
      /\ token_end lx' = token_end lx
      /\ result_symbol lx' = result_symbol lx).
Proof.
  intros Hnz. unfold scan_delimiter. split.
  - split.
    + destruct (scan_delimiter_loop _ lx) as [[] lx'] eqn:E; [|done].
      intros _. apply scan_delimiter_loop_match in E as [Hd _]; [|done]. eauto.
    + intros [rest Hd].
      by destruct (scan_delimiter_loop_prefix _ _ _ Hd) as (lx' & -> & _).
  - intros lx' E.
    pose proof (scan_delimiter_loop_frame _ _ _ _ E) as ([Hi _] & He & _ & Hr).
    apply scan_delimiter_loop_match in E as [_ Hp]; done.
Qed.

(** X4. When [scan_delimiter] fails on a delimiter without NUL bytes, it has
    consumed exactly the bytes that agree with the delimiter, and the
    lookahead is the first one that differs. *)
Theorem scan_delimiter_stops_at_mismatch s lx lx' :
  Forall (fun b => b <> 0) (string_bytes (delimiter s)) ->
  scan_delimiter s lx = (false, lx') ->
  exists k b,
    string_bytes (delimiter s) !! k = Some b /\ b <> peek lx'
    /\ pos lx' = (pos lx + k)%nat
    /\ take k (drop (pos lx) (input lx)) = take k (string_bytes (delimiter s)).
Proof. intros Hnz H. by eapply scan_delimiter_loop_mismatch. Qed.

(** What [scan_body] and [scan_start] test after the delimiter: an optional
    semicolon, then a newline. *)
Lemma closing_tail_peek lx :
  peek (if peek lx =? Chr.SEMI then next lx else lx) = Chr.NL
  <-> closing_tail (drop (pos lx) (input lx)).
Proof.
  split.
  - destruct (Z.eqb_spec (peek lx) Chr.SEMI) as [E|E]; intros H.
    + exists (drop (pos (next (next lx))) (input (next (next lx)))). right.
      rewrite (drop_pos_peek lx false), E.
      * f_equal. fold (next lx). rewrite (drop_pos_peek (next lx) false), H.
        -- done.
        -- apply lookahead_nonzero. fold (peek (next lx)). by rewrite H.
      * apply lookahead_nonzero. fold (peek lx). by rewrite E.
    + exists (drop (pos (next lx)) (input (next lx))). left.
      rewrite (drop_pos_peek lx false), H; [done|].
      apply lookahead_nonzero. fold (peek lx). by rewrite H.
  - intros [tail [H|H]]; apply drop_pos_cons in H as (Hp & _ & Hd);
      fold (peek lx) in Hp; rewrite Hp; simpl; [done|].
    specialize (Hd false). by apply drop_pos_cons in Hd as (Hp2 & _).
Qed.
End DelimiterMatch.

(** Witness for [scan_delimiter_matches_iff]: the delimiter [EOF] before
    [EOF;]. *)
Lemma scan_delimiter_matches_iff_witness :
  (fst (scan_delimiter sample_scanner (lexer_at [69; 79; 70; 59; 10] 0)) = true
   <-> exists rest,
         drop (pos (lexer_at [69; 79; 70; 59; 10] 0))
           (input (lexer_at [69; 79; 70; 59; 10] 0))
         = string_bytes (delimiter sample_scanner) ++ rest)
  /\ (forall lx',
      scan_delimiter sample_scanner (lexer_at [69; 79; 70; 59; 10] 0)
      = (true, lx') ->
      pos lx' = (0 + length (string_bytes (delimiter sample_scanner)))%nat
      /\ input lx' = input (lexer_at [69; 79; 70; 59; 10] 0)
      /\ token_end lx' = token_end (lexer_at [69; 79; 70; 59; 10] 0)
      /\ result_symbol lx' = result_symbol (lexer_at [69; 79; 70; 59; 10] 0)).
Proof.
  apply (scan_delimiter_matches_iff sample_scanner
           (lexer_at [69; 79; 70; 59; 10] 0)).
  vm_compute. by repeat constructor.
Defined.

(** Witness for [scan_delimiter_stops_at_mismatch]: the delimiter [EOF]
    before [EOX]. *)
Lemma scan_delimiter_stops_at_mismatch_witness :
  exists k b,
    string_bytes (delimiter sample_scanner) !! k = Some b
    /\ b <> peek {| input := [69; 79; 88; 10]; pos := 2; token_start := 0;
                    token_end := None; result_symbol := HEREDOC_START |}
    /\ 2%nat = (0 + k)%nat
    /\ take k (drop (pos (lexer_at [69; 79; 88; 10] 0))
                 (input (lexer_at [69; 79; 88; 10] 0)))
       = take k (string_bytes (delimiter sample_scanner)).
Proof.
  apply (scan_delimiter_stops_at_mismatch sample_scanner
           (lexer_at [69; 79; 88; 10] 0)
           {| input := [69; 79; 88; 10]; pos := 2; token_start := 0;
              token_end := None; result_symbol := HEREDOC_START |}).
  - vm_compute. by repeat constructor.
  - vm_compute. reflexivity.
Defined.

(** * Further properties of serialization *)

Section SerializationMore.
Implicit Types (s : Scanner) (buffer : list Z).

(** X5. [deserialize] of any buffer with a length [n] of at least 3 that the
    buffer covers returns: the three flags are set where the bytes at
    offsets 0 to 2 are not zero, the delimiter becomes the [n - 3] bytes from
    offset 3, the capacity of its block does not shrink, and the scanner
    stays well formed. *)
Theorem deserialize_decodes s0 buffer n :
  wf_scanner s0 -> 3 <= n -> n - 3 < 2 ^ 31 ->
  n <= Z.of_nat (length buffer) ->
  exists s',
    deserialize s0 buffer n = Some s'
    /\ wf_scanner s'
    /\ len (delimiter s') = n - 3
    /\ string_bytes (delimiter s') = take (Z.to_nat (n - 3)) (drop 3 buffer)
    /\ cap (delimiter s0) <= cap (delimiter s')
    /\ is_nowdoc s' = bool_of_char (default 0 (buffer !! 0%nat))
    /\ did_start s' = bool_of_char (default 0 (buffer !! 1%nat))
    /\ did_end s' = bool_of_char (default 0 (buffer !! 2%nat)).
Proof.
  intros [Hl0 Hb0 Hc0 Hd0] Hn Hmax Hbuf.
  change (2 ^ 31) with 2147483648 in *. change (2 ^ 32) with 4294967296 in *.
  unfold deserialize. destruct (Z.eqb_spec n 0) as [|_]; [lia|].
  rewrite (wrap32_small (n - 3)) by (change (2 ^ 32) with 4294967296; lia).
  set (m := n - 3) in *.
  set (d1 := {| cap := cap (delimiter s0); len := m; data := data (delimiter s0) |}).
  change (len d1) with m.
  assert (length (data (string_grow d1 m)) = Z.to_nat (cap (string_grow d1 m) + 1)
          /\ m <= cap (string_grow d1 m) <= 4294967296 - 2
          /\ cap (delimiter s0) <= cap (string_grow d1 m)
          /\ len (string_grow d1 m) = m) as (Hgd & Hgc & Hcap & Hgl).
  { unfold string_grow. destruct (Z.ltb_spec (cap d1) m) as [Hlt|Hge].
    - destruct (string_resize_spec d1 m) as [H1 _]; subst d1; simpl in *;
        try (change (2 ^ 32) with 4294967296); lia.
    - subst d1; simpl in *. repeat split; try done; lia. }
  assert (length (take (Z.to_nat m) (drop 3 buffer)) = Z.to_nat m) as Hlen.
  { rewrite length_take, length_drop. lia. }
  rewrite Hgl.
  assert ((3 + m <=? Z.of_nat (length buffer))
          && (m <=? Z.of_nat (length (data (string_grow d1 m)))) = true) as ->.
  { apply andb_true_iff. split; apply Z.leb_le; [lia|]. rewrite Hgd. lia. }
  eexists. split; [done|].
  cbn [delimiter is_nowdoc did_start did_end len cap data].
  split_and!; try done.
  - split; cbn [delimiter len cap data];
      try (change (2 ^ 31) with 2147483648);
      try (change (2 ^ 32) with 4294967296); try lia.
    unfold memcpy. simpl. rewrite length_app, Hlen, length_drop. lia.
  - unfold string_bytes, memcpy. cbn [delimiter len data]. simpl.
    rewrite take_app_length'; [done | by rewrite Hlen].
Qed.

Lemma serialize_observe s1 s2 buffer :
  observe s1 = observe s2 -> serialize s1 buffer = serialize s2 buffer.
Proof.
  unfold observe, serialize, memcpy, string_bytes.
  intros [= -> -> -> Hl Hb]. cbv zeta. by rewrite Hb, Hl.
Qed.

(** X6. [serialize] is faithful to the observable state: two well-formed
    states that serialize to the same bytes are observationally equal, and
    serializing a restored state gives the bytes it was restored from. *)
Theorem serialize_faithful s1 s2 s0 buffer n out :
  wf_scanner s1 -> wf_scanner s2 -> wf_scanner s0 ->
  length buffer = Z.to_nat TREE_SITTER_SERIALIZATION_BUFFER_SIZE ->
  serialize s1 buffer = (n, out) -> n <> 0 ->
  (serialize s2 buffer = (n, out) -> observe s1 = observe s2)
  /\ exists s',
       deserialize s0 out n = Some s' /\ serialize s' buffer = (n, out).
Proof.
  intros Hwf1 Hwf2 Hwf0 Hlen Hs1 Hn.
  destruct (deserialize_serialize s1 s0 buffer n out)
    as (s1' & Hd1 & Ho1 & _); try done.
  split.
  - intros Hs2.
    destruct (deserialize_serialize s2 s0 buffer n out)
      as (s2' & Hd2 & Ho2 & _); try done.
    congruence.
  - exists s1'. split; [done|]. by rewrite (serialize_observe _ _ _ Ho1).
Qed.
End SerializationMore.

(** Witness for [deserialize_decodes]: the flags 1, 0, 2 and the delimiter
    [EOF]. *)
Lemma deserialize_decodes_witness :
  exists s',
    deserialize create [1; 0; 2; 69; 79; 70; 7] 6 = Some s'
    /\ wf_scanner s'
    /\ len (delimiter s') = 6 - 3
    /\ string_bytes (delimiter s')
       = take (Z.to_nat (6 - 3)) (drop 3 [1; 0; 2; 69; 79; 70; 7])
    /\ cap (delimiter create) <= cap (delimiter s')
    /\ is_nowdoc s'
       = bool_of_char (default 0 ([1; 0; 2; 69; 79; 70; 7] !! 0%nat))
    /\ did_start s'
       = bool_of_char (default 0 ([1; 0; 2; 69; 79; 70; 7] !! 1%nat))
    /\ did_end s'
       = bool_of_char (default 0 ([1; 0; 2; 69; 79; 70; 7] !! 2%nat)).
Proof.
  apply (deserialize_decodes create [1; 0; 2; 69; 79; 70; 7] 6).
  - exact create_wf.
  - lia.
  - vm_compute. reflexivity.
  - simpl. lia.
Defined.

(** Witness for [serialize_faithful]: the state with the delimiter [EOF],
    restored into a fresh scanner. *)
Lemma serialize_faithful_witness :
  (serialize sample_scanner (replicate 1024%nat 0)
   = (6, [0; 0; 0; 69; 79; 70] ++ replicate 1018%nat 0) ->
   observe sample_scanner = observe sample_scanner)
  /\ exists s',
       deserialize create ([0; 0; 0; 69; 79; 70] ++ replicate 1018%nat 0) 6
       = Some s'
       /\ serialize s' (replicate 1024%nat 0)
          = (6, [0; 0; 0; 69; 79; 70] ++ replicate 1018%nat 0).
Proof.
  apply (serialize_faithful sample_scanner sample_scanner create
           (replicate 1024%nat 0) 6
           ([0; 0; 0; 69; 79; 70] ++ replicate 1018%nat 0)).
  - apply (reachable_wf (P := c_locale)), sample_scanner_reachable.
  - apply (reachable_wf (P := c_locale)), sample_scanner_reachable.
  - exact create_wf.
  - reflexivity.
  - vm_compute. reflexivity.
  - lia.
Defined.

(** * Further properties of [scan_body] *)

Section ScanBodyMore.
Implicit Types (s : Scanner) (lx : TSLexer) (da : bool).

(** X7. [scan_body] always returns; it reads the same input and never moves
    the cursor back; and when it returns false it has not changed the
    state. *)
Theorem scan_body_returns s lx :
  exists r s' lx',
    scan_body s lx = Some (r, s', lx')
    /\ input lx' = input lx /\ (pos lx <= pos lx')%nat
    /\ (r = false -> s' = s).
Proof.
  destruct (scan_body_total s lx) as [[[r s'] lx'] H].
  exists r, s', lx'. split; [done|].
  pose proof (scan_body_loop_le _ _ _ _ _ _ _ H) as [Hi Hp].
  split_and!; try done. intros ->. by eapply scan_body_loop_failure.
Qed.

(** A delimiter that has matched before a closing tail was read from the
    input: a closing line stood at the cursor. *)
Lemma scan_delimiter_read s lx t :
  scan_delimiter s lx = (true, t) ->
  peek (if peek t =? Chr.SEMI then next t else t) = Chr.NL ->
  closing_line (string_bytes (delimiter s)) (drop (pos lx) (input lx)).
Proof.
  intros H Ht.
  assert (pos t < length (input t))%nat as Hlive.
  { destruct (Z.eqb_spec (peek t) Chr.SEMI) as [E|E];
      apply lookahead_nonzero; fold (peek t); by rewrite ?E, ?Ht. }
  destruct (scan_delimiter_loop_live _ _ _ H Hlive) as [Hd _].
  eexists. split; [done|]. by apply closing_tail_peek.
Qed.

(** The turn of the loop that returns HEREDOC_BODY before a closing line,
    as it does in a nowdoc and whenever it changes [did_end]. *)
Lemma scan_body_iteration_body_close s lx da s' lx' :
  scan_body_iteration s lx da = Return true s' lx' ->
  result_symbol lx' = HEREDOC_BODY ->
  is_nowdoc s = true \/ did_end s' <> did_end s ->
  da = true /\ s' = set_flags s true true /\ peek lx <> 0
  /\ (did_end s = false -> peek lx = Chr.NL)
  /\ exists t,
       scan_delimiter s (next (stop lx)) = (true, t)
       /\ lx' = set HEREDOC_BODY (if peek t =? Chr.SEMI then next t else t)
       /\ peek (if peek t =? Chr.SEMI then next t else t) = Chr.NL.
Proof.
  unfold scan_body_iteration. intros H Hr Hx.
  repeat case_match; simplify_eq; bool_hyps; simplify_eq; forget_marks;
    try (by destruct Hx as [Hx|Hx]; [congruence | done]);
    unfold Chr.NUL in *;
    (do 3 (split; [done|])); (split; [intros ?; congruence|]);
    eexists; bool_goal; (split; [eassumption|]); bool_goal; done.
Qed.

(** The same, with positions: the token ends at the cursor, and the closing
    line is in the input behind the character under the cursor. *)
Lemma scan_body_iteration_body_close_at s lx da s' lx' :
  scan_body_iteration s lx da = Return true s' lx' ->
  result_symbol lx' = HEREDOC_BODY ->
  is_nowdoc s = true \/ did_end s' <> did_end s ->
  da = true /\ s' = set_flags s true true /\ input lx' = input lx
  /\ token_end lx' = Some (pos lx)
  /\ (pos lx < length (input lx))%nat
  /\ closing_line (string_bytes (delimiter s)) (drop (S (pos lx)) (input lx))
  /\ (did_end s = false -> input lx !! pos lx = Some Chr.NL).
Proof.
  intros H Hr Hx.
  pose proof (scan_body_iteration_return _ _ _ _ _ _ H) as [Hi _].
  apply scan_body_iteration_body_close in H
    as (-> & -> & Hp & Hnl & t & Hdel & -> & Ht); [|done..].
  apply lookahead_nonzero in Hp as [Hlt Hlk].
  pose proof (scan_delimiter_frame _ _ _ _ Hdel) as (_ & Hte & _).
  pose proof (scan_delimiter_read _ _ _ Hdel Ht) as Hc.
  unfold next in Hc at 1 2. rewrite input_advance, pos_advance in Hc by done.
  split_and!; try done.
  - destruct (peek t =? Chr.SEMI); cbn [set token_end]; unfold next;
      rewrite ?token_end_advance, Hte; unfold next;
      by rewrite token_end_advance.
  - intros He. rewrite Hlk. f_equal. by apply Hnl.
Qed.

(** A scan that returns HEREDOC_BODY in a nowdoc, or with [did_end] changed,
    has read a closing line behind the place where the token ends. *)
Lemma scan_body_loop_body_close fuel s : forall lx da s' lx',
  scan_body_loop fuel s lx da = Some (true, s', lx') ->
  result_symbol lx' = HEREDOC_BODY ->
  is_nowdoc s = true \/ did_end s' <> did_end s ->
  s' = set_flags s true true /\ input lx' = input lx
  /\ exists j,
       token_end lx' = Some j
       /\ (pos lx <= j < length (input lx))%nat
       /\ closing_line (string_bytes (delimiter s)) (drop (S j) (input lx))
       /\ (did_end s = false -> input lx !! j = Some Chr.NL).
Proof.
  induction fuel as [|fuel IH]; intros lx da s' lx'; [done|].
  rewrite scan_body_loop_S.
  destruct (scan_body_iteration s lx da) as [r0 s0 lx0|lx0] eqn:E.
  - intros [= -> -> ->] Hr Hx.
    apply scan_body_iteration_body_close_at in E
      as (_ & -> & Hi & Hte & Hlt & Hc & Hnl); [|done..].
    split_and!; try done. exists (pos lx). split_and!; try done.
  - intros H Hr Hx.
    apply scan_body_iteration_continue in E as ([Hi Hp] & _).
    destruct (IH _ _ _ _ H Hr Hx) as (-> & Hi' & j & Hte & Hj & Hc & Hnl).
    rewrite Hi in *. split_and!; try done.
    exists j. split_and!; try done; lia.
Qed.

(** X8. In a nowdoc, [scan_body] never emits EMBEDDED_OPENING_BRACE, and it
    emits HEREDOC_BODY only when it has found the closing line after the
    body: the token ends at a place [j] of the input, at or after the
    cursor, behind which the closing line stands (the delimiter, a
    semicolon or none, and a newline), and [j] holds the newline before that
    line unless [did_end] was already set.  [did_start] and [did_end] are
    then set, so that the next token can only be HEREDOC_END.  [is_nowdoc]
    is kept until HEREDOC_END. *)
Theorem nowdoc_is_inert s lx s' lx' :
  is_nowdoc s = true ->
  scan_body s lx = Some (true, s', lx') ->
  result_symbol lx' <> EMBEDDED_OPENING_BRACE
  /\ (result_symbol lx' = HEREDOC_BODY ->
      s' = set_flags s true true
      /\ exists j,
           token_end lx' = Some j
           /\ (pos lx <= j < length (input lx))%nat
           /\ closing_line (string_bytes (delimiter s))
                (drop (S j) (input lx))
           /\ (did_end s = false -> input lx !! j = Some Chr.NL))
  /\ (result_symbol lx' <> HEREDOC_END -> is_nowdoc s' = true).
Proof.
  intros Hn H.
  pose proof (scan_body_loop_body_close _ _ _ _ _ _ H) as Hclose.
  apply scan_body_loop_outcome in H as (da & _ & Ho).
  split_and!.
  - inversion Ho; subst; congruence.
  - intros Hr. destruct (Hclose Hr (or_introl Hn)) as (-> & _ & Hj).
    by split.
  - inversion Ho; subst; try congruence; by intros _.
Qed.

(** The turn of the loop on a character of the literal text. *)
Lemma scan_body_iteration_literal s lx da :
  literal_body_char (is_nowdoc s) (peek lx) = true ->
  scan_body_iteration s lx da =
  if did_end s || (peek lx =? Chr.NL) then
    let lx0 := if da then next (stop lx)
               else if peek lx =? Chr.NL then
                 if did_end s then skip lx else stop (next lx)
               else lx in
    let '(matched, t) := scan_delimiter s lx0 in
    if matched then
      let t := if negb da && did_end s then stop t else t in
      let t := if peek t =? Chr.SEMI then next t else t in
      if peek t =? Chr.NL then
        if da then Return true (set_flags s true true) (set HEREDOC_BODY t)
        else if did_end s then
          Return true (close_heredoc s) (set HEREDOC_END t)
        else Return true (set_flags s true true) (set HEREDOC_END_NEWLINE t)
      else Continue t
    else if negb (did_start s) && negb da then
      Return true (set_flags s true (did_end s)) (set HEREDOC_START_NEWLINE t)
    else Continue t
  else Continue (next lx).
Proof.
  intros H. unfold literal_body_char in H. unfold scan_body_iteration.
  apply andb_true_iff in H as [H1 H2]. apply negb_true_iff in H1.
  apply orb_false_iff in H1 as [-> ->].
  assert (((peek lx =? Chr.LBRACE) || (peek lx =? Chr.DOLLAR))
          && negb (is_nowdoc s) = false) as ->; [|done].
  destruct (is_nowdoc s); [apply andb_false_r|].
  simpl in H2. apply negb_true_iff in H2. by rewrite H2.
Qed.

Lemma delimiter_byte_literal nowdoc b :
  is_delimiter_byte b = true ->
  literal_body_char nowdoc b = true /\ b <> Chr.NL /\ b <> 0.
Proof.
  unfold is_delimiter_byte, is_ascii_alpha, is_ascii_digit, literal_body_char,
    Chr.NUL, Chr.BACKSLASH, Chr.LBRACE, Chr.DOLLAR, Chr.NL, Chr.UNDERSCORE.
  intros H.
  assert (65 <= b <= 90 \/ 97 <= b <= 122 \/ 48 <= b <= 57 \/ b = 95) as Hb
    by (bool_hyps; lia).
  split; [|lia].
  replace (b =? 0) with false by lia. replace (b =? 92) with false by lia.
  replace (b =? 123) with false by lia. replace (b =? 36) with false by lia.
  by destruct nowdoc.
Qed.

Lemma delimiter_bytes_nonzero bytes :
  Forall (fun b => is_delimiter_byte b = true) bytes ->
  Forall (fun b => b <> 0) bytes.
Proof.
  intros Hb. eapply Forall_impl; [exact Hb|]. intros b H.
  by destruct (delimiter_byte_literal false b H) as (_ & _ & ?).
Qed.

(** The input after the newline under the cursor is the input at the cursor
    of the lexer that has skipped it. *)
Lemma after_newline_cursor lx :
  let lx0 := if peek lx =? Chr.NL then skip lx else lx in
  after_newline lx = drop (pos lx0) (input lx0)
  /\ input lx0 = input lx
  /\ pos lx0 = (if peek lx =? Chr.NL then S (pos lx) else pos lx).
Proof.
  unfold after_newline. destruct (Z.eqb_spec (peek lx) Chr.NL) as [E|E]; [|done].
  assert (pos lx < length (input lx))%nat as Hlt
    by (apply lookahead_nonzero; fold (peek lx); by rewrite E).
  cbv zeta. unfold skip. by rewrite input_advance, pos_advance.
Qed.

(** On a closing line [scan_delimiter] succeeds, and the test that follows
    it as well. *)
Lemma scan_delimiter_closing s lx :
  closing_line (string_bytes (delimiter s)) (drop (pos lx) (input lx)) ->
  exists t,
    scan_delimiter s lx = (true, t)
    /\ peek (if peek t =? Chr.SEMI then next t else t) = Chr.NL
    /\ input t = input lx
    /\ pos t = (pos lx + length (string_bytes (delimiter s)))%nat
    /\ token_end t = token_end lx
    /\ token_start t = token_start lx.
Proof.
  intros (after & Hd & Ht).
  destruct (scan_delimiter_loop_prefix _ _ _ Hd) as (t & Hs & Hr & Hi & Hp).
  exists t. split_and!; try done.
  - apply closing_tail_peek. by rewrite Hr.
  - by apply scan_delimiter_loop_frame in Hs as (_ & ? & _).
  - by apply scan_delimiter_loop_frame in Hs as (_ & _ & ? & _).
Qed.

Lemma token_start_next lx : token_start (next lx) = token_start lx.
Proof.
  unfold next, advance. by destruct (pos lx <? length (input lx))%nat.
Qed.

Lemma scan_delimiter_closing_inv s lx t :
  Forall (fun b => b <> 0) (string_bytes (delimiter s)) ->
  scan_delimiter s lx = (true, t) ->
  peek (if peek t =? Chr.SEMI then next t else t) = Chr.NL ->
  closing_line (string_bytes (delimiter s)) (drop (pos lx) (input lx)).
Proof.
  intros Hnz H Ht. apply scan_delimiter_loop_match in H as [Hd _]; [|done].
  eexists. split; [done|]. by apply closing_tail_peek.
Qed.

Lemma scan_body_unfold s lx :
  scan_body s lx =
  match scan_body_iteration s lx false with
  | Return r s' lx' => Some (r, s', lx')
  | Continue lx' => scan_body_loop (2 * remaining lx + 1) s lx' true
  end.
Proof.
  unfold scan_body.
  by replace (2 * remaining lx + 2)%nat with (S (2 * remaining lx + 1)) by lia.
Qed.

(** The turn of the loop that returns HEREDOC_END_NEWLINE. *)
Lemma scan_body_iteration_end_newline s lx da s' lx' :
  scan_body_iteration s lx da = Return true s' lx' ->
  result_symbol lx' = HEREDOC_END_NEWLINE ->
  da = false /\ did_end s = false /\ peek lx = Chr.NL
  /\ s' = set_flags s true true
  /\ exists t,
       scan_delimiter s (stop (next lx)) = (true, t)
       /\ lx' = set HEREDOC_END_NEWLINE
                  (if peek t =? Chr.SEMI then next t else t)
       /\ peek (if peek t =? Chr.SEMI then next t else t) = Chr.NL.
Proof.
  unfold scan_body_iteration. intros H Hr.
  repeat case_match; simplify_eq; bool_hyps; simplify_eq; forget_marks;
    (do 4 (split; [done|])); eexists; bool_goal;
    (split; [eassumption|]); bool_goal; done.
Qed.

(** The turn of the loop that returns HEREDOC_START_NEWLINE. *)
Lemma scan_body_iteration_start_newline s lx da s' lx' :
  scan_body_iteration s lx da = Return true s' lx' ->
  result_symbol lx' = HEREDOC_START_NEWLINE ->
  da = false /\ did_start s = false /\ s' = set_flags s true (did_end s)
  /\ (did_end s = false -> peek lx = Chr.NL)
  /\ exists t,
       scan_delimiter s
         (if peek lx =? Chr.NL then
            if did_end s then skip lx else stop (next lx)
          else lx) = (false, t)
       /\ lx' = set HEREDOC_START_NEWLINE t.
Proof.
  unfold scan_body_iteration. intros H Hr.
  repeat case_match; simplify_eq; bool_hyps; simplify_eq; forget_marks;
    (do 3 (split; [done|])); (split; [congruence|]);
    eexists; bool_goal; (split; [eassumption|]); done.
Qed.

(** On a closing line, or on the newline before one, with [did_end] set:
    HEREDOC_END, and the state is closed. *)
Lemma scan_body_end s lx :
  literal_body_char (is_nowdoc s) (peek lx) = true ->
  did_end s = true ->
  closing_line (string_bytes (delimiter s)) (after_newline lx) ->
  exists lx',
    scan_body s lx = Some (true, close_heredoc s, lx')
    /\ result_symbol lx' = HEREDOC_END.
Proof.
  intros Hlit He Hc.
  destruct (after_newline_cursor lx) as (Ha & _). cbv zeta in Ha.
  rewrite Ha in Hc.
  destruct (scan_delimiter_closing _ _ Hc) as (t & Hdel & Hnl & _).
  rewrite scan_body_unfold, (scan_body_iteration_literal _ _ _ Hlit), He.
  cbn [orb negb andb]. cbv zeta. rewrite Hdel.
  assert (peek (if peek (stop t) =? Chr.SEMI then next (stop t) else stop t)
          = Chr.NL) as ->.
  { change (peek (stop t)) with (peek t).
    destruct (peek t =? Chr.SEMI); by forget_marks. }
  change (Chr.NL =? Chr.NL) with true. eauto.
Qed.

(** On a newline that the delimiter does not follow, with neither
    [did_start] nor [did_end] set: HEREDOC_START_NEWLINE, which ends after
    the newline. *)
Lemma scan_body_start_newline s lx :
  Forall (fun b => b <> 0) (string_bytes (delimiter s)) ->
  did_start s = false -> did_end s = false -> peek lx = Chr.NL ->
  ~ (exists rest,
       drop (S (pos lx)) (input lx) = string_bytes (delimiter s) ++ rest) ->
  exists lx',
    scan_body s lx = Some (true, set_flags s true false, lx')
    /\ result_symbol lx' = HEREDOC_START_NEWLINE
    /\ token_end lx' = Some (S (pos lx)).
Proof.
  intros Hnz Hs He Hp Hno.
  assert (pos lx < length (input lx))%nat as Hlt
    by (apply lookahead_nonzero; fold (peek lx); by rewrite Hp).
  assert (input (stop (next lx)) = input lx
          /\ pos (stop (next lx)) = S (pos lx)) as [Hi Hpos]
    by (unfold stop, next; simpl; by rewrite input_advance, pos_advance).
  rewrite scan_body_unfold, scan_body_iteration_literal, He, Hs
    by (rewrite Hp; by destruct (is_nowdoc s)).
  rewrite Hp. cbn [orb negb andb]. cbv zeta.
  change (Chr.NL =? Chr.NL) with true. cbn [orb negb andb].
  destruct (scan_delimiter s (stop (next lx))) as [[] t] eqn:Hdel.
  - exfalso. apply Hno.
    apply scan_delimiter_loop_match in Hdel as [Hd _]; [|done].
    rewrite Hi, Hpos in Hd. eauto.
  - eexists. split; [done|]. split; [done|].
    apply scan_delimiter_frame in Hdel as (_ & Hte & _). simpl.
    rewrite Hte. simpl. by rewrite <- Hpos.
Qed.

(** X9. For a non-empty delimiter of ASCII letters, digits and underscores,
    [scan_body] emits HEREDOC_END if and only if [did_end] is set and a
    closing line starts at the cursor, or after the newline under the
    cursor: the delimiter, an optional semicolon, and a newline. *)
Theorem heredoc_end_iff s lx :
  Forall (fun b => is_delimiter_byte b = true) (string_bytes (delimiter s)) ->
  string_bytes (delimiter s) <> [] ->
  (exists s' lx',
     scan_body s lx = Some (true, s', lx')
     /\ result_symbol lx' = HEREDOC_END)
  <-> did_end s = true
      /\ closing_line (string_bytes (delimiter s)) (after_newline lx).
Proof.
  intros Hb Hne. pose proof (delimiter_bytes_nonzero _ Hb) as Hnz.
  destruct (after_newline_cursor lx) as (Ha & Hi & Hp). cbv zeta in *.
  rewrite Ha. clear Ha. split.
  - intros (s' & lx' & H & Hr).
    apply scan_body_first_turn in H; [|by rewrite Hr].
    apply scan_body_iteration_end in H as (_ & He & _ & t & Hdel & _ & Hnl);
      [|done].
    split; [done|]. by eapply scan_delimiter_closing_inv.
  - intros [He Hc].
    assert (literal_body_char (is_nowdoc s) (peek lx) = true) as Hlit.
    { destruct (Z.eqb_spec (peek lx) Chr.NL) as [->|Hnl];
        [by destruct (is_nowdoc s)|].
      destruct Hc as (after & Hd & _).
      destruct (string_bytes (delimiter s)) as [|b bytes]; [done|].
      apply drop_pos_cons in Hd as [<- _]. apply Forall_cons in Hb as [Hb _].
      by apply delimiter_byte_literal. }
    destruct (scan_body_end s lx) as (lx' & H & Hr); try done; [|eauto].
    by destruct (after_newline_cursor lx) as [-> _].
Qed.

(** X10. For a delimiter without NUL bytes, [scan_body] emits
    HEREDOC_END_NEWLINE if and only if [did_end] is not set, the cursor is on
    a newline, and a closing line follows it.  The token is that newline
    alone: the closing line has been read but is not part of it; and
    [did_start] and [did_end] are set. *)
Theorem heredoc_end_newline_iff s lx :
  Forall (fun b => b <> 0) (string_bytes (delimiter s)) ->
  ((exists s' lx',
      scan_body s lx = Some (true, s', lx')
      /\ result_symbol lx' = HEREDOC_END_NEWLINE)
   <-> did_end s = false /\ peek lx = Chr.NL
       /\ closing_line (string_bytes (delimiter s))
            (drop (S (pos lx)) (input lx)))
  /\ (forall s' lx',
       scan_body s lx = Some (true, s', lx') ->
       result_symbol lx' = HEREDOC_END_NEWLINE ->
       s' = set_flags s true true
       /\ token_start lx' = token_start lx
       /\ token_end lx' = Some (S (pos lx))).
Proof.
  intros Hnz.
  assert (peek lx = Chr.NL ->
          input (stop (next lx)) = input lx
          /\ pos (stop (next lx)) = S (pos lx)
          /\ token_start (stop (next lx)) = token_start lx) as Hcur.
  { intros E.
    assert (pos lx < length (input lx))%nat as Hlt
      by (apply lookahead_nonzero; fold (peek lx); by rewrite E).
    unfold stop, next. simpl. rewrite input_advance, pos_advance by done.
    split_and!; try done. unfold advance.
    by destruct (Nat.ltb_spec (pos lx) (length (input lx))); [|lia]. }
  split; [split|].
  - intros (s' & lx' & H & Hr).
    apply scan_body_first_turn in H; [|by rewrite Hr].
    apply scan_body_iteration_end_newline in H
      as (_ & He & Hp & _ & t & Hdel & _ & Hnl); [|done].
    split; [done|]. split; [done|].
    destruct (Hcur Hp) as (Hi & Hpos & _). rewrite <- Hi, <- Hpos.
    by eapply scan_delimiter_closing_inv.
  - intros (He & Hp & Hc).
    destruct (Hcur Hp) as (Hi & Hpos & _). rewrite <- Hi, <- Hpos in Hc.
    destruct (scan_delimiter_closing _ _ Hc) as (t & Hdel & Hnl & _).
    rewrite scan_body_unfold, scan_body_iteration_literal, He
      by (rewrite Hp; by destruct (is_nowdoc s)).
    rewrite Hp. cbn [orb negb andb]. cbv zeta.
    change (Chr.NL =? Chr.NL) with true. cbn [orb negb andb].
    rewrite Hdel. rewrite (proj2 (Z.eqb_eq _ _) Hnl). eauto.
  - intros s' lx' H Hr.
    apply scan_body_first_turn in H; [|by rewrite Hr].
    apply scan_body_iteration_end_newline in H
      as (_ & He & Hp & -> & t & Hdel & -> & Hnl); [|done].
    split; [done|]. destruct (Hcur Hp) as (_ & Hpos & Hts).
    apply scan_delimiter_frame in Hdel as (_ & Hte & Hts' & _).
    assert (token_start (next t) = token_start t) as Hn
      by (unfold next, advance; by destruct (pos t <? length (input t))%nat).
    destruct (peek t =? Chr.SEMI); simpl; unfold next in *;
      rewrite ?token_end_advance, ?Hn, Hte, Hts', Hts; (split; [done|]);
      simpl; f_equal; exact Hpos.
Qed.

(** X11. While [did_end] is not set, and for a delimiter without NUL bytes,
    [scan_body] emits HEREDOC_START_NEWLINE if and only if [did_start] is
    not set, the cursor is on a newline, and the input after it does not
    start with the delimiter.  The token ends right after that newline, and
    [did_start] is set. *)
Theorem heredoc_start_newline_iff s lx :
  Forall (fun b => b <> 0) (string_bytes (delimiter s)) ->
  did_end s = false ->
  ((exists s' lx',
      scan_body s lx = Some (true, s', lx')
      /\ result_symbol lx' = HEREDOC_START_NEWLINE)
   <-> did_start s = false /\ peek lx = Chr.NL
       /\ ~ (exists rest,
               drop (S (pos lx)) (input lx)
               = string_bytes (delimiter s) ++ rest))
  /\ (forall s' lx',
       scan_body s lx = Some (true, s', lx') ->
       result_symbol lx' = HEREDOC_START_NEWLINE ->
       s' = set_flags s true false
       /\ token_end lx' = Some (S (pos lx))).
Proof.
  intros Hnz He.
  assert (peek lx = Chr.NL ->
          input (stop (next lx)) = input lx
          /\ pos (stop (next lx)) = S (pos lx)) as Hcur.
  { intros E.
    assert (pos lx < length (input lx))%nat as Hlt
      by (apply lookahead_nonzero; fold (peek lx); by rewrite E).
    unfold stop, next. simpl. by rewrite input_advance, pos_advance. }
  split; [split|].
  - intros (s' & lx' & H & Hr).
    apply scan_body_first_turn in H; [|by rewrite Hr].
    apply scan_body_iteration_start_newline in H
      as (_ & Hs & _ & Hp & t & Hdel & _); [|done].
    specialize (Hp He). split; [done|]. split; [done|].
    rewrite Hp, He in Hdel. change (Chr.NL =? Chr.NL) with true in Hdel.
    cbv iota in Hdel. intros [rest Hd].
    destruct (Hcur Hp) as (Hi & Hpos). rewrite <- Hi, <- Hpos in Hd.
    apply scan_delimiter_loop_prefix in Hd as (t' & Hd & _).
    unfold scan_delimiter in Hdel. congruence.
  - intros (Hs & Hp & Hno).
    destruct (scan_body_start_newline s lx) as (lx' & H & Hr & _); eauto.
  - intros s' lx' H Hr.
    apply scan_body_first_turn in H; [|by rewrite Hr].
    apply scan_body_iteration_start_newline in H
      as (_ & Hs & -> & Hp & t & Hdel & ->); [|done].
    specialize (Hp He). rewrite He. split; [done|].
    rewrite Hp, He in Hdel. change (Chr.NL =? Chr.NL) with true in Hdel.
    cbv iota in Hdel.
    apply scan_delimiter_frame in Hdel as (_ & Hte & _). simpl.
    rewrite Hte. simpl. f_equal. by apply Hcur.
Qed.

(** What [scan_delimiter_loop] has consumed when it stops, on a match or
    not: a prefix of the delimiter. *)
Lemma scan_delimiter_loop_consumed bytes : forall lx m t,
  scan_delimiter_loop bytes lx = (m, t) ->
  Forall (fun b => b <> 0) bytes ->
  exists p q,
    bytes = p ++ q
    /\ drop (pos lx) (input lx) = p ++ drop (pos t) (input t)
    /\ input t = input lx
    /\ (m = true -> p = bytes).
Proof.
  induction bytes as [|b bytes IH]; intros lx m t; simpl.
  - intros [= <- <-] _. by exists [], [].
  - destruct (Z.eqb_spec b (peek lx)) as [->|Hne].
    + intros H [Hb Hbs]%Forall_cons.
      apply lookahead_nonzero in Hb as [Hlt _].
      apply IH in H as (p & q & -> & Hd & Hi & Hm); [|done].
      exists (peek lx :: p), q. unfold next in *.
      rewrite (drop_pos_peek lx false Hlt), Hd, Hi, input_advance.
      split_and!; try done. intros Ht. f_equal. by apply Hm.
    + intros [= <- <-] _. by exists [], (b :: bytes).
Qed.

Lemma split_before_tail (p x b tail : list Z) :
  p ++ x = b ++ tail -> Forall (fun c => c <> Chr.NL) p ->
  tail = [] \/ head tail = Some Chr.NL ->
  exists b', b = p ++ b' /\ x = b' ++ tail.
Proof.
  intros H Hp Ht. revert b H.
  induction Hp as [|c p Hc Hp IH]; intros b; simpl.
  - intros ->. by exists b.
  - destruct b as [|c' b]; simpl.
    + intros <-. by destruct Ht as [?|[= ?]].
    + intros [= <- H]. destruct (IH b H) as (b' & -> & ->). by exists b'.
Qed.

Lemma no_closing_line_inside_suffix bytes x b tail :
  no_closing_line_inside bytes (x ++ b) tail ->
  no_closing_line_inside bytes b tail.
Proof.
  intros H pre post ->. apply (H (x ++ pre) post). by rewrite app_assoc.
Qed.

(** One turn of the loop inside the literal text of a body, where no closing
    line follows: the loop goes on, further in the text.  After the text
    comes the newline before the closing line, or the end of the input. *)
Lemma scan_body_iteration_text s lx da c b tail :
  Forall (fun b => is_delimiter_byte b = true) (string_bytes (delimiter s)) ->
  did_end s = false ->
  Forall (fun c => literal_body_char (is_nowdoc s) c = true) (c :: b) ->
  no_closing_line_inside (string_bytes (delimiter s)) (c :: b) tail ->
  tail = [] \/ head tail = Some Chr.NL ->
  drop (pos lx) (input lx) = (c :: b) ++ tail ->
  da = true \/ did_start s = true \/ c <> Chr.NL ->
  exists x b1 lx1,
    c :: b = x ++ b1 /\ x <> []
    /\ scan_body_iteration s lx da = Continue lx1
    /\ input lx1 = input lx
    /\ drop (pos lx1) (input lx1) = b1 ++ tail
    /\ token_start lx1 = token_start lx.
Proof.
  intros Hb He Hlit Hno Htail Hd Hda.
  pose proof (delimiter_bytes_nonzero _ Hb) as Hnz.
  apply Forall_cons in Hlit as [Hlc Hlit]. simpl in Hd.
  apply drop_pos_cons in Hd as (Hp & Hlt & Hd). fold (peek lx) in Hp.
  rewrite scan_body_iteration_literal, He by (by rewrite Hp).
  rewrite Hp. cbn [orb].
  destruct (Z.eqb_spec c Chr.NL) as [->|Hne].
  - set (lx0 := if da then next (stop lx) else stop (next lx)).
    assert (input lx0 = input lx
            /\ drop (pos lx0) (input lx0) = b ++ tail
            /\ token_start lx0 = token_start lx)
      as (Hi0 & Hd0 & Hts0).
    { subst lx0. rewrite <- (Hd false).
      destruct da; unfold next, stop, advance; simpl;
        by destruct (pos lx <? length (input lx))%nat. }
    cbv zeta. fold lx0.
    destruct (scan_delimiter s lx0) as [m t] eqn:Hdel.
    pose proof (scan_delimiter_frame _ _ _ _ Hdel) as (_ & _ & Hts & _).
    rewrite Hts0 in Hts.
    destruct (scan_delimiter_loop_consumed _ _ _ _ Hdel Hnz)
      as (p & q & Hpq & Hdp & Hit & Hm).
    assert (Forall (fun c => c <> Chr.NL) p) as Hpnl.
    { rewrite Hpq in Hb. apply Forall_app in Hb as [Hb _].
      eapply Forall_impl; [exact Hb|]. intros c Hc'.
      by destruct (delimiter_byte_literal false c Hc') as (_ & ? & _). }
    rewrite Hd0 in Hdp. symmetry in Hdp.
    apply split_before_tail in Hdp as (b3 & -> & Hd3); [|done..].
    destruct m.
    + rewrite andb_false_r.
      destruct (Z.eqb_spec
                  (peek (if peek t =? Chr.SEMI then next t else t)) Chr.NL)
        as [Hnl|Hnl].
      { exfalso. apply (Hno [] (p ++ b3)); [done|].
        exists (drop (pos t) (input t)). rewrite (Hm eq_refl).
        split; [by rewrite <- app_assoc, Hd3|].
        by apply closing_tail_peek. }
      destruct (Z.eqb_spec (peek t) Chr.SEMI) as [Hs|Hs].
      * destruct b3 as [|c3 b4].
        { rewrite peek_head, Hd3 in Hs. simpl in Hs.
          by destruct Htail as [->|Hh]; [|rewrite Hh in Hs]. }
        simpl in Hd3. apply drop_pos_cons in Hd3 as (_ & _ & Hd4).
        exists (Chr.NL :: p ++ [c3]), b4, (next t).
        split_and!; try done.
        -- simpl. by rewrite <- app_assoc.
        -- unfold next. by rewrite input_advance, Hit.
        -- apply Hd4.
        -- by rewrite token_start_next.
      * exists (Chr.NL :: p), b3, t. split_and!; try done. congruence.
    + assert (negb (did_start s) && negb da = false) as ->.
      { destruct Hda as [->|[->|?]]; [apply andb_false_r|done..]. }
      exists (Chr.NL :: p), b3, t. split_and!; try done. congruence.
  - exists [c], b, (next lx). unfold next.
    split_and!; try done;
      apply input_advance || apply Hd || apply token_start_next.
Qed.

(** The loop runs through a literal text that no closing line follows, and
    goes on behind it with [did_advance] set. *)
Lemma scan_body_loop_text s tail :
  Forall (fun b => is_delimiter_byte b = true) (string_bytes (delimiter s)) ->
  did_end s = false ->
  tail = [] \/ head tail = Some Chr.NL ->
  forall n body lx da,
  (length body <= n)%nat -> body <> [] ->
  Forall (fun c => literal_body_char (is_nowdoc s) c = true) body ->
  no_closing_line_inside (string_bytes (delimiter s)) body tail ->
  drop (pos lx) (input lx) = body ++ tail ->
  da = true \/ did_start s = true \/ head body <> Some Chr.NL ->
  exists k lx0,
    (k <= length body)%nat
    /\ (forall fuel,
        scan_body_loop (k + fuel) s lx da = scan_body_loop fuel s lx0 true)
    /\ input lx0 = input lx
    /\ drop (pos lx0) (input lx0) = tail
    /\ token_start lx0 = token_start lx.
Proof.
  intros Hb He Htail n.
  induction n as [|n IH]; intros body lx da Hlen Hne Hlit Hno Hd Hda;
    destruct body as [|c b]; try done; [simpl in Hlen; lia|].
  destruct (scan_body_iteration_text s lx da c b tail)
    as (x & b1 & lx1 & Hxb & Hx & Hit & Hi & Hd1 & Hts1); try done.
  { destruct Hda as [?|[?|Hh]]; [by left | by right; left |].
    right. right. intros ->. by apply Hh. }
  rewrite Hxb in *.
  assert (0 < length x)%nat by (destruct x; [done | simpl; lia]).
  rewrite length_app in *.
  destruct b1 as [|c1 b1].
  - exists 1%nat, lx1. split; [lia|]. split_and!; try done.
    intros fuel. change (1 + fuel)%nat with (S fuel).
    by rewrite scan_body_loop_S, Hit.
  - apply Forall_app in Hlit as [_ Hlit].
    apply no_closing_line_inside_suffix in Hno.
    destruct (IH (c1 :: b1) lx1 true)
      as (k & lx0 & Hk & Heq & Hi0 & Hd0 & Hts0); try done; [lia | by left|].
    exists (S k), lx0. split; [lia|]. split_and!; try done; try congruence.
    intros fuel. change (S k + fuel)%nat with (S (k + fuel)).
    by rewrite scan_body_loop_S, Hit.
Qed.

(** The turn of the loop on the newline before a closing line, after some
    text: HEREDOC_BODY, which ends at this newline. *)
Lemma scan_body_iteration_closing s lx rest :
  did_end s = false ->
  closing_line (string_bytes (delimiter s)) rest ->
  drop (pos lx) (input lx) = Chr.NL :: rest ->
  exists lx',
    scan_body_iteration s lx true = Return true (set_flags s true true) lx'
    /\ result_symbol lx' = HEREDOC_BODY
    /\ token_end lx' = Some (pos lx)
    /\ token_start lx' = token_start lx.
Proof.
  intros He Hc Hd.
  apply drop_pos_cons in Hd as (Hp & Hlt & Hd). fold (peek lx) in Hp.
  rewrite scan_body_iteration_literal, He
    by (rewrite Hp; by destruct (is_nowdoc s)).
  rewrite Hp. change (Chr.NL =? Chr.NL) with true. cbn [orb negb andb].
  cbv zeta. specialize (Hd false).
  change (advance lx false) with (next lx) in Hd.
  assert (drop (pos (next (stop lx))) (input (next (stop lx))) = rest)
    as Hd' by (rewrite <- Hd; unfold next, stop, advance; simpl;
               by destruct (pos lx <? length (input lx))%nat).
  rewrite <- Hd' in Hc.
  destruct (scan_delimiter_closing _ _ Hc)
    as (t & -> & Hnl & _ & _ & Hte & Hts).
  rewrite Hnl. change (Chr.NL =? Chr.NL) with true.
  eexists. split; [done|]. split; [done|]. simpl.
  rewrite token_start_next in Hts. change (token_start (stop lx))
    with (token_start lx) in Hts.
  destruct (peek t =? Chr.SEMI); rewrite ?token_start_next, Hts;
    unfold next in *; rewrite ?token_end_advance, Hte, token_end_advance;
    done.
Qed.

(** A non-empty literal text before the first closing line:
    HEREDOC_BODY. *)
Lemma scan_body_text s lx body rest :
  Forall (fun b => is_delimiter_byte b = true) (string_bytes (delimiter s)) ->
  did_end s = false ->
  body <> [] ->
  did_start s = true \/ head body <> Some Chr.NL ->
  Forall (fun c => literal_body_char (is_nowdoc s) c = true) body ->
  no_closing_line_inside (string_bytes (delimiter s)) body (Chr.NL :: rest) ->
  closing_line (string_bytes (delimiter s)) rest ->
  drop (pos lx) (input lx) = body ++ Chr.NL :: rest ->
  exists lx',
    scan_body s lx = Some (true, set_flags s true true, lx')
    /\ result_symbol lx' = HEREDOC_BODY
    /\ token_start lx' = token_start lx
    /\ token_end lx' = Some (pos lx + length body)%nat.
Proof.
  intros Hb He Hne Hhd Hlit Hno Hc Hd.
  assert (length (drop (pos lx) (input lx))
          = length (body ++ Chr.NL :: rest)) as Hl by (by rewrite Hd).
  rewrite length_drop, length_app in Hl. simpl in Hl.
  destruct (scan_body_loop_text s (Chr.NL :: rest) Hb He (or_intror eq_refl)
              (length body) body lx false)
    as (k & lx0 & Hk & Heq & Hi0 & Hd0 & Hts0); try done; [by right|].
  assert (length (drop (pos lx0) (input lx0)) = length (Chr.NL :: rest))
    as Hl0 by (by rewrite Hd0).
  rewrite length_drop, Hi0 in Hl0. simpl in Hl0.
  destruct (scan_body_iteration_closing s lx0 rest He Hc Hd0)
    as (lx' & Hit & Hr & Hte & Hts).
  exists lx'. unfold scan_body, remaining.
  replace (2 * (length (input lx) - pos lx) + 2)%nat
    with (k + S (2 * (length (input lx) - pos lx) + 1 - k))%nat by lia.
  rewrite Heq, scan_body_loop_S, Hit.
  split_and!; try done; [congruence|]. rewrite Hte. f_equal. lia.
Qed.

(** A literal text that runs to the end of the input: no token. *)
Lemma scan_body_unterminated s lx body :
  Forall (fun b => is_delimiter_byte b = true) (string_bytes (delimiter s)) ->
  did_end s = false ->
  did_start s = true \/ head body <> Some Chr.NL ->
  Forall (fun c => literal_body_char (is_nowdoc s) c = true) body ->
  no_closing_line_inside (string_bytes (delimiter s)) body [] ->
  drop (pos lx) (input lx) = body ->
  exists lx',
    scan_body s lx = Some (false, s, lx')
    /\ input lx' = input lx /\ (length (input lx) <= pos lx')%nat.
Proof.
  intros Hb He Hhd Hlit Hno Hd.
  assert (forall fuel lx0 da,
            drop (pos lx0) (input lx0) = [] ->
            scan_body_loop (S fuel) s lx0 da = Some (false, s, lx0)
            /\ (length (input lx0) <= pos lx0)%nat) as Heof.
  { intros fuel lx0 da Hd0.
    rewrite scan_body_loop_S, scan_body_iteration_eof
      by (by rewrite peek_head, Hd0).
    split; [done|]. apply drop_nil_inv in Hd0. done. }
  destruct body as [|c b].
  - exists lx. unfold scan_body.
    replace (2 * remaining lx + 2)%nat with (S (2 * remaining lx + 1)) by lia.
    destruct (Heof (2 * remaining lx + 1)%nat lx false Hd). done.
  - assert (length (drop (pos lx) (input lx)) = length (c :: b)) as Hl
      by (by rewrite Hd).
    rewrite length_drop in Hl.
    destruct (scan_body_loop_text s [] Hb He (or_introl eq_refl)
                (length (c :: b)) (c :: b) lx false)
      as (k & lx0 & Hk & Heq & Hi0 & Hd0 & Hts0); try done;
      [by rewrite app_nil_r | by right|].
    exists lx0. unfold scan_body, remaining.
    replace (2 * (length (input lx) - pos lx) + 2)%nat
      with (k + S (2 * (length (input lx) - pos lx) + 1 - k))%nat by lia.
    rewrite Heq.
    destruct (Heof (2 * (length (input lx) - pos lx) + 1 - k)%nat lx0 true Hd0)
      as [-> Hle].
    split_and!; try done. by rewrite <- Hi0.
Qed.

(** X12. The literal text of a body.  Let the input at the cursor be [body],
    a newline and [rest], where [rest] starts with a closing line, no
    earlier newline of [body] is followed by one, and [body] is not empty
    and holds neither NUL nor backslash, nor, outside a nowdoc, opening
    brace or dollar sign.  Then, while [did_end] is not set, [scan_body]
    emits HEREDOC_BODY, ends the token at the newline before the closing
    line, and sets [did_start] and [did_end].  A body may only start with a
    newline when [did_start] is set. *)
Theorem heredoc_body_ends_before_closing_line s lx body rest :
  Forall (fun b => is_delimiter_byte b = true) (string_bytes (delimiter s)) ->
  did_end s = false ->
  body <> [] ->
  did_start s = true \/ head body <> Some Chr.NL ->
  Forall (fun c => literal_body_char (is_nowdoc s) c = true) body ->
  no_closing_line_inside (string_bytes (delimiter s)) body (Chr.NL :: rest) ->
  closing_line (string_bytes (delimiter s)) rest ->
  drop (pos lx) (input lx) = body ++ Chr.NL :: rest ->
  exists lx',
    scan_body s lx = Some (true, set_flags s true true, lx')
    /\ result_symbol lx' = HEREDOC_BODY
    /\ token_start lx' = token_start lx
    /\ token_end lx' = Some (pos lx + length body)%nat.
Proof. apply scan_body_text. Qed.

(** X21. An unterminated heredoc.  When the input from the cursor to its end
    is literal text, with neither NUL nor backslash, nor, outside a nowdoc,
    opening brace or dollar sign, and no newline of it is followed by a
    closing line, then, while [did_end] is not set, [scan_body] reads it to
    the end and returns false, with the state as it was: no token is
    emitted.  A text may only start with a newline when [did_start] is
    set. *)
Theorem unterminated_body_fails s lx body :
  Forall (fun b => is_delimiter_byte b = true) (string_bytes (delimiter s)) ->
  did_end s = false ->
  did_start s = true \/ head body <> Some Chr.NL ->
  Forall (fun c => literal_body_char (is_nowdoc s) c = true) body ->
  no_closing_line_inside (string_bytes (delimiter s)) body [] ->
  drop (pos lx) (input lx) = body ->
  exists lx',
    scan_body s lx = Some (false, s, lx')
    /\ input lx' = input lx /\ (length (input lx) <= pos lx')%nat.
Proof. apply scan_body_unterminated. Qed.
End ScanBodyMore.

(** Witness for [nowdoc_is_inert]: the nowdoc body [a$b] before the closing
    line [EOF]; the token ends at the newline in place 3. *)
Lemma nowdoc_is_inert_witness :
  HEREDOC_BODY <> EMBEDDED_OPENING_BRACE
  /\ (HEREDOC_BODY = HEREDOC_BODY ->
      set_flags sample_nowdoc_scanner true true
      = set_flags sample_nowdoc_scanner true true
      /\ exists j,
           Some 3%nat = Some j
           /\ (0 <= j < length [97; 36; 98; 10; 69; 79; 70; 10])%nat
           /\ closing_line (string_bytes (delimiter sample_nowdoc_scanner))
                (drop (S j) [97; 36; 98; 10; 69; 79; 70; 10])
           /\ (did_end sample_nowdoc_scanner = false ->
               [97; 36; 98; 10; 69; 79; 70; 10] !! j = Some Chr.NL))
  /\ (HEREDOC_BODY <> HEREDOC_END ->
      is_nowdoc (set_flags sample_nowdoc_scanner true true) = true).
Proof.
  apply (nowdoc_is_inert sample_nowdoc_scanner
           (lexer_at [97; 36; 98; 10; 69; 79; 70; 10] 0)
           (set_flags sample_nowdoc_scanner true true)
           {| input := [97; 36; 98; 10; 69; 79; 70; 10]; pos := 7;
              token_start := 0; token_end := Some 3%nat;
              result_symbol := HEREDOC_BODY |}).
  - reflexivity.
  - vm_compute. reflexivity.
Defined.

(** * The backslash rule, through whole scans *)

Section BackslashScans.
Implicit Types (s : Scanner) (lx : TSLexer) (da : bool).

(** With [did_advance] set, the loop reads a literal text up to the first
    closing line and returns HEREDOC_BODY, which ends at the newline before
    that line. *)
Lemma scan_body_loop_to_closing s lx body rest n :
  Forall (fun b => is_delimiter_byte b = true) (string_bytes (delimiter s)) ->
  did_end s = false ->
  Forall (fun c => literal_body_char (is_nowdoc s) c = true) body ->
  no_closing_line_inside (string_bytes (delimiter s)) body (Chr.NL :: rest) ->
  closing_line (string_bytes (delimiter s)) rest ->
  drop (pos lx) (input lx) = body ++ Chr.NL :: rest ->
  (length body < n)%nat ->
  exists lx',
    scan_body_loop n s lx true = Some (true, set_flags s true true, lx')
    /\ result_symbol lx' = HEREDOC_BODY
    /\ token_end lx' = Some (pos lx + length body)%nat.
Proof.
  intros Hb He Hlit Hno Hc Hd Hn.
  assert (length (drop (pos lx) (input lx))
          = length (body ++ Chr.NL :: rest)) as Hl by (by rewrite Hd).
  rewrite length_drop, length_app in Hl. simpl in Hl.
  destruct body as [|c b].
  - destruct (scan_body_iteration_closing s lx rest He Hc Hd)
      as (lx' & Hit & Hr & Hte & _).
    exists lx'. destruct n as [|n]; [simpl in Hn; lia|].
    rewrite scan_body_loop_S, Hit. split_and!; try done.
    rewrite Hte. f_equal. simpl. lia.
  - destruct (scan_body_loop_text s (Chr.NL :: rest) Hb He (or_intror eq_refl)
                (length (c :: b)) (c :: b) lx true)
      as (k & lx0 & Hk & Heq & Hi0 & Hd0 & _); try done; [by left|].
    assert (length (drop (pos lx0) (input lx0)) = length (Chr.NL :: rest))
      as Hl0 by (by rewrite Hd0).
    rewrite length_drop, Hi0 in Hl0. simpl in Hl0.
    destruct (scan_body_iteration_closing s lx0 rest He Hc Hd0)
      as (lx' & Hit & Hr & Hte & _).
    exists lx'. replace n with (k + S (n - S k))%nat by lia.
    rewrite Heq, scan_body_loop_S, Hit.
    split_and!; try done. rewrite Hte. f_equal. simpl in *. lia.
Qed.

(** The cursor after an escaped character. *)
Lemma backslash_cursor lx c tail :
  drop (pos lx) (input lx) = Chr.BACKSLASH :: c :: tail ->
  input (next (next lx)) = input lx
  /\ pos (next (next lx)) = (pos lx + 2)%nat
  /\ drop (pos (next (next lx))) (input (next (next lx))) = tail
  /\ token_end (next (next lx)) = token_end lx
  /\ (length tail + 2 = remaining lx)%nat.
Proof.
  intros Hd.
  assert (length (drop (pos lx) (input lx))
          = length (Chr.BACKSLASH :: c :: tail)) as Hl by (by rewrite Hd).
  rewrite length_drop in Hl. simpl in Hl.
  apply drop_pos_cons in Hd as (_ & Hlt & Hd). specialize (Hd false).
  change (advance lx false) with (next lx) in Hd.
  assert (input (next lx) = input lx) as Hi by apply input_advance.
  assert (pos (next lx) = S (pos lx)) as Hp by (by apply pos_advance).
  apply drop_pos_cons in Hd as (_ & Hlt' & Hd). specialize (Hd false).
  change (advance (next lx) false) with (next (next lx)) in Hd.
  assert (input (next (next lx)) = input lx) as Hi2
    by (unfold next at 1; by rewrite input_advance).
  assert (pos (next (next lx)) = (pos lx + 2)%nat) as Hp2
    by (unfold next at 1; rewrite pos_advance by done; lia).
  assert (token_end (next (next lx)) = token_end lx) as Ht2
    by (unfold next; by rewrite !token_end_advance).
  split_and!; try done. unfold remaining. lia.
Qed.

(** C8. When the current character of [scan_body] is a backslash, the turn
    of the loop advances twice and goes round again, which sets
    [did_advance], whatever [is_nowdoc] and [did_advance] are: the cursor
    is then behind the character after the backslash, which no rule has
    looked at.  Whole scans show the consequence.  Whatever the escaped
    character [c] is (a dollar sign, an opening brace, a newline), a scan
    that begins at the backslash returns HEREDOC_BODY: in a heredoc or a
    nowdoc, when a literal text and a closing line follow, the token ends
    at the newline before the closing line; in a heredoc, when plain
    characters and an interpolation follow, it ends at the dollar sign of
    that interpolation.  In both the token ends behind [c].  And no scan
    that passes a backslash succeeds with another token than HEREDOC_BODY,
    nor with a token that ends before the character after [c]. *)
Theorem backslash_skips_two s lx da :
  peek lx = Chr.BACKSLASH ->
  scan_body_iteration s lx da = Continue (next (next lx))
  /\ (forall fuel,
       scan_body_loop (S fuel) s lx da
       = scan_body_loop fuel s (next (next lx)) true)
  /\ (forall c tail,
       drop (pos lx) (input lx) = Chr.BACKSLASH :: c :: tail ->
       input (next (next lx)) = input lx
       /\ pos (next (next lx)) = (pos lx + 2)%nat
       /\ drop (pos (next (next lx))) (input lx) = tail)
  /\ (forall c body rest,
       Forall (fun b => is_delimiter_byte b = true)
         (string_bytes (delimiter s)) ->
       did_end s = false ->
       Forall (fun c => literal_body_char (is_nowdoc s) c = true) body ->
       no_closing_line_inside (string_bytes (delimiter s)) body
         (Chr.NL :: rest) ->
       closing_line (string_bytes (delimiter s)) rest ->
       drop (pos lx) (input lx)
       = Chr.BACKSLASH :: c :: body ++ Chr.NL :: rest ->
       exists lx',
         scan_body s lx = Some (true, set_flags s true true, lx')
         /\ result_symbol lx' = HEREDOC_BODY
         /\ token_end lx' = Some (pos lx + 2 + length body)%nat)
  /\ (forall c body x tail,
       is_nowdoc s = false -> did_end s = false ->
       Forall (fun c => plain_body_char c = true) body ->
       is_identifier_start_char x = true ->
       drop (pos lx) (input lx)
       = Chr.BACKSLASH :: c :: body ++ Chr.DOLLAR :: x :: tail ->
       exists lx',
         scan_body s lx = Some (true, s, lx')
         /\ result_symbol lx' = HEREDOC_BODY
         /\ token_end lx' = Some (pos lx + 2 + length body)%nat)
  /\ (forall fuel s' lx',
       scan_body_loop (S fuel) s lx da = Some (true, s', lx') ->
       result_symbol lx' = HEREDOC_BODY
       /\ exists m, token_end lx' = Some m /\ (pos lx + 2 <= m)%nat).
Proof.
  intros Hb.
  pose proof (scan_body_iteration_backslash s lx da Hb) as Hit.
  assert (forall fuel da,
            scan_body_loop (S fuel) s lx da
            = scan_body_loop fuel s (next (next lx)) true) as Heq
    by (intros fuel da'; by rewrite scan_body_loop_S,
          scan_body_iteration_backslash).
  split_and!; try done.
  - intros c tail Hd.
    destruct (backslash_cursor lx c tail Hd) as (Hi & Hp & Hd2 & _).
    by rewrite Hi in Hd2.
  - intros c body rest Hdb He Hlit Hno Hc Hd.
    destruct (backslash_cursor lx c _ Hd) as (Hi & Hp & Hd2 & _ & Hrem).
    rewrite length_app in Hrem. simpl in Hrem.
    destruct (scan_body_loop_to_closing s (next (next lx)) body rest
                (2 * remaining lx + 1) Hdb He Hlit Hno Hc Hd2)
      as (lx' & H & Hr & Hte); [lia|].
    exists lx'. unfold scan_body.
    replace (2 * remaining lx + 2)%nat with (S (2 * remaining lx + 1)) by lia.
    rewrite Heq, H. split_and!; try done. rewrite Hte, Hp. f_equal.
  - intros c body x tail Hn He Hpl Hx Hd.
    destruct (backslash_cursor lx c _ Hd) as (Hi & Hp & Hd2 & Ht & Hrem).
    rewrite length_app in Hrem. simpl in Hrem.
    unfold scan_body.
    replace (2 * remaining lx + 2)%nat with (S (2 * remaining lx + 1)) by lia.
    rewrite Heq.
    replace (2 * remaining lx + 1)%nat
      with (length body + S (2 * remaining lx - length body))%nat by lia.
    destruct (scan_body_loop_plain s body
                (S (2 * remaining lx - length body))
                (next (next lx)) true _ He Hpl Hd2)
      as (lx0 & -> & Hi0 & Hp0 & Ht0).
    assert (drop (pos lx0) (input lx0) = Chr.DOLLAR :: x :: tail) as Hd0.
    { rewrite Hi0, Hp0, <- drop_drop, Hd2. by rewrite drop_app_length. }
    apply drop_pos_cons in Hd0 as (Hpk & Hlt & Hd0).
    specialize (Hd0 false). apply drop_pos_cons in Hd0 as (Hpk2 & _).
    eexists. rewrite scan_body_loop_S, scan_body_iteration_dollar;
      [| done | done | by unfold peek, next; rewrite Hpk2].
    rewrite orb_true_l.
    split; [done|]. split; [done|]. unfold next. simpl.
    rewrite token_end_advance. simpl. by rewrite Hp0, Hp.
  - intros fuel s' lx'. rewrite Heq. intros H.
    assert (pos (next lx) = S (pos lx)) as Hp1.
    { apply pos_advance, lookahead_nonzero. fold (peek lx). by rewrite Hb. }
    destruct (Nat.lt_ge_cases (pos (next lx)) (length (input (next lx))))
      as [Hlt|Hge].
    + apply scan_body_loop_advanced in H as (Hr & m & Hm & Hle).
      split; [done|]. exists m. split; [done|].
      unfold next in Hle at 1. rewrite pos_advance in Hle by done. lia.
    + (* the backslash is the last character: the scan fails *)
      exfalso. unfold next in H at 1. rewrite advance_eof in H by done.
      destruct fuel as [|fuel]; [done|].
      rewrite scan_body_loop_S, scan_body_iteration_eof in H; [done|].
      by apply lookahead_eof.
Qed.
End BackslashScans.

(** Witness for [backslash_skips_two]: in the nowdoc with the delimiter
    [EOF], the scan of the body [\] newline [EOF] newline [$] before the
    closing line returns HEREDOC_BODY, which ends at the newline before the
    closing line: the escaped newline has not begun a closing line.  In the
    heredoc with the same delimiter, the scan of [\$x$y] returns
    HEREDOC_BODY, which ends at the second dollar sign. *)
Lemma backslash_skips_two_witness :
  (exists lx',
     scan_body sample_nowdoc_scanner
       (lexer_at [92; 10; 69; 79; 70; 10; 36; 10; 69; 79; 70; 10] 0)
     = Some (true, set_flags sample_nowdoc_scanner true true, lx')
     /\ result_symbol lx' = HEREDOC_BODY
     /\ token_end lx' = Some (0 + 2 + length [69; 79; 70; 10; 36])%nat)
  /\ (exists lx',
        scan_body sample_scanner (lexer_at [92; 36; 120; 36; 121; 10] 0)
        = Some (true, sample_scanner, lx')
        /\ result_symbol lx' = HEREDOC_BODY
        /\ token_end lx' = Some (0 + 2 + length [120])%nat).
Proof.
  split.
  - apply (proj1 (proj2 (proj2 (proj2
             (backslash_skips_two sample_nowdoc_scanner
                (lexer_at [92; 10; 69; 79; 70; 10; 36; 10; 69; 79; 70; 10] 0)
                false eq_refl))))
             10 [69; 79; 70; 10; 36] [69; 79; 70; 10]).
    + by repeat constructor.
    + reflexivity.
    + by repeat constructor.
    + intros pre post Hpre (after & Hafter & t & Ht).
      repeat (destruct pre as [|? pre]; simplify_eq/=);
        by destruct Ht.
    + exists [10]. split; [done|]. exists []. by left.
    + reflexivity.
  - apply (proj1 (proj2 (proj2 (proj2 (proj2
             (backslash_skips_two sample_scanner
                (lexer_at [92; 36; 120; 36; 121; 10] 0)
                false eq_refl)))))
             36 [120] 121 [10]).
    + reflexivity.
    + reflexivity.
    + by repeat constructor.
    + reflexivity.
    + reflexivity.
Defined.

(** Witness for [heredoc_end_iff]: the closing line [EOF;] after the newline
    under the cursor. *)
Lemma heredoc_end_iff_witness :
  (exists s' lx',
     scan_body (set_flags sample_scanner true true)
       (lexer_at [10; 69; 79; 70; 59; 10] 0) = Some (true, s', lx')
     /\ result_symbol lx' = HEREDOC_END)
  <-> did_end (set_flags sample_scanner true true) = true
      /\ closing_line
           (string_bytes (delimiter (set_flags sample_scanner true true)))
           (after_newline (lexer_at [10; 69; 79; 70; 59; 10] 0)).
Proof.
  apply (heredoc_end_iff (set_flags sample_scanner true true)
           (lexer_at [10; 69; 79; 70; 59; 10] 0)).
  - vm_compute. repeat constructor.
  - vm_compute. discriminate.
Defined.

(** Witness for [heredoc_end_newline_iff], on the same input with [did_end]
    not set. *)
Lemma heredoc_end_newline_iff_witness :
  ((exists s' lx',
      scan_body sample_scanner (lexer_at [10; 69; 79; 70; 59; 10] 0)
      = Some (true, s', lx')
      /\ result_symbol lx' = HEREDOC_END_NEWLINE)
   <-> did_end sample_scanner = false
       /\ peek (lexer_at [10; 69; 79; 70; 59; 10] 0) = Chr.NL
       /\ closing_line (string_bytes (delimiter sample_scanner))
            (drop 1 (input (lexer_at [10; 69; 79; 70; 59; 10] 0))))
  /\ (forall s' lx',
       scan_body sample_scanner (lexer_at [10; 69; 79; 70; 59; 10] 0)
       = Some (true, s', lx') ->
       result_symbol lx' = HEREDOC_END_NEWLINE ->
       s' = set_flags sample_scanner true true
       /\ token_start lx'
          = token_start (lexer_at [10; 69; 79; 70; 59; 10] 0)
       /\ token_end lx' = Some 1%nat).
Proof.
  apply (heredoc_end_newline_iff sample_scanner
           (lexer_at [10; 69; 79; 70; 59; 10] 0)).
  vm_compute. repeat constructor; discriminate.
Defined.

(** Witness for [heredoc_start_newline_iff]: a newline before the body
    line [x]. *)
Lemma heredoc_start_newline_iff_witness :
  ((exists s' lx',
      scan_body sample_scanner
        (lexer_at [10; 120; 10; 69; 79; 70; 59; 10] 0) = Some (true, s', lx')
      /\ result_symbol lx' = HEREDOC_START_NEWLINE)
   <-> did_start sample_scanner = false
       /\ peek (lexer_at [10; 120; 10; 69; 79; 70; 59; 10] 0) = Chr.NL
       /\ ~ (exists rest,
               drop 1 (input (lexer_at [10; 120; 10; 69; 79; 70; 59; 10] 0))
               = string_bytes (delimiter sample_scanner) ++ rest))
  /\ (forall s' lx',
       scan_body sample_scanner
         (lexer_at [10; 120; 10; 69; 79; 70; 59; 10] 0)
       = Some (true, s', lx') ->
       result_symbol lx' = HEREDOC_START_NEWLINE ->
       s' = set_flags sample_scanner true false
       /\ token_end lx' = Some 1%nat).
Proof.
  apply (heredoc_start_newline_iff sample_scanner
           (lexer_at [10; 120; 10; 69; 79; 70; 59; 10] 0)).
  - vm_compute. repeat constructor; discriminate.
  - reflexivity.
Defined.

(** Witness for [heredoc_body_ends_before_closing_line]: the body of the
    three lines [a], [EO] and [b] before the closing line [EOF;]. *)
Lemma heredoc_body_ends_before_closing_line_witness :
  exists lx',
    scan_body (set_flags sample_scanner true false)
      (lexer_at [97; 10; 69; 79; 10; 98; 10; 69; 79; 70; 59; 10] 0)
    = Some (true, set_flags (set_flags sample_scanner true false) true true,
            lx')
    /\ result_symbol lx' = HEREDOC_BODY
    /\ token_start lx' = 0%nat
    /\ token_end lx' = Some 6%nat.
Proof.
  apply (heredoc_body_ends_before_closing_line
           (set_flags sample_scanner true false)
           (lexer_at [97; 10; 69; 79; 10; 98; 10; 69; 79; 70; 59; 10] 0)
           [97; 10; 69; 79; 10; 98] [69; 79; 70; 59; 10]).
  - vm_compute. repeat constructor.
  - reflexivity.
  - discriminate.
  - left. reflexivity.
  - vm_compute. repeat constructor.
  - intros pre post H (after & Hp & _). vm_compute in Hp.
    do 7 (destruct pre as [|? pre]; simplify_eq/=).
  - exists [59; 10]. split; [reflexivity|]. exists []. right. reflexivity.
  - reflexivity.
Defined.

(** * Further properties of [scan_start] *)

Section ScanStartMore.
Context {P : Platform}.
Implicit Types (s : Scanner) (lx : TSLexer).

(** The end of a successful [scan_start]: at the newline that ends the
    opener, it looks for the closing line of the new delimiter. *)
Lemma scan_start_tail s lx s' lx' :
  scan_start s lx = Some (true, s', lx') ->
  exists lx4 m t,
    peek lx4 = Chr.NL
    /\ scan_delimiter s' (next (stop (set HEREDOC_START lx4))) = (m, t)
    /\ lx' = (if m then if peek t =? Chr.SEMI then next t else t else t)
    /\ did_end s' = did_end s || (m && (peek lx' =? Chr.NL))
    /\ did_start s' = did_start s.
Proof.
  unfold scan_start. intros H.
  destruct (skip_whitespace (S (remaining lx)) lx) as [lx1|]; [|done].
  destruct (if (peek lx1 =? Chr.SQUOTE) || (peek lx1 =? Chr.DQUOTE)
            then (peek lx1, next lx1) else (0, lx1)) as [quote lx2].
  destruct (if iswalpha (peek lx2) || (peek lx2 =? Chr.UNDERSCORE)
            then _ else _) as [[d lx3]|]; [|done].
  destruct (negb (peek lx3 =? quote) && negb (quote =? 0)); [done|].
  set (lx4 := if peek lx3 =? quote then next lx3 else lx3) in *.
  destruct (negb (peek lx4 =? Chr.NL) || (len d =? 0)) eqn:E; [done|].
  apply orb_false_iff in E as [E _]. apply negb_false_iff, Z.eqb_eq in E.
  cbv zeta in H. unfold scan_delimiter in *. cbn [delimiter] in H.
  exists lx4.
  destruct (scan_delimiter_loop (string_bytes d)
              (next (stop (set HEREDOC_START lx4)))) as [m t] eqn:Hdel.
  exists m, t. split; [done|].
  destruct m.
  - destruct (peek (if peek t =? Chr.SEMI then next t else t) =? Chr.NL)
      eqn:Hnl; injection H as <- <-; cbn [delimiter did_end did_start set_flags];
      rewrite Hdel, Hnl, ?orb_true_r, ?orb_false_r; done.
  - injection H as <- <-. cbn [delimiter did_end did_start].
    by rewrite Hdel, orb_false_r.
Qed.

(** X13. A successful [scan_start] keeps [did_start], and it sets [did_end]
    exactly when the closing line of the new delimiter comes right after the
    newline that ends the opener, as in an empty heredoc; it does not clear
    [did_end].  The delimiter is taken without NUL bytes. *)
Theorem heredoc_start_sets_did_end s lx s' lx' :
  scan_start s lx = Some (true, s', lx') ->
  Forall (fun b => b <> 0) (string_bytes (delimiter s')) ->
  did_start s' = did_start s
  /\ exists m,
       token_end lx' = Some m
       /\ (did_end s' = true
           <-> did_end s = true
               \/ closing_line (string_bytes (delimiter s'))
                    (drop (S m) (input lx))).
Proof.
  intros H Hnz. pose proof (scan_start_mark _ _ _ _ H) as (_ & Hi & _).
  apply scan_start_tail in H as (lx4 & m & t & Hp4 & Hdel & Hlx' & He & Hs).
  split; [done|]. exists (pos lx4).
  set (lx0 := next (stop (set HEREDOC_START lx4))) in *.
  assert (pos lx4 < length (input lx4))%nat as Hlt
    by (apply lookahead_nonzero; fold (peek lx4); by rewrite Hp4).
  assert (input lx0 = input lx4 /\ pos lx0 = S (pos lx4)
          /\ token_end lx0 = Some (pos lx4)) as (Hi0 & Hp0 & Hte0).
  { subst lx0. unfold next, stop.
    rewrite input_advance, token_end_advance, pos_advance by done. done. }
  pose proof (scan_delimiter_frame _ _ _ _ Hdel) as ([Hit _] & Hte & _).
  assert (input lx' = input t /\ token_end lx' = token_end t) as [Hi' Hte'].
  { rewrite Hlx'. destruct m; [|done].
    destruct (peek t =? Chr.SEMI); [|done].
    unfold next. by rewrite input_advance, token_end_advance. }
  split; [congruence|].
  assert (drop (S (pos lx4)) (input lx) = drop (pos lx0) (input lx0)) as ->
    by (rewrite Hp0; congruence).
  rewrite He. split.
  - intros [?|[Hm Hnl]%andb_true_iff]%orb_true_iff; [by left|right].
    subst m. rewrite Hlx' in Hnl. apply Z.eqb_eq in Hnl.
    by eapply scan_delimiter_closing_inv.
  - intros [->|Hc]; [done|]. apply orb_true_iff. right.
    destruct (scan_delimiter_closing _ _ Hc) as (t' & Hdel' & Hnl & _).
    rewrite Hdel in Hdel'. injection Hdel' as -> ->.
    rewrite Hlx'. by rewrite Hnl.
Qed.
End ScanStartMore.

(** * The states and the runs of the host *)

Section Runs.
Context {P : Platform}.
Implicit Types (s : Scanner) (lx : TSLexer).

Lemma reachable_closed_flags s :
  reachable s -> len (delimiter s) = 0 ->
  is_nowdoc s = false /\ did_start s = false /\ did_end s = false.
Proof.
  induction 1 as [|s lx e s' lx' Hr IH Hlen Hscan
                  |s s0 buffer n out s' Hr IH Hwf0 Hlen Hser Hde
                  |s0 buffer s' Hwf0 Hde].
  - done.
  - intros Hl. apply scan_success in Hscan as [[Hopen [da Ho]]|[_ Hopen]];
      [|lia].
    inversion Ho; subst; simpl in Hl; try lia; done.
  - destruct (Z.eq_dec n 0) as [->|Hn].
    { rewrite deserialize_zero in Hde. by injection Hde as <-. }
    apply reachable_wf in Hr.
    destruct (deserialize_serialize s s0 buffer n out)
      as (s1 & Hs1 & Ho & _); try done.
    rewrite Hs1 in Hde. injection Hde as <-.
    unfold observe in Ho. injection Ho as -> -> -> -> _. done.
  - rewrite deserialize_zero in Hde. by injection Hde as <-.
Qed.

(** X14. Outside a heredoc the state is the initial one: a reachable state
    whose delimiter is empty has no flag set, and cannot be told from the
    created scanner. *)
Theorem closed_state_is_initial s :
  reachable s -> len (delimiter s) = 0 -> observe s = observe create.
Proof.
  intros Hr Hl. destruct (reachable_closed_flags s Hr Hl) as (Hn & Hs & He).
  unfold observe, string_bytes. by rewrite Hn, Hs, He, Hl.
Qed.

Lemma drive_start_newline_once s inp p steps seen :
  (seen = true -> did_start s = true) ->
  start_newline_once seen (map fst (drive s inp p steps)) = true.
Proof.
  revert s p seen.
  induction steps as [|[gap expected] steps IH]; intros s p seen Hseen;
    [done|]. simpl.
  destruct (scan s (lexer_at inp (p + gap)) expected)
    as [[[[] s'] lx']|] eqn:E; [| by apply IH | done].
  simpl. unfold scan in E.
  destruct ((expected HEREDOC_BODY || expected HEREDOC_END
             || expected EMBEDDED_OPENING_BRACE)
            && (0 <? len (delimiter s))).
  - apply scan_body_loop_outcome in E as (da & _ & Ho).
    inversion Ho; subst;
      repeat match goal with H : _ = result_symbol _ |- _ => rewrite <- H end;
      simpl; try (by apply IH).
    destruct seen; [by rewrite Hseen in *|]. by apply IH.
  - destruct (expected HEREDOC_START); [|done].
    pose proof (scan_start_mark _ _ _ _ E) as (-> & _).
    apply scan_start_tail in E as (_ & _ & _ & _ & _ & _ & _ & Hs).
    simpl. apply IH. by rewrite Hs.
Qed.

(** X15. In every run of the host from the created scanner, whatever the
    input and the tokens expected, HEREDOC_START_NEWLINE is emitted at most
    once between two HEREDOC_ENDs, and never after a HEREDOC_END_NEWLINE
    that no HEREDOC_END has followed. *)
Theorem heredoc_start_newline_once inp p steps :
  start_newline_once false (map fst (drive create inp p steps)) = true.
Proof. by apply drive_start_newline_once. Qed.

Lemma scan_in_body s lx e :
  expects_body e = true -> 0 < len (delimiter s) ->
  scan s lx e = scan_body s lx.
Proof.
  unfold expects_body, scan. intros -> Hl.
  by rewrite (proj2 (Z.ltb_lt _ _) Hl).
Qed.

Lemma token_end_position_Some lx m :
  token_end lx = Some m -> token_end_position lx = m.
Proof. unfold token_end_position. by intros ->. Qed.

Lemma drop_cons_inv (l : list Z) n c r :
  drop n l = c :: r -> l !! n = Some c /\ drop (S n) l = r.
Proof.
  intros H.
  assert (l !! n = Some c) as Hl.
  { rewrite <- (Nat.add_0_r n), <- lookup_drop. by rewrite H. }
  split; [done|]. rewrite (drop_S _ _ _ Hl) in H. by injection H.
Qed.

(** X16. The tokens of a heredoc, one scan after the other.  The scanner is
    inside a heredoc whose delimiter holds ASCII letters, digits and
    underscores, with neither [did_start] nor [did_end] set, and the host
    stands on the newline that ends the opener.  What follows is a body of
    literal text that does not start with the delimiter, a newline, and the
    first closing line.  Then three scans, each started where the token of
    the one before ended, emit HEREDOC_START_NEWLINE, HEREDOC_BODY and
    HEREDOC_END, and leave the state closed. *)
Theorem heredoc_tokens_in_order s inp p body rest e1 e2 e3 :
  Forall (fun b => is_delimiter_byte b = true) (string_bytes (delimiter s)) ->
  0 < len (delimiter s) ->
  did_start s = false -> did_end s = false ->
  expects_body e1 = true -> expects_body e2 = true ->
  expects_body e3 = true ->
  body <> [] ->
  Forall (fun c => literal_body_char (is_nowdoc s) c = true) body ->
  ~ (exists tl,
       body ++ Chr.NL :: rest = string_bytes (delimiter s) ++ tl) ->
  no_closing_line_inside (string_bytes (delimiter s)) body (Chr.NL :: rest) ->
  closing_line (string_bytes (delimiter s)) rest ->
  drop p inp = Chr.NL :: body ++ Chr.NL :: rest ->
  drive s inp p [(0%nat, e1); (0%nat, e2); (0%nat, e3)]
  = [(HEREDOC_START_NEWLINE, set_flags s true false);
     (HEREDOC_BODY, set_flags s true true);
     (HEREDOC_END, close_heredoc s)].
Proof.
  intros Hb Hlen Hs He He1 He2 He3 Hne Hlit Hpre Hno Hc Hd.
  pose proof (delimiter_bytes_nonzero _ Hb) as Hnz.
  apply drop_cons_inv in Hd as [Hnl Hd].
  assert (drop (S p + length body) inp = Chr.NL :: rest) as Hd3.
  { rewrite <- drop_drop, Hd. by rewrite drop_app_length. }
  apply drop_cons_inv in Hd3 as [Hnl3 Hd3].
  (* HEREDOC_START_NEWLINE *)
  cbn [drive]. rewrite Nat.add_0_r, scan_in_body by done.
  destruct (scan_body_start_newline s (lexer_at inp p))
    as (lx1 & -> & -> & Hte1); try done.
  { unfold peek, lookahead. simpl. by rewrite Hnl. }
  { simpl. by rewrite Hd. }
  cbn [pos lexer_at] in Hte1. rewrite !(token_end_position_Some _ _ Hte1).
  (* HEREDOC_BODY *)
  rewrite Nat.add_0_r, scan_in_body by done.
  destruct (scan_body_text (set_flags s true false) (lexer_at inp (S p))
              body rest) as (lx2 & H2 & Hr2 & _ & Hte2); try done; [by left|].
  rewrite H2, Hr2.
  cbn [pos lexer_at] in Hte2. rewrite !(token_end_position_Some _ _ Hte2).
  change (set_flags (set_flags s true false) true true)
    with (set_flags s true true).
  (* HEREDOC_END *)
  rewrite Nat.add_0_r, scan_in_body by done.
  destruct (scan_body_end (set_flags s true true)
              (lexer_at inp (S p + length body)))
    as (lx3 & -> & ->); try done.
  { unfold peek, lookahead. cbn [input pos lexer_at]. rewrite Hnl3.
    by destruct s as [? []]. }
  { unfold after_newline, peek, lookahead. cbn [input pos lexer_at].
    rewrite Hnl3. cbn [default]. change (Chr.NL =? Chr.NL) with true.
    cbv iota. by rewrite Hd3. }
Qed.
End Runs.

(** * HEREDOC_END and the closing line *)

Section EndDiscipline.
Context {P : Platform}.
Implicit Types (s : Scanner) (lx : TSLexer).

Lemma strip_prefix_spec bytes rest after :
  strip_prefix bytes rest = Some after <-> rest = bytes ++ after.
Proof.
  revert rest. induction bytes as [|b bytes IH]; intros rest; simpl.
  - split; [by intros [= ->] | by intros ->].
  - destruct rest as [|c rest]; [done|].
    destruct (Z.eqb_spec b c) as [->|Hne].
    + rewrite IH. split; [by intros -> | by intros [= ->]].
    + split; [done | by intros [= -> _]].
Qed.

Lemma closing_tailb_spec rest :
  closing_tailb rest = true <-> closing_tail rest.
Proof.
  unfold closing_tail, closing_tailb. split.
  - destruct rest as [|c rest]; [done|].
    intros [Hc|[Hc H]%andb_true_iff]%orb_true_iff; apply Z.eqb_eq in Hc as ->.
    + exists rest. by left.
    + destruct rest as [|c' rest]; [done|]. apply Z.eqb_eq in H as ->.
      exists rest. by right.
  - by intros (tail & [-> | ->]).
Qed.

Lemma closing_lineb_spec bytes rest :
  closing_lineb bytes rest = true <-> closing_line bytes rest.
Proof.
  unfold closing_lineb, closing_line. split.
  - destruct (strip_prefix bytes rest) as [after|] eqn:E; [|done].
    intros H. exists after.
    split; [by apply strip_prefix_spec | by apply closing_tailb_spec].
  - intros (after & Hr%strip_prefix_spec & Ht%closing_tailb_spec).
    by rewrite Hr.
Qed.

Lemma closing_line_after_spec bytes inp j :
  closing_line_after bytes inp j = true
  <-> inp !! j = Some Chr.NL /\ closing_line bytes (drop (S j) inp).
Proof.
  unfold closing_line_after. rewrite <- closing_lineb_spec.
  destruct (inp !! j) as [c|]; [|by split; [|intros [? _]]].
  rewrite andb_true_iff, Z.eqb_eq.
  split; [by intros [-> ?] | by intros [[= ->] ?]].
Qed.

(** [scan_start] sets [did_end] only when the newline that ends the opener
    is followed by a closing line of the new delimiter. *)
Lemma scan_start_reads_closing_line s lx s' lx' :
  scan_start s lx = Some (true, s', lx') ->
  did_end s = false -> did_end s' = true ->
  arms (lx', s') = true.
Proof.
  intros H He He'.
  pose proof (scan_start_mark _ _ _ _ H) as (Hsym & _).
  apply scan_start_tail in H as (lx4 & m & t & Hnl & Hdel & Hlx' & Hde & _).
  rewrite He, He' in Hde. symmetry in Hde. simpl in Hde.
  apply andb_true_iff in Hde as [-> Hp]. apply Z.eqb_eq in Hp.
  rewrite Hlx' in Hp.
  assert (peek lx4 <> 0) as [Hlt Hlk]%lookahead_nonzero by (by rewrite Hnl).
  fold (peek lx4) in Hlk. rewrite Hnl in Hlk.
  pose proof (scan_delimiter_frame _ _ _ _ Hdel) as ([Hi _] & Hte & _).
  pose proof (scan_delimiter_read _ _ _ Hdel Hp) as Hc.
  unfold next in Hc at 1 2. rewrite input_advance, pos_advance in Hc by done.
  unfold next in Hi at 1. rewrite input_advance in Hi.
  unfold next in Hte at 1. rewrite token_end_advance in Hte.
  cbn [stop mark_end set input pos token_end] in Hc, Hi, Hte.
  assert (input lx' = input lx4 /\ token_end lx' = Some (pos lx4))
    as [Hi' Hte'].
  { rewrite Hlx'. destruct (peek t =? Chr.SEMI); unfold next;
      by rewrite ?input_advance, ?token_end_advance. }
  unfold arms. cbn [fst snd]. rewrite Hsym, (token_end_position_Some _ _ Hte').
  apply closing_line_after_spec. by rewrite Hi'.
Qed.

(** [scan_body] sets [did_end] only when it has read a closing line behind
    a newline: the newline where HEREDOC_BODY ends, or the newline that
    HEREDOC_END_NEWLINE covers. *)
Lemma scan_body_reads_closing_line s lx s' lx' :
  scan_body s lx = Some (true, s', lx') ->
  did_end s = false -> did_end s' = true ->
  arms (lx', s') = true.
Proof.
  intros H He He'.
  assert (result_symbol lx' = HEREDOC_BODY \/ result_symbol lx' <> HEREDOC_BODY)
    as [Hr|Hr] by (destruct (result_symbol lx'); (by left) || (by right)).
  - apply scan_body_loop_body_close in H
      as (-> & Hi & j & Hte & _ & Hc & Hnl); [|done|right; congruence].
    unfold arms. cbn [fst snd]. rewrite Hr, (token_end_position_Some _ _ Hte).
    apply closing_line_after_spec. rewrite Hi. by split; [apply Hnl|].
  - pose proof (scan_body_first_turn _ _ _ _ H Hr) as Hit.
    pose proof (scan_body_iteration_outcome _ _ _ _ _ Hit) as Ho.
    inversion Ho; subst; try congruence; try (simpl in He'; congruence).
    assert (result_symbol lx' = HEREDOC_END_NEWLINE) as Hsym by done.
    apply scan_body_iteration_end_newline in Hit
      as (_ & _ & Hnl & _ & t & Hdel & Hlx' & Hp); [|done].
    assert (peek lx <> 0) as [Hlt Hlk]%lookahead_nonzero by (by rewrite Hnl).
    fold (peek lx) in Hlk. rewrite Hnl in Hlk.
    pose proof (scan_delimiter_frame _ _ _ _ Hdel) as ([Hi _] & Hte & _).
    pose proof (scan_delimiter_read _ _ _ Hdel Hp) as Hc.
    cbn [stop mark_end input pos token_end] in Hc, Hi, Hte.
    unfold next in Hc, Hi, Hte.
    rewrite input_advance in Hc, Hi. rewrite pos_advance in Hc, Hte by done.
    assert (input lx' = input lx /\ token_end lx' = Some (S (pos lx)))
      as [Hi' Hte'].
    { rewrite Hlx'. cbn [set input token_end].
      destruct (peek t =? Chr.SEMI); unfold next;
        by rewrite ?input_advance, ?token_end_advance. }
    unfold arms. cbn [fst snd].
    rewrite Hsym, (token_end_position_Some _ _ Hte').
    apply closing_line_after_spec. by rewrite Hi'.
Qed.

Lemma scan_reads_closing_line s lx e s' lx' :
  scan s lx e = Some (true, s', lx') ->
  did_end s = false -> did_end s' = true ->
  arms (lx', s') = true.
Proof.
  unfold scan.
  destruct ((e HEREDOC_BODY || e HEREDOC_END || e EMBEDDED_OPENING_BRACE)
            && (0 <? len (delimiter s))).
  - apply scan_body_reads_closing_line.
  - destruct (e HEREDOC_START); [|done]. apply scan_start_reads_closing_line.
Qed.

Lemma scan_input s lx e s' lx' :
  scan s lx e = Some (true, s', lx') -> input lx' = input lx.
Proof.
  unfold scan.
  destruct ((e HEREDOC_BODY || e HEREDOC_END || e EMBEDDED_OPENING_BRACE)
            && (0 <? len (delimiter s))).
  - by intros [? _]%scan_body_loop_le.
  - destruct (e HEREDOC_START); [|done].
    by intros (_ & ? & _)%scan_start_mark.
Qed.

(** The scans of [drive_scans] are those of [drive]. *)
Lemma drive_scans_drive s inp p steps :
  map (fun e => (result_symbol e.1, e.2)) (drive_scans s inp p steps)
  = drive s inp p steps.
Proof.
  revert s p. induction steps as [|[gap expected] steps IH]; intros s p;
    [done|]. simpl.
  destruct (scan s (lexer_at inp (p + gap)) expected)
    as [[[[] s'] lx']|]; [| apply IH | done].
  simpl. by rewrite IH.
Qed.

Lemma drive_scans_input s inp p steps :
  Forall (fun e => input e.1 = inp) (drive_scans s inp p steps).
Proof.
  revert s p. induction steps as [|[gap expected] steps IH]; intros s p;
    [constructor|]. simpl.
  destruct (scan s (lexer_at inp (p + gap)) expected)
    as [[[[] s'] lx']|] eqn:E; [| apply IH | constructor].
  constructor; [|apply IH]. by apply scan_input in E.
Qed.

(** The runs of the host keep [end_after_closing_line], from any state
    where [did_end] is set only inside a literal that is armed. *)
Lemma drive_scans_end_after_closing_line s inp p steps armed :
  (did_end s = true -> 0 < len (delimiter s) /\ armed = true) ->
  end_after_closing_line (0 <? len (delimiter s)) armed
    (drive_scans s inp p steps) = true.
Proof.
  revert s p armed.
  induction steps as [|[gap expected] steps IH]; intros s p armed Hinv;
    [done|]. simpl.
  destruct (scan s (lexer_at inp (p + gap)) expected)
    as [[[[] s'] lx']|] eqn:E; [| by apply IH | done].
  pose proof (scan_reads_closing_line _ _ _ _ _ E) as Harm.
  specialize (IH s' (token_end_position lx')).
  cbn [end_after_closing_line fst snd].
  apply scan_success in E as [[Hopen [da Ho]]|[Hsym Hopen]].
  - pose proof (proj2 (Z.ltb_lt _ _) Hopen) as Hopened. rewrite Hopened.
    inversion Ho; subst;
      repeat match goal with H : _ = result_symbol _ |- _ => rewrite <- H end;
      cbn [andb].
    + rewrite <- Hopened at 1. by apply IH.
    + rewrite <- Hopened at 1. apply IH. intros He.
      destruct (Hinv He) as [? ->]. by split.
    + rewrite <- Hopened at 1. apply IH.
      intros He. split; [done|]. destruct (did_end s) eqn:Hes.
      * by destruct (Hinv eq_refl) as [_ ->].
      * rewrite Harm by done. apply orb_true_r.
    + destruct Hinv as [_ ->]; [done|]. cbn [andb]. by apply (IH false).
    + rewrite <- Hopened at 1. apply IH.
      intros He. split; [done|]. rewrite Harm by done. apply orb_true_r.
    + rewrite <- Hopened at 1. apply IH. intros He. simpl in He.
      destruct (Hinv He) as [? ->]. by split.
  - rewrite Hsym. rewrite <- (proj2 (Z.ltb_lt _ _) Hopen) at 1.
    apply IH. intros He. split; [done|]. destruct (did_end s) eqn:Hes.
    + destruct (Hinv eq_refl) as [Ho ->].
      by rewrite (proj2 (Z.ltb_lt _ _) Ho).
    + rewrite Harm by done. apply orb_true_r.
Qed.

(** While no scan arms the literal, no HEREDOC_END is emitted. *)
Lemma end_after_closing_line_unarmed events : forall opened,
  end_after_closing_line opened false events = true ->
  Forall (fun e => arms e = false) events ->
  Forall (fun e => result_symbol e.1 <> HEREDOC_END) events.
Proof.
  induction events as [|e events IH]; intros opened H Ha; [constructor|].
  apply Forall_cons in Ha as [Ha1 Ha]. cbn [end_after_closing_line] in H.
  rewrite Ha1, andb_false_r in H. cbn [orb] in H.
  destruct (result_symbol e.1) eqn:Hr; constructor;
    rewrite ?Hr; try done; bool_hyps; try done; by eapply IH.
Qed.

(** C2, amended.  In every run of the host from the created scanner,
    whatever the input, the places of the scans and the tokens expected,
    HEREDOC_END is emitted only inside a literal opened by HEREDOC_START,
    and it closes the literal: no token of the body and no other
    HEREDOC_END follows before the next HEREDOC_START, so a literal has at
    most one HEREDOC_END.  It is emitted only when, since the previous
    HEREDOC_END, a HEREDOC_START or a HEREDOC_BODY has ended at a newline
    that a closing line follows (the delimiter, a semicolon or none, and a
    newline), or a HEREDOC_END_NEWLINE has covered such a newline.  When the
    HEREDOC_START is emitted outside a literal, as a host does that opens a
    literal only after it has closed the previous one, only the tokens of
    the same literal count; a HEREDOC_START emitted inside a literal keeps
    what the literal before it has left.  The run of [drive_scans] is the
    run of [drive], where the same is stated on the flag [did_end].  And
    HEREDOC_END is emitted when it is due: in a literal where [did_end] is
    set, a host that expects a token of the body where the closing line
    stands, or at the newline before it, gets HEREDOC_END, which closes the
    literal, and the run goes on from the closed state. *)
Theorem heredoc_end_discipline :
  (forall inp p steps,
     map (fun e => (result_symbol e.1, e.2)) (drive_scans create inp p steps)
     = drive create inp p steps
     /\ end_after_closing_line false false (drive_scans create inp p steps)
        = true
     /\ end_discipline false false (drive create inp p steps) = true)
  /\ (forall s inp p gap expected steps,
       expects_body expected = true ->
       0 < len (delimiter s) ->
       did_end s = true ->
       literal_body_char (is_nowdoc s) (peek (lexer_at inp (p + gap))) = true ->
       closing_line (string_bytes (delimiter s))
         (after_newline (lexer_at inp (p + gap))) ->
       exists lx',
         result_symbol lx' = HEREDOC_END
         /\ drive_scans s inp p ((gap, expected) :: steps)
            = (lx', close_heredoc s)
              :: drive_scans (close_heredoc s) inp (token_end_position lx')
                   steps).
Proof.
  split.
  - intros inp p steps. split; [apply drive_scans_drive|]. split.
    + by apply (drive_scans_end_after_closing_line create).
    + apply (drive_end_discipline create).
  - intros s inp p gap expected steps He Hopen Hend Hlit Hc.
    destruct (scan_body_end _ _ Hlit Hend Hc) as (lx' & Hscan & Hr).
    exists lx'. split; [done|]. cbn [drive_scans].
    by rewrite (scan_in_body _ _ _ He Hopen), Hscan.
Qed.

(** On the opener [A], a newline, and the end of the input, no run of the
    host emits HEREDOC_END: no newline of the input is followed by a
    closing line. *)
Lemma unterminated_heredoc_never_ends p steps :
  Forall (fun t => t <> HEREDOC_END)
    (map fst (drive create [65; 10] p steps)).
Proof.
  rewrite <- drive_scans_drive, map_map, Forall_map. cbn [fst].
  eapply end_after_closing_line_unarmed.
  - by apply (drive_scans_end_after_closing_line create).
  - eapply Forall_impl; [apply drive_scans_input|].
    intros e He. unfold arms. rewrite He.
    generalize (string_bytes (delimiter e.2)).
    generalize (match result_symbol e.1 with
                | HEREDOC_END_NEWLINE => pred (token_end_position e.1)
                | _ => token_end_position e.1
                end).
    intros j bytes. unfold closing_line_after.
    destruct j as [|[|j]]; [done| |done]. by destruct bytes.
Qed.
End EndDiscipline.

(** C2 as stated fails.  On [EOF], newline, [EOF;], newline, the scanner
    emits HEREDOC_START and then HEREDOC_END at once, with none of
    HEREDOC_START_NEWLINE, HEREDOC_BODY and HEREDOC_END_NEWLINE in between.
    On the opener [A], a newline and the end of the input it emits
    HEREDOC_START, and no run of the host ever gets a HEREDOC_END for that
    literal: not exactly one.  And on [A], [x], [A], [B], [y], [B], each
    before a newline, a host that asks for HEREDOC_START at [B] before it
    has asked for the HEREDOC_END of [A] gets the HEREDOC_END of [B] right
    after its HEREDOC_START, with no closing line behind the opener [B]: the
    closing line that counts is the one read by the HEREDOC_BODY of [A]. *)
Lemma heredoc_end_directly_after_start_counterexample :
  (map fst (drive (P := c_locale) create
              [69; 79; 70; 10; 69; 79; 70; 59; 10] 0
              [(0%nat, expects [HEREDOC_START]);
               (0%nat, expects [HEREDOC_BODY; HEREDOC_END;
                                EMBEDDED_OPENING_BRACE])])
   = [HEREDOC_START; HEREDOC_END]
   /\ claimed_end_order false [HEREDOC_START; HEREDOC_END] = false)
  /\ (map fst (drive (P := c_locale) create [65; 10] 0
                 [(0%nat, expects [HEREDOC_START])])
      = [HEREDOC_START]
      /\ forall steps,
           Forall (fun t => t <> HEREDOC_END)
             (map fst (drive (P := c_locale) create [65; 10] 0 steps)))
  /\ map fst (drive (P := c_locale) create
                [65; 10; 120; 10; 65; 10; 66; 10; 121; 10; 66; 10] 0
                [(0%nat, expects [HEREDOC_START]);
                 (0%nat, expects [HEREDOC_BODY; HEREDOC_END;
                                  EMBEDDED_OPENING_BRACE]);
                 (0%nat, expects [HEREDOC_BODY; HEREDOC_END;
                                  EMBEDDED_OPENING_BRACE]);
                 (3%nat, expects [HEREDOC_START]);
                 (2%nat, expects [HEREDOC_BODY; HEREDOC_END;
                                  EMBEDDED_OPENING_BRACE])])
     = [HEREDOC_START; HEREDOC_START_NEWLINE; HEREDOC_BODY;
        HEREDOC_START; HEREDOC_END].
Proof.
  split; [split; vm_compute; reflexivity|]. split.
  - split; [vm_compute; reflexivity|].
    intros steps. apply (unterminated_heredoc_never_ends (P := c_locale)).
  - vm_compute. reflexivity.
Defined.

(** Witness for [heredoc_end_discipline]: in the heredoc with the delimiter
    [EOF] and [did_end] set, at the newline before the closing line [EOF;],
    the host gets HEREDOC_END and the literal is closed. *)
Lemma heredoc_end_discipline_witness :
  exists lx',
    result_symbol lx' = HEREDOC_END
    /\ drive_scans (P := c_locale) (set_flags sample_scanner true true)
         [120; 10; 69; 79; 70; 59; 10] 1 [(0%nat, expects [HEREDOC_END])]
       = (lx', close_heredoc (set_flags sample_scanner true true))
         :: drive_scans (P := c_locale)
              (close_heredoc (set_flags sample_scanner true true))
              [120; 10; 69; 79; 70; 59; 10] (token_end_position lx') [].
Proof.
  apply (proj2 (heredoc_end_discipline (P := c_locale))
           (set_flags sample_scanner true true)
           [120; 10; 69; 79; 70; 59; 10] 1%nat 0%nat
           (expects [HEREDOC_END]) []).
  - reflexivity.
  - reflexivity.
  - reflexivity.
  - reflexivity.
  - exists [59; 10]. split; [reflexivity|]. exists []. by right.
Defined.


(** Witness for [heredoc_start_sets_did_end]: the opener [EOF] directly
    before the closing line [EOF;], in the C locale. *)
Lemma heredoc_start_sets_did_end_witness :
  did_start (set_flags sample_scanner false true) = did_start create
  /\ exists m,
       Some 3%nat = Some m
       /\ (did_end (set_flags sample_scanner false true) = true
           <-> did_end create = true
               \/ closing_line
                    (string_bytes
                       (delimiter (set_flags sample_scanner false true)))
                    (drop (S m) [69; 79; 70; 10; 69; 79; 70; 59; 10])).
Proof.
  apply (heredoc_start_sets_did_end (P := c_locale) create
           (lexer_at [69; 79; 70; 10; 69; 79; 70; 59; 10] 0)
           (set_flags sample_scanner false true)
           {| input := [69; 79; 70; 10; 69; 79; 70; 59; 10]; pos := 8;
              token_start := 0; token_end := Some 3%nat;
              result_symbol := HEREDOC_START |}).
  - vm_compute. reflexivity.
  - vm_compute. repeat constructor; discriminate.
Defined.

(** Witness for [closed_state_is_initial]: the state restored from an empty
    buffer into the scanner that held the delimiter [EOF]. *)
Lemma closed_state_is_initial_witness :
  observe (close_heredoc sample_scanner) = observe create.
Proof.
  apply (closed_state_is_initial (P := c_locale)
           (close_heredoc sample_scanner)).
  - apply (reachable_reset sample_scanner []).
    + exact (reachable_wf _ sample_scanner_reachable).
    + reflexivity.
  - reflexivity.
Defined.

(** Witness for [heredoc_tokens_in_order]: the heredoc [EOF], newline, [x],
    newline, [EOF;], from the newline after the opener. *)
Lemma heredoc_tokens_in_order_witness :
  drive (P := c_locale) sample_scanner
    [69; 79; 70; 10; 120; 10; 69; 79; 70; 59; 10] 3
    [(0%nat, expects [HEREDOC_START_NEWLINE; HEREDOC_BODY]);
     (0%nat, expects [HEREDOC_BODY; EMBEDDED_OPENING_BRACE]);
     (0%nat, expects [HEREDOC_END_NEWLINE; HEREDOC_END])]
  = [(HEREDOC_START_NEWLINE, set_flags sample_scanner true false);
     (HEREDOC_BODY, set_flags sample_scanner true true);
     (HEREDOC_END, close_heredoc sample_scanner)].
Proof.
  apply (heredoc_tokens_in_order (P := c_locale) sample_scanner
           [69; 79; 70; 10; 120; 10; 69; 79; 70; 59; 10] 3
           [120] [69; 79; 70; 59; 10]).
  - vm_compute. repeat constructor.
  - reflexivity.
  - reflexivity.
  - reflexivity.
  - reflexivity.
  - reflexivity.
  - reflexivity.
  - discriminate.
  - vm_compute. repeat constructor.
  - intros (tl & H). vm_compute in H. discriminate.
  - intros pre post H (after & Hp & _). vm_compute in Hp.
    do 2 (destruct pre as [|? pre]; simplify_eq/=).
  - exists [59; 10]. split; [reflexivity|]. exists []. right. reflexivity.
  - reflexivity.
Defined.

(** * The extent of the tokens *)

Lemma pos_advance_peek lx b c :
  peek lx = c -> c <> 0 -> pos (advance lx b) = S (pos lx).
Proof. intros <- H. apply pos_advance, lookahead_nonzero, H. Qed.

Lemma token_start_advance lx :
  token_start (advance lx false) = token_start lx.
Proof. apply token_start_next. Qed.

(** Name the position after an [advance], with what is known of it. *)
Ltac bound_one x b :=
  let n := fresh "n" in
  pose proof (pos_advance_le x b); pose proof (pos_advance_S x b);
  try (let H := fresh in
       assert (pos (advance x b) = S (pos x)) as H
         by (first [ eapply pos_advance_peek; [eassumption | done]
                   | apply pos_advance, lookahead_nonzero; assumption ]));
  set (n := pos (advance x b)) in *; clearbody n; simpl in *.

Ltac bound_advance :=
  repeat match goal with
  | |- context [pos (advance ?x ?b)] => bound_one x b
  | H : context [pos (advance ?x ?b)] |- _ => bound_one x b
  end.

(** Replace what is known of a [scan_delimiter] by its frame. *)
Ltac frame_delims :=
  repeat match goal with
  | H : scan_delimiter _ ?a = (_, ?b) |- _ =>
      let Hle := fresh in let Hte := fresh in let Hts := fresh in
      pose proof (scan_delimiter_frame _ _ _ _ H) as ([_ Hle] & Hte & Hts & _);
      clear H
  end.

Ltac lexer_fields :=
  repeat first
    [ rewrite token_end_advance
    | rewrite token_start_advance
    | match goal with
      | H : token_end ?t = _ |- context [token_end ?t] => rewrite H
      | H : token_start ?t = _ |- context [token_start ?t] => rewrite H
      end
    | progress simpl ].

Section TokenRange.
Implicit Types (s : Scanner) (lx : TSLexer) (da : bool).

(** While [did_end] is not set, a turn of the loop that goes on has moved
    the cursor, and one that succeeds has marked the end of the token; none
    has skipped a character. *)
Lemma scan_body_iteration_marks s lx da :
  did_end s = false ->
  match scan_body_iteration s lx da with
  | Continue lx1 =>
      token_start lx1 = token_start lx /\ (pos lx < pos lx1)%nat
  | Return true s' lx' =>
      token_start lx' = token_start lx
      /\ exists m,
           token_end lx' = Some m
           /\ ((if da then pos lx else S (pos lx)) <= m <= pos lx')%nat
  | Return false _ _ => True
  end.
Proof.
  intros He. unfold scan_body_iteration. rewrite He.
  repeat case_match; simplify_eq; try done; bool_hyps;
    unfold Chr.NUL, Chr.NL, Chr.BACKSLASH, Chr.LBRACE, Chr.DOLLAR,
      Chr.SEMI in *;
    try lia; try congruence;
    frame_delims; unfold next, skip, stop, set in *; lexer_fields.
  all: try (split; [done|]); try (eexists; split; [reflexivity|]).
  all: try change (peek (mark_end ?x)) with (peek x) in *.
  all: simpl in *; bound_advance; simpl in *; try lia.
Qed.

Lemma scan_body_loop_marks s fuel : forall lx s' lx',
  did_end s = false ->
  scan_body_loop fuel s lx true = Some (true, s', lx') ->
  token_start lx' = token_start lx
  /\ exists m, token_end lx' = Some m /\ (pos lx <= m <= pos lx')%nat.
Proof.
  induction fuel as [|fuel IH]; intros lx s' lx' He; [done|].
  rewrite scan_body_loop_S.
  pose proof (scan_body_iteration_marks s lx true He) as Hm.
  destruct (scan_body_iteration s lx true) as [r0 s0 lx0|lx1].
  - by intros [= -> -> ->].
  - intros (Hts & m & Hte & Hle)%IH; [|done]. destruct Hm as [Hts1 Hlt].
    split; [congruence|]. exists m. split; [done | lia].
Qed.

(** X17. While [did_end] is not set, every token [scan_body] emits starts
    where the host had the start of the token, since nothing is skipped,
    and its end is marked, strictly after the cursor the scan started from
    and not after the cursor it stopped at.  So, for a host that starts the
    token at the cursor, no such token is empty. *)
Theorem body_token_is_marked s lx s' lx' :
  did_end s = false ->
  scan_body s lx = Some (true, s', lx') ->
  token_start lx' = token_start lx
  /\ exists m, token_end lx' = Some m /\ (pos lx < m <= pos lx')%nat.
Proof.
  intros He. rewrite scan_body_unfold.
  pose proof (scan_body_iteration_marks s lx false He) as Hm.
  destruct (scan_body_iteration s lx false) as [r0 s0 lx0|lx1].
  - intros [= -> -> ->]. destruct Hm as (Hts & m & Hte & Hle).
    split; [done|]. exists m. split; [done | lia].
  - intros (Hts & m & Hte & Hle)%scan_body_loop_marks; [|done].
    destruct Hm as [Hts1 Hlt]. split; [congruence|].
    exists m. split; [done | lia].
Qed.
End TokenRange.

(** Witness for [body_token_is_marked]: the newline before the body line
    [x]. *)
Lemma body_token_is_marked_witness :
  token_start
    {| input := [10; 120; 10; 69; 79; 70; 59; 10]; pos := 1;
       token_start := 0; token_end := Some 1%nat;
       result_symbol := HEREDOC_START_NEWLINE |}
  = token_start (lexer_at [10; 120; 10; 69; 79; 70; 59; 10] 0)
  /\ exists m,
       Some 1%nat = Some m /\ (0 < m <= 1)%nat.
Proof.
  apply (body_token_is_marked sample_scanner
           (lexer_at [10; 120; 10; 69; 79; 70; 59; 10] 0)
           (set_flags sample_scanner true false)
           {| input := [10; 120; 10; 69; 79; 70; 59; 10]; pos := 1;
              token_start := 0; token_end := Some 1%nat;
              result_symbol := HEREDOC_START_NEWLINE |}).
  - reflexivity.
  - vm_compute. reflexivity.
Defined.

Section StartTokenRange.
Context {P : Platform}.
Implicit Types (s : Scanner) (lx : TSLexer).

(** [skip] moves the start of the token along with the cursor. *)
Lemma skip_whitespace_token_start fuel : forall lx lx1,
  skip_whitespace fuel lx = Some lx1 ->
  token_start lx = pos lx -> token_start lx1 = pos lx1.
Proof.
  induction fuel as [|fuel IH]; intros lx lx1; [done|]. simpl.
  destruct (iswspace (peek lx)); [|by intros [= <-]].
  intros H Hts. apply (IH _ _ H). unfold skip, advance.
  by destruct (pos lx <? length (input lx))%nat.
Qed.

Lemma scan_identifier_rest_token_start fuel : forall d lx d' lx',
  scan_identifier_rest fuel d lx = Some (d', lx') ->
  token_start lx' = token_start lx.
Proof.
  induction fuel as [|fuel IH]; intros d lx d' lx'; [done|]. simpl.
  destruct (iswalnum (peek lx) || (peek lx =? Chr.UNDERSCORE)).
  - intros ->%IH. apply token_start_next.
  - by intros [= <- <-].
Qed.

(** After the whitespace, [scan_start] keeps the start of the token. *)
Lemma scan_start_token_start s lx r s' lx' :
  scan_start s lx = Some (r, s', lx') ->
  exists lx1,
    skip_whitespace (S (remaining lx)) lx = Some lx1
    /\ token_start lx' = token_start lx1.
Proof.
  unfold scan_start. intros H.
  destruct (skip_whitespace (S (remaining lx)) lx) as [lx1|]; [|done].
  exists lx1. split; [done|].
  destruct (if (peek lx1 =? Chr.SQUOTE) || (peek lx1 =? Chr.DQUOTE)
            then (peek lx1, next lx1) else (0, lx1)) as [quote lx2] eqn:Hq.
  assert (token_start lx2 = token_start lx1) as <-.
  { destruct ((peek lx1 =? Chr.SQUOTE) || (peek lx1 =? Chr.DQUOTE));
      injection Hq as <- <-; [apply token_start_next | done]. }
  destruct (if iswalpha (peek lx2) || (peek lx2 =? Chr.UNDERSCORE)
            then _ else _) as [[d lx3]|] eqn:Hid; [|done].
  assert (token_start lx3 = token_start lx2) as <-.
  { destruct (iswalpha (peek lx2) || (peek lx2 =? Chr.UNDERSCORE)).
    - apply scan_identifier_rest_token_start in Hid as ->.
      apply token_start_next.
    - by injection Hid as <- <-. }
  assert (token_start (if peek lx3 =? quote then next lx3 else lx3)
          = token_start lx3) as Hts4
    by (destruct (peek lx3 =? quote); [apply token_start_next | done]).
  clear Hq Hid.
  destruct (negb (peek lx3 =? quote) && negb (quote =? 0));
    [by injection H as _ _ <-|].
  rewrite <- Hts4. clear Hts4.
  set (lx4 := if peek lx3 =? quote then next lx3 else lx3) in *.
  destruct (negb (peek lx4 =? Chr.NL) || (len d =? 0));
    [by injection H as _ _ <-|].
  cbv zeta in H.
  destruct (scan_delimiter _ (next (stop (set HEREDOC_START lx4))))
    as [m t] eqn:Hdel.
  apply scan_delimiter_frame in Hdel as (_ & _ & Hts & _).
  rewrite token_start_next in Hts. simpl in Hts. rewrite <- Hts.
  destruct m; [|by injection H as _ _ <-].
  destruct (peek t =? Chr.SEMI);
    destruct (peek _ =? Chr.NL); injection H as _ _ <-;
    by rewrite ?token_start_next.
Qed.

(** X18. The token HEREDOC_START begins at the first character that is not
    whitespace: for a host that starts the token at the cursor, the
    whitespace before the opener is skipped and no more.  Where [iswalpha]
    does not hold of NUL, the token is not empty. *)
Theorem heredoc_start_begins_after_whitespace s lx s' lx' :
  iswalpha Chr.NUL = false ->
  token_start lx = pos lx ->
  scan_start s lx = Some (true, s', lx') ->
  exists ws,
    drop (pos lx) (input lx) = ws ++ drop (token_start lx') (input lx)
    /\ Forall (fun c => iswspace c = true) ws
    /\ iswspace (default 0 (input lx !! token_start lx')) = false
    /\ exists m, token_end lx' = Some m /\ (token_start lx' < m)%nat.
Proof.
  intros H0 Hts H.
  destruct (scan_start_token_start _ _ _ _ _ H) as (lx1 & Hws & Hts').
  pose proof (skip_whitespace_token_start _ _ _ Hws Hts) as Hts1.
  apply scan_start_unfold in H
    as (lx1' & quote & lx2 & d & lx3 & Hws' & Hq & Hid & Hr & _ & _ & _ & _
        & Hok).
  rewrite Hws in Hws'. injection Hws' as <-.
  destruct (Hok eq_refl) as (_ & Hte & _). clear Hok.
  apply skip_whitespace_spec in Hws as (ws & Hd & Hfa & Hpk & [Hi1 Hp1] & _).
  exists ws. rewrite Hts', Hts1. split_and!; try done;
    [by rewrite <- Hi1 at 2 | by rewrite <- Hi1 |].
  exists (pos (if peek lx3 =? quote then next lx3 else lx3)).
  split; [done|].
  symmetry in Hr. apply andb_true_iff in Hr as [_ Hne].
  apply negb_true_iff, Z.eqb_neq in Hne.
  assert (pos lx1 <= pos lx2)%nat as Hp2.
  { destruct ((peek lx1 =? Chr.SQUOTE) || (peek lx1 =? Chr.DQUOTE));
      injection Hq as _ ->; [apply pos_advance_le | done]. }
  assert (pos lx2 < pos lx3)%nat as Hp3.
  { destruct (ident_start (peek lx2)) eqn:Est.
    - apply scan_identifier_rest_le in Hid as [_ Hle].
      assert (peek lx2 <> 0) as Hnz.
      { intros Hz. rewrite Hz in Est. unfold ident_start in Est.
        unfold Chr.NUL in H0. by rewrite H0 in Est. }
      unfold next in Hle.
      rewrite (pos_advance_peek lx2 false _ eq_refl Hnz) in Hle. lia.
    - injection Hid as <- <-. by rewrite string_clear_len in Hne. }
  assert (pos lx3 <= pos (if (peek lx3 =? quote)%Z then next lx3 else lx3))%nat
    by (destruct (peek lx3 =? quote); [apply pos_advance_le | done]).
  lia.
Qed.
End StartTokenRange.

(** Witness for [heredoc_start_begins_after_whitespace]: a space and a tab
    before the opener [EOF], in the C locale. *)
Lemma heredoc_start_begins_after_whitespace_witness :
  exists ws,
    drop 0 [32; 9; 69; 79; 70; 10; 120; 10]
    = ws ++ drop 2 [32; 9; 69; 79; 70; 10; 120; 10]
    /\ Forall (fun c => iswspace (Platform := c_locale) c = true) ws
    /\ iswspace (Platform := c_locale)
         (default 0 ([32; 9; 69; 79; 70; 10; 120; 10] !! 2%nat)) = false
    /\ exists m, Some 5%nat = Some m /\ (2 < m)%nat.
Proof.
  apply (heredoc_start_begins_after_whitespace (P := c_locale) create
           (lexer_at [32; 9; 69; 79; 70; 10; 120; 10] 0)
           sample_scanner
           {| input := [32; 9; 69; 79; 70; 10; 120; 10]; pos := 6;
              token_start := 2; token_end := Some 5%nat;
              result_symbol := HEREDOC_START |}).
  - reflexivity.
  - reflexivity.
  - vm_compute. reflexivity.
Defined.

(** * The scanner only depends on what is serialized *)

Section Observed.
Context {P : Platform}.
Implicit Types (s : Scanner) (lx : TSLexer) (da : bool).

Lemma scan_body_iteration_observe s1 s2 lx da :
  observe s1 = observe s2 ->
  match scan_body_iteration s1 lx da, scan_body_iteration s2 lx da with
  | Return r1 s1' lx1, Return r2 s2' lx2 =>
      r1 = r2 /\ lx1 = lx2 /\ observe s1' = observe s2'
  | Continue lx1, Continue lx2 => lx1 = lx2
  | _, _ => False
  end.
Proof.
  intros Ho. pose proof Ho as Ho'. unfold observe in Ho'.
  injection Ho' as Hn Hs He Hl Hb.
  unfold scan_body_iteration, scan_delimiter. rewrite Hn, Hs, He, Hb.
  repeat case_match; simplify_eq; try done; split_and!; try done;
    unfold observe, string_bytes in *; simpl; congruence.
Qed.

Lemma scan_body_loop_observe s1 s2 fuel : forall lx da,
  observe s1 = observe s2 ->
  same_outcome (scan_body_loop fuel s1 lx da) (scan_body_loop fuel s2 lx da).
Proof.
  induction fuel as [|fuel IH]; intros lx da Ho; [done|].
  rewrite !scan_body_loop_S.
  pose proof (scan_body_iteration_observe s1 s2 lx da Ho) as H.
  destruct (scan_body_iteration s1 lx da), (scan_body_iteration s2 lx da);
    try done.
  subst. by apply IH.
Qed.

Lemma scan_identifier_rest_observe fuel : forall d1 d2 lx,
  wf_string d1 -> wf_string d2 ->
  len d1 = len d2 -> string_bytes d1 = string_bytes d2 ->
  len d1 + Z.of_nat (remaining lx) < 2 ^ 31 ->
  match scan_identifier_rest fuel d1 lx, scan_identifier_rest fuel d2 lx with
  | Some (d1', lx1), Some (d2', lx2) =>
      lx1 = lx2 /\ len d1' = len d2' /\ string_bytes d1' = string_bytes d2'
  | None, None => True
  | _, _ => False
  end.
Proof.
  induction fuel as [|fuel IH]; intros d1 d2 lx Hw1 Hw2 Hl Hb Hbound; [done|].
  simpl. fold (ident_part (peek lx)).
  destruct (ident_part (peek lx)) eqn:E; [|done].
  destruct (Nat.lt_ge_cases (pos lx) (length (input lx))) as [Hlt|Hge].
  - destruct (string_push_spec d1 (to_char (peek lx)) Hw1)
      as (Hw1' & Hl1 & Hb1); [unfold remaining in Hbound; lia|].
    destruct (string_push_spec d2 (to_char (peek lx)) Hw2)
      as (Hw2' & Hl2 & Hb2); [unfold remaining in Hbound; lia|].
    apply IH; try done; [congruence | congruence |].
    rewrite Hl1. unfold next, remaining in *.
    rewrite input_advance, pos_advance by done. lia.
  - unfold next. rewrite advance_eof by done.
    by rewrite !scan_identifier_rest_stuck.
Qed.

Lemma scan_start_observe s1 s2 lx :
  wf_scanner s1 -> wf_scanner s2 ->
  Z.of_nat (length (input lx)) < 2 ^ 31 ->
  observe s1 = observe s2 ->
  same_outcome (scan_start s1 lx) (scan_start s2 lx).
Proof.
  intros Hw1 Hw2 Hlen Ho. pose proof Ho as Ho'. unfold observe in Ho'.
  injection Ho' as Hn Hs He Hl Hb.
  unfold scan_start. rewrite Hs, He.
  destruct (skip_whitespace (S (remaining lx)) lx) as [lx1|] eqn:Hws; [|done].
  apply skip_whitespace_spec in Hws as (_ & _ & _ & _ & [Hi1 _] & _).
  destruct (if (peek lx1 =? Chr.SQUOTE) || (peek lx1 =? Chr.DQUOTE)
            then (peek lx1, next lx1) else (0, lx1)) as [quote lx2] eqn:Hq.
  assert (input lx2 = input lx) as Hi2.
  { rewrite <- Hi1.
    destruct ((peek lx1 =? Chr.SQUOTE) || (peek lx1 =? Chr.DQUOTE));
      injection Hq as _ <-; [apply input_advance | done]. }
  clear Hq.
  set (X1 := if iswalpha (peek lx2) || (peek lx2 =? Chr.UNDERSCORE)
             then scan_identifier_rest (S (remaining lx2))
                    (string_push (string_clear (delimiter s1))
                       (to_char (peek lx2))) (next lx2)
             else Some (string_clear (delimiter s1), lx2)).
  set (X2 := if iswalpha (peek lx2) || (peek lx2 =? Chr.UNDERSCORE)
             then scan_identifier_rest (S (remaining lx2))
                    (string_push (string_clear (delimiter s2))
                       (to_char (peek lx2))) (next lx2)
             else Some (string_clear (delimiter s2), lx2)).
  assert (match X1, X2 with
          | Some (d1, l1), Some (d2, l2) =>
              l1 = l2 /\ len d1 = len d2 /\ string_bytes d1 = string_bytes d2
          | None, None => True
          | _, _ => False
          end) as HX.
  { subst X1 X2.
    destruct (iswalpha (peek lx2) || (peek lx2 =? Chr.UNDERSCORE)); [|done].
    destruct (first_push_ok s1 lx2 (to_char (peek lx2)) Hw1)
      as (Hwf1 & Hl1 & Hb1 & Hbd1); [by rewrite Hi2|].
    destruct (first_push_ok s2 lx2 (to_char (peek lx2)) Hw2)
      as (Hwf2 & Hl2 & Hb2 & _); [by rewrite Hi2|].
    apply scan_identifier_rest_observe; try done; congruence. }
  destruct X1 as [[d1 l1]|], X2 as [[d2 l2]|]; try done.
  destruct HX as (-> & Hl' & Hb').
  unfold scan_delimiter. cbn [delimiter]. rewrite Hl', Hb'.
  repeat case_match; simplify_eq; try done; split_and!; try done;
    unfold observe, string_bytes in *; simpl; congruence.
Qed.

Lemma scan_observe s1 s2 lx e :
  wf_scanner s1 -> wf_scanner s2 ->
  Z.of_nat (length (input lx)) < 2 ^ 31 ->
  observe s1 = observe s2 ->
  same_outcome (scan s1 lx e) (scan s2 lx e).
Proof.
  intros Hw1 Hw2 Hlen Ho. unfold scan.
  assert (len (delimiter s1) = len (delimiter s2)) as ->
    by (unfold observe in Ho; congruence).
  destruct ((e HEREDOC_BODY || e HEREDOC_END || e EMBEDDED_OPENING_BRACE)
            && (0 <? len (delimiter s2))).
  - by apply scan_body_loop_observe.
  - destruct (e HEREDOC_START); [by apply scan_start_observe | done].
Qed.

(** X19. What a scan does only depends on what [serialize] writes of the
    state, the three flags and the bytes of the delimiter, not on the
    capacity of the block or on the bytes behind the delimiter: from two
    well-formed states that cannot be told apart, the two scans return the
    same, leave the lexer the same, and end in states that cannot be told
    apart. *)
Theorem scan_depends_on_observed_state s1 s2 lx e :
  wf_scanner s1 -> wf_scanner s2 ->
  Z.of_nat (length (input lx)) < 2 ^ 31 ->
  observe s1 = observe s2 ->
  same_outcome (scan s1 lx e) (scan s2 lx e).
Proof. apply scan_observe. Qed.

(** X20. Restoring the state does not change what the scanner does: after
    [serialize] has written the state [s], a scan from the state that
    [deserialize] builds from the buffer, into whatever well-formed scanner
    object, does the same as a scan from [s]. *)
Theorem scan_after_restore s s0 buffer n out lx e :
  wf_scanner s -> wf_scanner s0 ->
  length buffer = Z.to_nat TREE_SITTER_SERIALIZATION_BUFFER_SIZE ->
  serialize s buffer = (n, out) -> n <> 0 ->
  Z.of_nat (length (input lx)) < 2 ^ 31 ->
  exists s',
    deserialize s0 out n = Some s'
    /\ same_outcome (scan s' lx e) (scan s lx e).
Proof.
  intros Hw Hw0 Hlen Hser Hn Hinp.
  destruct (deserialize_serialize s s0 buffer n out)
    as (s' & Hs' & Ho & Hwd); try done.
  exists s'. split; [done|]. by apply scan_observe.
Qed.
End Observed.

(** Witness for [scan_depends_on_observed_state]: two states with the
    delimiter [EOF], in blocks of different capacities. *)
Lemma scan_depends_on_observed_state_witness :
  same_outcome
    (scan (P := c_locale) sample_scanner
       (lexer_at [10; 120; 10; 69; 79; 70; 10] 0) (expects [HEREDOC_BODY]))
    (scan (P := c_locale) compact_sample_scanner
       (lexer_at [10; 120; 10; 69; 79; 70; 10] 0) (expects [HEREDOC_BODY])).
Proof.
  apply (scan_depends_on_observed_state (P := c_locale) sample_scanner
           compact_sample_scanner).
  - apply (reachable_wf (P := c_locale)), sample_scanner_reachable.
  - split; simpl; lia || reflexivity.
  - simpl. lia.
  - reflexivity.
Defined.

(** Witness for [scan_after_restore]: the state with the delimiter [EOF],
    restored into a fresh scanner. *)
Lemma scan_after_restore_witness :
  exists s',
    deserialize create ([0; 0; 0; 69; 79; 70] ++ replicate 1018%nat 0) 6
    = Some s'
    /\ same_outcome
         (scan (P := c_locale) s'
            (lexer_at [10; 120; 10; 69; 79; 70; 10] 0)
            (expects [HEREDOC_BODY]))
         (scan (P := c_locale) sample_scanner
            (lexer_at [10; 120; 10; 69; 79; 70; 10] 0)
            (expects [HEREDOC_BODY])).
Proof.
  apply (scan_after_restore (P := c_locale) sample_scanner create
           (replicate 1024%nat 0) 6
           ([0; 0; 0; 69; 79; 70] ++ replicate 1018%nat 0)).
  - apply (reachable_wf (P := c_locale)), sample_scanner_reachable.
  - exact create_wf.
  - reflexivity.
  - vm_compute. reflexivity.
  - lia.
  - simpl. lia.
Defined.

(** Witness for [unterminated_body_fails]: the line [x] and the delimiter
    [EOF] at the end of the input, with no newline after it. *)
Lemma unterminated_body_fails_witness :
  exists lx',
    scan_body sample_scanner (lexer_at [120; 10; 69; 79; 70] 0)
    = Some (false, sample_scanner, lx')
    /\ input lx' = [120; 10; 69; 79; 70] /\ (5 <= pos lx')%nat.
Proof.
  apply (unterminated_body_fails sample_scanner
           (lexer_at [120; 10; 69; 79; 70] 0) [120; 10; 69; 79; 70]).
  - vm_compute. repeat constructor.
  - reflexivity.
  - right. discriminate.
  - vm_compute. repeat constructor.
  - intros pre post H (after & Hp & tail & Ht). vm_compute in Hp.
    repeat (destruct pre as [|? pre]; simplify_eq/=).
    by destruct Ht.
  - reflexivity.
Defined.

(** * Which tokens [scan] emits *)

Section Dispatch.
Context {P : Platform}.

(** X22. A successful [scan] emits HEREDOC_START exactly when it has not
    gone into [scan_body], that is, unless the host expects a token of the
    body while the delimiter is not empty; HEREDOC_START was then expected,
    and it leaves a delimiter that is not empty.  Every other token is
    emitted inside a heredoc only, when one of HEREDOC_BODY, HEREDOC_END and
    EMBEDDED_OPENING_BRACE is expected, whether the token itself is
    expected or not. *)
Theorem scan_token_kinds s lx e s' lx' :
  scan s lx e = Some (true, s', lx') ->
  (result_symbol lx' = HEREDOC_START
   <-> ~ (expects_body e = true /\ 0 < len (delimiter s)))
  /\ (result_symbol lx' = HEREDOC_START ->
      e HEREDOC_START = true /\ 0 < len (delimiter s')).
Proof.
  unfold scan, expects_body. intros H.
  destruct (e HEREDOC_BODY || e HEREDOC_END || e EMBEDDED_OPENING_BRACE)
    eqn:Eb; simpl in H;
    [destruct (Z.ltb_spec 0 (len (delimiter s))) as [Hl|Hl]|].
  - apply scan_body_loop_outcome in H as (da & _ & Ho).
    assert (result_symbol lx' <> HEREDOC_START) as Hne
      by (inversion Ho; congruence).
    split; [split|]; try done. intros Hno. exfalso. by apply Hno.
  - destruct (e HEREDOC_START) eqn:Es; [|done].
    pose proof (scan_start_mark _ _ _ _ H) as (Hr & _).
    apply scan_start_opens in H. split; [|done].
    split; [|done]. intros _ [_ ?]. lia.
  - destruct (e HEREDOC_START) eqn:Es; [|done].
    pose proof (scan_start_mark _ _ _ _ H) as (Hr & _).
    apply scan_start_opens in H. split; [|done].
    split; [|done]. by intros _ [? _].
Qed.
End Dispatch.

(** Witness for [scan_token_kinds]: the opener [EOF] in the C locale. *)
Lemma scan_token_kinds_witness :
  (HEREDOC_START = HEREDOC_START
   <-> ~ (expects_body (expects [HEREDOC_START]) = true
          /\ 0 < len (delimiter create)))
  /\ (HEREDOC_START = HEREDOC_START ->
      expects [HEREDOC_START] HEREDOC_START = true
      /\ 0 < len (delimiter sample_scanner)).
Proof.
  apply (scan_token_kinds (P := c_locale) create
           (lexer_at [69; 79; 70; 10] 0) (expects [HEREDOC_START])
           sample_scanner
           {| input := [69; 79; 70; 10]; pos := 4; token_start := 0;
              token_end := Some 3%nat; result_symbol := HEREDOC_START |}).
  vm_compute. reflexivity.
Defined.
